(** * OGDF PoolMemoryAllocator: a shallow embedding and its properties

    The development follows [src/ogdf/basic/PoolMemoryAllocator.cpp].
    Memory is a finite map from the byte address of a pointer-sized cell to
    the pointer stored there; the only cells the allocator ever touches are
    the [m_next] link of a free-list element ([MemElem], offset 0) and the
    [m_next] link of a block ([BlockChain], behind the [m_fill] area).

    The multi-threaded build (no [OGDF_MEMORY_POOL_NTS]) is modelled, seen
    from one calling thread: its thread-local table [s_tp], the global table
    [s_pool], the block chain anchor [s_blocks] and, in a debug build, the
    counter [s_nettoAlloc].  [enterCS]/[leaveCS] only serialise accesses and
    have no effect on the sequential behaviour of one call.

    The counts of the source (the [int]s [m_size] and [n]) are mathematical
    integers here; they agree with the code as long as a list holds fewer
    than [2^31] cells.  Where the code multiplies two [int]s and adds the
    product to a [size_t], in [unguardedMemGlobalFreelist], the wrap-around
    is written out, and so is the one narrowing conversion of the source,
    [uint16_t(nBytes)]. *)

From stdpp Require Import base option list functions gmap sorting.
From Stdlib Require Import ZArith Lia.

Local Open Scope Z_scope.

(** ** Outcomes of a call *)

(** A call either returns, or has no defined behaviour in C++ (a null or
    wild dereference, a table index out of range), or trips [OGDF_ASSERT],
    or fails to terminate within the steps it was given. *)
Inductive result (A : Type) : Type :=
  | Ok (a : A)
  | Undefined
  | AssertionFailed
  | OutOfFuel.
Arguments Ok {A} a.
Arguments Undefined {A}.
Arguments AssertionFailed {A}.
Arguments OutOfFuel {A}.

#[global] Instance result_ret : MRet result := fun A a => Ok a.
#[global] Instance result_bind : MBind result := fun A B f m =>
  match m with
  | Ok a => f a
  | Undefined => Undefined
  | AssertionFailed => AssertionFailed
  | OutOfFuel => OutOfFuel
  end.

Definition defined {A} (o : option A) : result A :=
  match o with Some a => Ok a | None => Undefined end.

(** ** Data model *)

Definition nullptr : Z := 0.

(** [struct PoolElement { MemElemPtr m_gp; int m_size; }] *)
Record PoolElement : Type := mkPoolElement {
  m_gp : Z;
  m_size : Z
}.

(** The constants of [PoolMemoryAllocator.h] and the build flags; the
    header is not part of the sources at hand, so they are parameters. *)
Record BuildConfig : Type := mkBuildConfig {
  OGDF_SIZEOF_POINTER : Z;
  eMinBytes : nat;
  eTableSize : nat;
  eBlockSize : Z;
  OGDF_DEBUG : bool
}.

(** The static data of the class, together with the memory it points into. *)
Record state : Type := mkState {
  heap : gmap Z Z;
  s_tp : list Z;
  s_pool : list PoolElement;
  s_blocks : Z;
  s_nettoAlloc : Z
}.

Definition set_heap (h : gmap Z Z) (st : state) : state :=
  mkState h (s_tp st) (s_pool st) (s_blocks st) (s_nettoAlloc st).
Definition set_tp (i : nat) (p : Z) (st : state) : state :=
  mkState (heap st) (<[i:=p]> (s_tp st)) (s_pool st) (s_blocks st) (s_nettoAlloc st).
Definition set_pool (i : nat) (pe : PoolElement) (st : state) : state :=
  mkState (heap st) (s_tp st) (<[i:=pe]> (s_pool st)) (s_blocks st) (s_nettoAlloc st).
Definition set_blocks (p : Z) (st : state) : state :=
  mkState (heap st) (s_tp st) (s_pool st) p (s_nettoAlloc st).
Definition set_nettoAlloc (n : Z) (st : state) : state :=
  mkState (heap st) (s_tp st) (s_pool st) (s_blocks st) n.

(** [s_tp[i]] and [s_pool[i]]; indexing past the table is undefined. *)
Definition tp_get (st : state) (i : nat) : result Z := defined (s_tp st !! i).
Definition pool_get (st : state) (i : nat) : result PoolElement :=
  defined (s_pool st !! i).

(** [p->m_next] read and written, for a [MemElemPtr p]. *)
Definition load (h : gmap Z Z) (p : Z) : result Z :=
  if decide (p = nullptr) then Undefined else defined (h !! p).
Definition store (h : gmap Z Z) (p v : Z) : result (gmap Z Z) :=
  if decide (p = nullptr) then Undefined else Ok (<[p:=v]> h).

(** [uint16_t(n)] *)
Definition uint16 (n : nat) : nat := Z.to_nat (Z.of_nat n mod 65536).

(** The result of an [int] operation whose exact value is [z]: 32 bits in
    two's complement, as the compilers at hand produce it. *)
Definition int32 (z : Z) : Z := (z + 2 ^ 31) mod 2 ^ 32 - 2 ^ 31.

(** [for (sz = 1; sz < eTableSize; ++sz) body], the state threaded through. *)
Fixpoint for_each {S : Type} (body : nat → S → result S) (l : list nat) (s : S)
    : result S :=
  match l with
  | [] => Ok s
  | sz :: l' => s' ← body sz s; for_each body l' s'
  end.

(** ** Linked chains in memory *)

(** [lseg h p q l]: following [m_next] from [p] visits exactly the cells
    [l], in order, and then arrives at [q]. *)
Fixpoint lseg (h : gmap Z Z) (p q : Z) (l : list Z) : Prop :=
  match l with
  | [] => p = q
  | a :: l' => p = a ∧ a ≠ nullptr ∧ ∃ r, h !! a = Some r ∧ lseg h r q l'
  end.

(** A free list: a chain that ends in [nullptr]. *)
Definition is_list (h : gmap Z Z) (p : Z) (l : list Z) : Prop := lseg h p nullptr l.

(** Who holds a cell: the global free list of a size class, the calling
    thread's free list of a size class, or the application. *)
Inductive place : Type :=
  | Global (sz : nat)
  | Local (sz : nat)
  | Outstanding.

#[global] Instance place_eq_dec : EqDecision place.
Proof. solve_decision. Defined.

(** No cell is held twice, neither within a place nor by two places. *)
Definition separate (own : place → list Z) : Prop :=
  (∀ pl, NoDup (own pl)) ∧ (∀ pl pl' x, x ∈ own pl → x ∈ own pl' → pl = pl').

Section Allocator.

Context (cfg : BuildConfig).

Definition sizes : list nat := seq 1 (eTableSize cfg - 1).

(** The zero-initialised statics at program start. *)
Definition initial_state : state :=
  mkState ∅ (replicate (eTableSize cfg) nullptr)
          (replicate (eTableSize cfg) (mkPoolElement nullptr 0)) nullptr 0.

(** [struct BlockChain { char m_fill[eBlockSize-sizeof(void* )]; BlockChain *m_next; }]:
    the fill area is what can be sliced, the link sits behind it. *)
Definition blockCapacity : Z := eBlockSize cfg - OGDF_SIZEOF_POINTER cfg.
Definition block_link (pBlock : Z) : Z := pBlock + blockCapacity.

(** [p->m_next] read and written, for a [BlockChainPtr p]. *)
Definition load_link (h : gmap Z Z) (p : Z) : result Z :=
  if decide (p = nullptr) then Undefined else defined (h !! block_link p).
Definition store_link (h : gmap Z Z) (p v : Z) : result (gmap Z Z) :=
  if decide (p = nullptr) then Undefined else Ok (<[block_link p:=v]> h).

(** Modelled from the spec: [slicesPerBlock] is defined in the header, which
    is not among the sources.  The per-slice word count is the size rounded
    up to whole pointer words; the slice count is "the block's fixed byte
    capacity divided by the (aligned) element size, floored".  Returns
    [(nWords, nSlices)]. *)
Definition slicesPerBlock (nBytes : nat) : Z * Z :=
  let nWords := (Z.of_nat nBytes + OGDF_SIZEOF_POINTER cfg - 1) / OGDF_SIZEOF_POINTER cfg in
  (nWords, blockCapacity / (nWords * OGDF_SIZEOF_POINTER cfg)).

(** [pBlock + nWords] on a [MemElemPtr]. *)
Definition ptr_add (p nWords : Z) : Z := p + nWords * OGDF_SIZEOF_POINTER cfg.

(** The addresses [makeSlices] is meant to link: the block start plus
    [i*nWords] words, for [i = 0 .. n-1]. *)
Definition slice_addrs (pBlock nWords : Z) (n : nat) : list Z :=
  (fun i => ptr_add pBlock (Z.of_nat i * nWords)) <$> seq 0 n.

(** *** allocateBlock *)

(** [blk] is what [malloc(eBlockSize)] returns to this call. *)
Definition allocateBlock (blk : Z) (st : state) : result (Z * state) :=
  h ← store_link (heap st) blk (s_blocks st);
  Ok (blk, set_blocks blk (set_heap h st)).

(** *** makeSlices *)

(** [do { pBlock = pBlock->m_next = pBlock+nWords; } while(--nSlices > 1);]
    The loop runs at most [max 1 (nSlices-1)] times; [fuel] only makes the
    recursion structural. *)
Fixpoint makeSlices_loop (fuel : nat) (h : gmap Z Z) (pBlock nWords nSlices : Z)
    : result (gmap Z Z * Z) :=
  match fuel with
  | O => OutOfFuel
  | S fuel' =>
      let next := ptr_add pBlock nWords in
      h' ← store h pBlock next;
      let nSlices' := nSlices - 1 in
      if decide (nSlices' > 1) then makeSlices_loop fuel' h' next nWords nSlices'
      else Ok (h', next)
  end.

Definition makeSlices (h : gmap Z Z) (pBlock nWords nSlices : Z) : result (gmap Z Z) :=
  '(h', pLast) ← makeSlices_loop (S (Z.to_nat nSlices)) h pBlock nWords nSlices;
  store h' pLast nullptr.

(** *** fillPool *)

(** [for(int i = 1; i < nSlices; ++i) p = p->m_next;] with [n] iterations. *)
Fixpoint advance (h : gmap Z Z) (p : Z) (n : nat) : result Z :=
  match n with
  | O => Ok p
  | S n' => q ← load h p; advance h q n'
  end.

(** [pFreeBytes] is a reference to [s_tp[ref]]; [nBytes] is the size after
    its conversion to [uint16_t]. *)
Definition fillPool (blk : Z) (ref : nat) (nBytes : nat) (st : state)
    : result (Z * state) :=
  let '(nWords, nSlices) := slicesPerBlock (Nat.max nBytes (uint16 (eMinBytes cfg))) in
  pe ← pool_get st nBytes;
  st' ← (if decide (m_size pe >= nSlices) then
           let st1 := set_tp ref (m_gp pe) st in
           p ← advance (heap st1) (m_gp pe) (Z.to_nat (nSlices - 1));
           next ← load (heap st1) p;
           let st2 := set_pool nBytes (mkPoolElement next (m_size pe - nSlices)) st1 in
           h ← store (heap st2) p nullptr;
           Ok (set_heap h st2)
         else
           '(pBlock, st1) ← allocateBlock blk st;
           let st2 := set_tp ref pBlock st1 in
           let st3 := if OGDF_DEBUG cfg
                      then set_nettoAlloc (s_nettoAlloc st2 + nWords * nSlices) st2
                      else st2 in
           h ← makeSlices (heap st3) pBlock nWords nSlices;
           Ok (set_heap h st3));
  p ← tp_get st' ref;
  next ← load (heap st') p;
  Ok (p, set_tp ref next st').

(** *** allocate, deallocate, deallocateList *)

Definition allocate (blk : Z) (nBytes : nat) (st : state) : result (Z * state) :=
  pFreeBytes ← tp_get st nBytes;
  if decide (pFreeBytes ≠ nullptr) then
    next ← load (heap st) pFreeBytes;
    let st1 := set_tp nBytes next st in
    h ← store (heap st1) pFreeBytes nullptr;
    Ok (pFreeBytes, set_heap h st1)
  else fillPool blk nBytes (uint16 nBytes) st.

Definition deallocate (nBytes : nat) (p : Z) (st : state) : result state :=
  pFreeBytes ← tp_get st nBytes;
  h ← store (heap st) p pFreeBytes;
  Ok (set_tp nBytes p (set_heap h st)).

Definition deallocateList (nBytes : nat) (pHead pTail : Z) (st : state) : result state :=
  pFreeBytes ← tp_get st nBytes;
  h ← store (heap st) pTail pFreeBytes;
  Ok (set_tp nBytes pHead (set_heap h st)).

(** *** flushPool *)

(** [while(pTail->m_next != nullptr) { pTail = pTail->m_next; ++n; }] *)
Fixpoint find_tail (fuel : nat) (h : gmap Z Z) (pTail n : Z) : result (Z * Z) :=
  match fuel with
  | O => OutOfFuel
  | S fuel' =>
      next ← load h pTail;
      if decide (next ≠ nullptr) then find_tail fuel' h next (n + 1)
      else Ok (pTail, n)
  end.

Definition flush_class (fuel : nat) (nBytes : nat) (st : state) : result state :=
  pHead ← tp_get st nBytes;
  if decide (pHead ≠ nullptr) then
    '(pTail, n) ← find_tail fuel (heap st) pHead 1;
    let pOldHead := pHead in
    let st1 := set_tp nBytes nullptr st in
    pe ← pool_get st1 nBytes;
    h ← store (heap st1) pTail (m_gp pe);
    Ok (set_pool nBytes (mkPoolElement pOldHead (m_size pe + n)) (set_heap h st1))
  else Ok st.

(** The loop variable is a [uint16_t]: with a table of more than 65535
    entries [nBytes < eTableSize] never fails and the loop does not end. *)
Definition flushPool (fuel : nat) (st : state) : result state :=
  if decide (Z.of_nat (eTableSize cfg) ≤ 65535) then for_each (flush_class fuel) sizes st
  else OutOfFuel.

(** *** Introspection *)

(** A value converted to [size_t], which is as wide as a pointer. *)
Definition to_size_t (z : Z) : Z := z mod 2 ^ (8 * OGDF_SIZEOF_POINTER cfg).

(** [bytesFree += pe.m_size * sz] over all size classes: [pe.m_size] and
    [sz] are [int]s and so is their product, which is then converted to
    [size_t] and added to the [size_t] sum. *)
Definition unguardedMemGlobalFreelist (st : state) : result Z :=
  for_each (fun sz bytesFree =>
              pe ← pool_get st sz;
              Ok (to_size_t (bytesFree + int32 (m_size pe * Z.of_nat sz))))
           sizes 0.

Definition memoryInGlobalFreeList (st : state) : result Z :=
  unguardedMemGlobalFreelist st.

(** [MemElemPtr &p = s_tp[sz]; for(; p != nullptr; p = p->m_next) bytesFree += sz;]
    [p] is a reference: every step of the walk assigns to [s_tp[sz]]. *)
Fixpoint thread_walk (fuel : nat) (sz : nat) (acc : state * Z) : result (state * Z) :=
  match fuel with
  | O => OutOfFuel
  | S fuel' =>
      let '(st, bytesFree) := acc in
      p ← tp_get st sz;
      if decide (p ≠ nullptr) then
        next ← load (heap st) p;
        thread_walk fuel' sz (set_tp sz next st, bytesFree + Z.of_nat sz)
      else Ok (st, bytesFree)
  end.

(** Returns the state it leaves behind and the byte count. *)
Definition memoryInThreadFreeList (fuel : nat) (st : state) : result (state * Z) :=
  for_each (thread_walk fuel) sizes (st, 0).

(** [for (p = s_blocks; p != nullptr; p = p->m_next) ++nBlocks;] *)
Fixpoint count_blocks (fuel : nat) (h : gmap Z Z) (p nBlocks : Z) : result Z :=
  match fuel with
  | O => OutOfFuel
  | S fuel' =>
      if decide (p ≠ nullptr) then
        next ← load_link h p; count_blocks fuel' h next (nBlocks + 1)
      else Ok nBlocks
  end.

Definition memoryAllocatedInBlocks (fuel : nat) (st : state) : result Z :=
  nBlocks ← count_blocks fuel (heap st) (s_blocks st) 0;
  Ok (nBlocks * eBlockSize cfg).

(** *** cleanup *)

(** [free(p)]: the cells of the block leave the memory. *)
Definition release (h : gmap Z Z) (p : Z) : gmap Z Z :=
  filter (fun kv => ¬ (p ≤ kv.1 < p + eBlockSize cfg)) h.

(** [while(p != nullptr) { pNext = p->m_next; free(p); p = pNext; }];
    returns the memory left and the blocks handed to [free], in order. *)
Fixpoint free_chain (fuel : nat) (h : gmap Z Z) (p : Z) : result (gmap Z Z * list Z) :=
  match fuel with
  | O => OutOfFuel
  | S fuel' =>
      if decide (p ≠ nullptr) then
        pNext ← load_link h p;
        '(h', freed) ← free_chain fuel' (release h p) pNext;
        Ok (h', p :: freed)
      else Ok (h, [])
  end.

(** The condition of the [OGDF_ASSERT] in [cleanup], with the state the two
    introspection calls leave behind. *)
Definition cleanup_check (fuel : nat) (st : state) : result (state * bool) :=
  memGlobalFreelist ← unguardedMemGlobalFreelist st;
  '(st', memThreadFreelist) ← memoryInThreadFreeList fuel st;
  Ok (st', bool_decide (memGlobalFreelist + memThreadFreelist
                        = s_nettoAlloc st' * OGDF_SIZEOF_POINTER cfg)).

(** Returns the state afterwards and the list of blocks released. *)
Definition cleanup (fuel : nat) (st : state) : result (state * list Z) :=
  st1 ← (if OGDF_DEBUG cfg then
           '(st', ok) ← cleanup_check fuel st;
           if (ok : bool) then Ok st' else AssertionFailed
         else Ok st);
  '(h, freed) ← free_chain fuel (heap st1) (s_blocks st1);
  Ok (set_heap h st1, freed).

(** *** defrag *)

(** [for(MemElemPtr p = pe.m_gp; p != nullptr; p = p->m_next) a[i++] = p;]
    The buffer [a] has [maxSize] entries; writing past it is undefined. *)
Fixpoint collect (fuel : nat) (h : gmap Z Z) (p : Z) (room : nat) : result (list Z) :=
  match fuel with
  | O => OutOfFuel
  | S fuel' =>
      if decide (p ≠ nullptr) then
        match room with
        | O => Undefined
        | S room' =>
            next ← load h p; a ← collect fuel' h next room'; Ok (p :: a)
        end
      else Ok ([] : list Z)
  end.

(** [std::sort(a, a+n)] on pointers. *)
Definition std_sort (a : list Z) : list Z := merge_sort Z.le a.

(** [for(i = 0; i < n-1; ++i) a[i]->m_next = a[i+1]; a[n-1]->m_next = nullptr;] *)
Fixpoint relink (h : gmap Z Z) (a : list Z) : result (gmap Z Z) :=
  match a with
  | [] => Undefined
  | [x] => store h x nullptr
  | x :: (y :: _) as a' => h' ← store h x y; relink h' a'
  end.

(** One size class of [defrag].  When the walk does not visit exactly [n]
    elements the debug build stops at its assertion; in a release build
    [std::sort] would then read buffer entries this walk never wrote, which
    is not given a meaning here. *)
Definition defrag_class (fuel : nat) (maxSize : Z) (sz : nat) (st : state) : result state :=
  pe ← pool_get st sz;
  let n := m_size pe in
  if decide (n > 1) then
    a ← collect fuel (heap st) (m_gp pe) (Z.to_nat maxSize);
    if decide (Z.of_nat (length a) = n) then
      let a' := std_sort a in
      let st1 := set_pool sz (mkPoolElement (hd nullptr a') (m_size pe)) st in
      h ← relink (heap st1) a';
      Ok (set_heap h st1)
    else if OGDF_DEBUG cfg then AssertionFailed else Undefined
  else Ok st.

Definition defrag (fuel : nat) (st : state) : result state :=
  maxSize ← for_each (fun sz maxSize => pe ← pool_get st sz; Ok (Z.max maxSize (m_size pe)))
                     sizes 0;
  if decide (maxSize > 1) then for_each (defrag_class fuel maxSize) sizes st
  else Ok st.

(** ** The representation invariant *)

(** [own] records which cells each free list holds, and which are out with
    the application.  The tables have their declared length, every table
    entry heads a well-formed chain over exactly the cells recorded for it,
    the stored count of a global entry is the length of its chain, no cell
    is held twice, and nothing is recorded for sizes outside the table. *)
Record WF (st : state) (own : place → list Z) : Prop := mkWF {
  wf_tp_length : length (s_tp st) = eTableSize cfg;
  wf_pool_length : length (s_pool st) = eTableSize cfg;
  wf_local : ∀ sz p, s_tp st !! sz = Some p → is_list (heap st) p (own (Local sz));
  wf_global : ∀ sz pe, s_pool st !! sz = Some pe →
    is_list (heap st) (m_gp pe) (own (Global sz))
    ∧ m_size pe = Z.of_nat (length (own (Global sz)));
  wf_separate : separate own;
  wf_range : ∀ sz, (eTableSize cfg ≤ sz)%nat →
    own (Local sz) = [] ∧ own (Global sz) = []
}.

(** The invariant on the global table alone: the stored count of every
    entry is the number of cells reachable from its head. *)
Definition counts_consistent (st : state) : Prop :=
  ∀ sz pe, s_pool st !! sz = Some pe →
    ∃ l, is_list (heap st) (m_gp pe) l ∧ m_size pe = Z.of_nat (length l).

(** What the allocator needs of its constants: a positive pointer size, a
    block larger than its link, a table whose indices fit a [uint16_t], and
    room for at least two slices of every size class in a block. *)
Definition constants_ok : Prop :=
  0 < OGDF_SIZEOF_POINTER cfg < eBlockSize cfg
  ∧ Z.of_nat (eTableSize cfg) ≤ 65535
  ∧ ∀ sz, (0 < sz < eTableSize cfg)%nat →
      2 ≤ (slicesPerBlock (Nat.max sz (uint16 (eMinBytes cfg)))).2.

(** The same as a check that can be run on given constants. *)
Definition constants_okb : bool :=
  bool_decide (0 < OGDF_SIZEOF_POINTER cfg < eBlockSize cfg)
  && bool_decide (Z.of_nat (eTableSize cfg) ≤ 65535)
  && forallb (fun sz => bool_decide
                (2 ≤ (slicesPerBlock (Nat.max sz (uint16 (eMinBytes cfg)))).2))
             sizes.

(** Enough steps for every walk over a free list. *)
Definition fuel_enough (fuel : nat) (own : place → list Z) : Prop :=
  ∀ sz, (length (own (Local sz)) < fuel)%nat ∧ (length (own (Global sz)) < fuel)%nat.

(** The block provider hands out memory that holds no cell tracked so far. *)
Definition fresh_block (own : place → list Z) (blk : Z) : Prop :=
  0 < blk ∧ ∀ pl x, x ∈ own pl → ¬ (blk ≤ x < blk + eBlockSize cfg).

(** The block chain: following the block links from [p] visits exactly the
    blocks [bl], in order, and ends in [nullptr]. *)
Fixpoint blist (h : gmap Z Z) (p : Z) (bl : list Z) : Prop :=
  match bl with
  | [] => p = nullptr
  | b :: bl' => p = b ∧ b ≠ nullptr ∧ ∃ q, h !! block_link b = Some q ∧ blist h q bl'
  end.

(** The address [x] lies in the block at [b]. *)
Definition in_block (b x : Z) : Prop := b ≤ x < b + eBlockSize cfg.

(** No block of the chain holds the link of a later one. *)
Fixpoint blocks_apart (bl : list Z) : Prop :=
  match bl with
  | [] => True
  | b :: bl' => (∀ b', b' ∈ bl' → ¬ in_block b (block_link b')) ∧ blocks_apart bl'
  end.

End Allocator.

(** The constants of a 64-bit build of the library. *)
Definition cfg64 (debug : bool) : BuildConfig := mkBuildConfig 8 8 256 8192 debug.

(** ** How the recorded holdings change *)

(** [flushPool] over the size classes [l]: each local list goes in front of
    the global list of its class. *)
Definition flush_on (l : list nat) (own : place → list Z) : place → list Z :=
  fun pl =>
    match pl with
    | Local sz => if decide (sz ∈ l) then [] else own (Local sz)
    | Global sz =>
        if decide (sz ∈ l) then own (Local sz) ++ own (Global sz) else own (Global sz)
    | Outstanding => own Outstanding
    end.

(** [defrag] over the size classes [l]: each global list of more than one
    cell is sorted by address. *)
Definition defrag_on (l : list nat) (own : place → list Z) : place → list Z :=
  fun pl =>
    match pl with
    | Global sz =>
        if decide (sz ∈ l ∧ (1 < length (own (Global sz)))%nat)
        then std_sort (own (Global sz)) else own (Global sz)
    | _ => own pl
    end.

(** Sum of [f] over the size classes [l]. *)
Definition sum_over (l : list nat) (f : nat → Z) : Z :=
  foldr (fun sz acc => f sz + acc) 0 l.

(** Bytes accounted to the lists of one kind: cells times class size. *)
Definition bytes_held (l : list nat) (own : place → list Z) (kind : nat → place) : Z :=
  sum_over l (fun sz => Z.of_nat (length (own (kind sz))) * Z.of_nat sz).

(** The byte total as [unguardedMemGlobalFreelist] computes it from the
    counts of the classes [l]. *)
Definition global_bytes (cfg : BuildConfig) (l : list nat) (count : nat → Z) : Z :=
  foldl (fun bytesFree sz => to_size_t cfg (bytesFree + int32 (count sz * Z.of_nat sz)))
        0 l.

(** All thread-local heads of the classes [l] set to [nullptr]. *)
Definition clear_tp (l : list nat) (st : state) : state :=
  foldl (fun st sz => set_tp sz nullptr st) st l.

(** ** Calls and their contract *)

(** The public operations that change the allocator, and what the
    application does with the memory it was handed.  An [Allocate] carries
    the block the provider would hand out, should the call need one; a
    [Store] is the application writing the first word of a cell it holds, as
    it does to link the cells of a chain before it hands the chain back. *)
Inductive call : Type :=
  | Allocate (blk : Z) (nBytes : nat)
  | Deallocate (nBytes : nat) (p : Z)
  | DeallocateList (nBytes : nat) (pHead pTail : Z)
  | FlushPool
  | Defrag
  | Store (p v : Z).

(** A call's outcome: the pointer [allocate] returns, if any, and the state. *)
Definition run_call (cfg : BuildConfig) (fuel : nat) (c : call) (st : state)
    : result (option Z * state) :=
  match c with
  | Allocate blk nBytes => '(p, st') ← allocate cfg blk nBytes st; Ok (Some p, st')
  | Deallocate nBytes p => st' ← deallocate nBytes p st; Ok (None, st')
  | DeallocateList nBytes pHead pTail =>
      st' ← deallocateList nBytes pHead pTail st; Ok (None, st')
  | FlushPool => st' ← flushPool cfg fuel st; Ok (None, st')
  | Defrag => st' ← defrag cfg fuel st; Ok (None, st')
  | Store p v => h ← store (heap st) p v; Ok (None, set_heap h st)
  end.

(** What the caller owes: a size inside the table, a block from the provider
    that overlaps nothing handed out before, and, on return, cells it
    actually holds, a list being handed back as one linked chain. *)
Definition call_ok (cfg : BuildConfig) (st : state) (own : place → list Z) (c : call) : Prop :=
  match c with
  | Allocate blk nBytes =>
      (0 < nBytes < eTableSize cfg)%nat ∧ fresh_block cfg own blk
  | Deallocate nBytes p =>
      (0 < nBytes < eTableSize cfg)%nat ∧ p ≠ nullptr ∧ p ∈ own Outstanding
  | DeallocateList nBytes pHead pTail =>
      (0 < nBytes < eTableSize cfg)%nat ∧ pTail ≠ nullptr
      ∧ ∃ l, lseg (heap st) pHead pTail l ∧ NoDup (l ++ [pTail])
             ∧ ∀ x, x ∈ l ++ [pTail] → x ∈ own Outstanding
  | FlushPool | Defrag => True
  | Store p _ => p ≠ nullptr ∧ p ∈ own Outstanding
  end.

(** How a call made in state [st] changes what the application holds: it
    gains the cell [allocate] returns and gives up what it hands back. *)
Definition outstanding_step (c : call) (r : option Z) (st : state) (out out' : list Z)
    : Prop :=
  match c with
  | Allocate _ _ => ∃ p, r = Some p ∧ p ≠ nullptr ∧ out' = p :: out
  | Deallocate _ p => out ≡ₚ p :: out'
  | DeallocateList _ pHead pTail =>
      ∃ l, lseg (heap st) pHead pTail l ∧ NoDup (l ++ [pTail])
           ∧ out ≡ₚ (l ++ [pTail]) ++ out'
  | FlushPool | Defrag | Store _ _ => out' = out
  end.

(** [deallocate] and [deallocateList] never touch the global table, and
    [allocate] touches it only when the local list is empty and it refills. *)
Definition pool_untouched (c : call) (st st' : state) : Prop :=
  match c with
  | Allocate _ nBytes => s_tp st !! nBytes ≠ Some nullptr → s_pool st' = s_pool st
  | Deallocate _ _ | DeallocateList _ _ _ | Store _ _ => s_pool st' = s_pool st
  | FlushPool | Defrag => True
  end.

(** What a call may touch: memory only at cells that some list or the
    application holds, or inside the block the provider hands out; the
    holdings grow only by slices of that block; and the block chain only by
    that block, put in front of it. *)
Definition step_effect (cfg : BuildConfig) (c : call) (st : state)
    (own : place → list Z) (st' : state) (own' : place → list Z) : Prop :=
  (∀ x, (∀ pl, x ∉ own pl) →
        (∀ blk sz, c = Allocate blk sz → ¬ in_block cfg blk x) →
        heap st' !! x = heap st !! x)
  ∧ ((s_blocks st' = s_blocks st ∧ ∀ pl x, x ∈ own' pl → ∃ pl0, x ∈ own pl0)
     ∨ ∃ blk sz, c = Allocate blk sz ∧ s_blocks st' = blk
         ∧ heap st' !! block_link cfg blk = Some (s_blocks st)
         ∧ ∀ pl x, x ∈ own' pl →
             (∃ pl0, x ∈ own pl0) ∨ blk ≤ x < blk + blockCapacity cfg).

(** Two blocks that do not overlap. *)
Definition blocks_disjoint (cfg : BuildConfig) (b b' : Z) : Prop :=
  b + eBlockSize cfg ≤ b' ∨ b' + eBlockSize cfg ≤ b.

(** What the block provider owes: a block at a positive address that
    overlaps no block of the chain. *)
Definition provider_fresh (cfg : BuildConfig) (st : state) (blk : Z) : Prop :=
  0 < blk
  ∧ ∀ bl, blist cfg (heap st) (s_blocks st) bl →
          ∀ b, b ∈ bl → blocks_disjoint cfg b blk.

(** What the application owes, in terms of the cells [held] it was handed
    and has not returned. *)
Definition client_ok (cfg : BuildConfig) (st : state) (held : list Z) (c : call) : Prop :=
  match c with
  | Allocate blk nBytes =>
      (0 < nBytes < eTableSize cfg)%nat ∧ provider_fresh cfg st blk
  | Deallocate nBytes p => (0 < nBytes < eTableSize cfg)%nat ∧ p ∈ held
  | DeallocateList nBytes pHead pTail =>
      (0 < nBytes < eTableSize cfg)%nat
      ∧ ∃ l, lseg (heap st) pHead pTail l ∧ NoDup (l ++ [pTail])
             ∧ ∀ x, x ∈ l ++ [pTail] → x ∈ held
  | FlushPool | Defrag => True
  | Store p _ => p ∈ held
  end.

(** A run within the contract: from state [st], the application holding
    [held], the calls and stores [cs] take place one after the other and
    lead to the state and the holdings on the right.  Each call is given
    more steps than there are cells in memory. *)
Inductive run (cfg : BuildConfig) : state → list Z → list call → state → list Z → Prop :=
  | run_nil st held : run cfg st held [] st held
  | run_cons st held c cs fuel r st1 held1 st2 held2 :
      client_ok cfg st held c →
      (size (heap st) < fuel)%nat →
      run_call cfg fuel c st = Ok (r, st1) →
      outstanding_step c r st held held1 →
      run cfg st1 held1 cs st2 held2 →
      run cfg st held (c :: cs) st2 held2.

(** The invariant behind a run: besides [WF], the application holds what is
    recorded as outstanding, the anchor heads a chain of blocks at positive
    addresses that do not overlap, and every recorded cell lies in the
    fill area of one of them. *)
Record Inv (cfg : BuildConfig) (st : state) (held : list Z)
    (own : place → list Z) (bl : list Z) : Prop := mkInv {
  inv_wf : WF cfg st own;
  inv_held : own Outstanding ≡ₚ held;
  inv_chain : blist cfg (heap st) (s_blocks st) bl;
  inv_pos : ∀ b, b ∈ bl → 0 < b;
  inv_apart : ∀ b b', b ∈ bl → b' ∈ bl → b = b' ∨ blocks_disjoint cfg b b';
  inv_cells : ∀ pl x, x ∈ own pl → ∃ b, b ∈ bl ∧ b ≤ x < b + blockCapacity cfg
}.

(** [k] calls of [allocate(nBytes)] in a row, one per provider block in
    [blks]; returns the pointers in the order they were handed out. *)
Fixpoint allocate_n (cfg : BuildConfig) (blks : list Z) (nBytes : nat) (st : state)
    : result (list Z * state) :=
  match blks with
  | [] => Ok ([], st)
  | blk :: blks' =>
      '(p, st1) ← allocate cfg blk nBytes st;
      '(ps, st2) ← allocate_n cfg blks' nBytes st1;
      Ok (p :: ps, st2)
  end.

(** [deallocate(nBytes, p)] for every cell [p] of [ps], one after the other. *)
Fixpoint deallocate_all (nBytes : nat) (ps : list Z) (st : state) : result state :=
  match ps with
  | [] => Ok st
  | p :: ps' => st1 ← deallocate nBytes p st; deallocate_all nBytes ps' st1
  end.

(** What [makeSlices] is expected to do with [n] slices of [w] words at [p]:
    link exactly the slice addresses, in order, end the chain with
    [nullptr], and write nowhere else. *)
Definition makeSlices_links (cfg : BuildConfig) (h : gmap Z Z) (p w : Z) (n : nat) : Prop :=
  ∃ h', makeSlices cfg h p w (Z.of_nat n) = Ok h'
      ∧ is_list h' p (slice_addrs cfg p w n)
      ∧ ∀ x, x ∉ slice_addrs cfg p w n → h' !! x = h !! x.

(** ** Sample configurations and states *)

(** A small configuration: 8-byte pointers, size classes 1..16, blocks with
    room for four slices of 8 bytes. *)
Definition cfg_small (debug : bool) : BuildConfig := mkBuildConfig 8 8 17 40 debug.

(** The same with size classes up to 32, so that a block holds only one
    slice of the largest classes. *)
Definition cfg_tight : BuildConfig := mkBuildConfig 8 8 33 40 false.

(** A run of calls; the pointers returned are dropped. *)
Fixpoint run_calls (cfg : BuildConfig) (fuel : nat) (cs : list call) (st : state)
    : result state :=
  match cs with
  | [] => Ok st
  | c :: cs' => '(_, st') ← run_call cfg fuel c st; run_calls cfg fuel cs' st'
  end.

Definition state_after (cfg : BuildConfig) (cs : list call) : state :=
  match run_calls cfg 8 cs (initial_state cfg) with
  | Ok st => st
  | _ => initial_state cfg
  end.

(** Small configuration, provider blocks at 1000 and 2000.  One allocation
    of size 8 carves the block at 1000 and hands out its first slice. *)
Definition sample_refilled : state :=
  Eval vm_compute in state_after (cfg_small false) [Allocate 1000 8].

(** Two allocations, then both cells returned, first-allocated first: the
    local list of class 8 is 1008, 1000, 1016, 1024. *)
Definition sample_returned : state :=
  Eval vm_compute in
    state_after (cfg_small false)
      [Allocate 1000 8; Allocate 2000 8; Deallocate 8 1000; Deallocate 8 1008].

(** The same after [flushPool]: the four cells are in the global list. *)
Definition sample_flushed : state :=
  Eval vm_compute in
    state_after (cfg_small false)
      [Allocate 1000 8; Allocate 2000 8; Deallocate 8 1000; Deallocate 8 1008;
       FlushPool].

Definition nothing_held : place → list Z := fun _ => [].

Definition own_returned : place → list Z :=
  <[Local 8%nat := [1008; 1000; 1016; 1024]]> nothing_held.

Definition own_flushed : place → list Z :=
  <[Global 8%nat := [1008; 1000; 1016; 1024]]> nothing_held.

(** What is held after the first allocation: the cell 1000 is out, the
    other three slices of the block wait in the local list. *)
Definition own_refilled : place → list Z :=
  <[Local 8%nat := [1008; 1016; 1024]]> (<[Outstanding := [1000]]> nothing_held).

(** Three allocations; the application links the second cell to the first
    and hands the two back as a chain: the cell 1016 is still out, the local
    list is 1008, 1000, 1024. *)
Definition sample_calls : list call :=
  [Allocate 1000 8; Allocate 2000 8; Allocate 3000 8; Store 1008 1000;
   DeallocateList 8 1008 1000].

Definition sample_chain_back : state :=
  Eval vm_compute in state_after (cfg_small false) sample_calls.

(** A memory with a chain 100, 200, 300 built by the application. *)
Definition sample_chain_state : state :=
  mkState (<[100:=200]> (<[200:=300]> (<[300:=77]> ∅)))
          (replicate 17 nullptr) (replicate 17 (mkPoolElement nullptr 0)) nullptr 0.

(** 64-bit constants, provider block at 65536: one allocation of the given
    size, returned at once. *)
Definition state64_idle (debug : bool) (nBytes : nat) : state :=
  state_after (cfg64 debug) [Allocate 65536 nBytes; Deallocate nBytes 65536].






(** * Properties *)

(** ** The outcome monad *)

Ltac st_simpl :=
  cbn [heap s_tp s_pool s_blocks s_nettoAlloc
       set_heap set_tp set_pool set_blocks set_nettoAlloc].

Ltac fn_simpl :=
  repeat match goal with
  | |- context [ insert ?a ?t ?f ?b ] =>
      first [ rewrite (fn_lookup_insert f a t)
            | rewrite (fn_lookup_insert_ne f a b t) by congruence ]
  end.

Lemma bind_Ok {A B} (f : A → result B) (m : result A) (b : B) :
  m ≫= f = Ok b ↔ ∃ a, m = Ok a ∧ f a = Ok b.
Proof.
  destruct m; simpl; split; try (intros [a' [? ?]]); try discriminate; eauto.
  congruence.
Qed.

Lemma bind_Ok_l {A B} (f : A → result B) (a : A) : Ok a ≫= f = f a.
Proof. reflexivity. Qed.

Lemma load_Ok h p v : p ≠ nullptr → h !! p = Some v → load h p = Ok v.
Proof. intros Hp Hv. unfold load. rewrite decide_False by done. by rewrite Hv. Qed.

Lemma store_Ok h p v : p ≠ nullptr → store h p v = Ok (<[p:=v]> h).
Proof. intros Hp. unfold store. by rewrite decide_False. Qed.

(** ** Chains *)

Lemma lseg_app h p q l1 l2 :
  lseg h p q (l1 ++ l2) ↔ ∃ r, lseg h p r l1 ∧ lseg h r q l2.
Proof.
  revert p. induction l1 as [|a l1 IH]; intros p; simpl.
  - split; [eauto | intros (r & -> & ?); done].
  - split.
    + intros (-> & Ha & r & Hr & Hl). apply IH in Hl as (r' & ? & ?). eauto 10.
    + intros (r' & (-> & Ha & r & Hr & Hl) & H2).
      repeat split; [done|]. exists r. split; [done|]. apply IH. eauto.
Qed.

Lemma lseg_agree h h' p q l :
  (∀ x, x ∈ l → h' !! x = h !! x) → lseg h p q l → lseg h' p q l.
Proof.
  revert p. induction l as [|a l IH]; intros p Hag; simpl; [done|].
  intros (-> & Ha & r & Hr & Hl). repeat split; [done|].
  exists r. split.
  - rewrite Hag; [done | left].
  - apply IH; [|done]. intros x Hx. apply Hag. by right.
Qed.

Lemma lseg_frame h p q l a v :
  a ∉ l → lseg h p q l → lseg (<[a:=v]> h) p q l.
Proof.
  intros Ha. apply lseg_agree. intros x Hx.
  apply lookup_insert_ne. intros ->. done.
Qed.

Lemma lseg_nonnull h p q l x : lseg h p q l → x ∈ l → x ≠ nullptr.
Proof.
  revert p. induction l as [|a l IH]; intros p; simpl.
  - intros _ Hx. by apply elem_of_nil in Hx.
  - intros (-> & Ha & r & Hr & Hl) Hx.
    apply elem_of_cons in Hx as [->|Hx]; [done | eauto].
Qed.

Lemma lseg_snoc h p q l a r :
  lseg h p a l → a ≠ nullptr → h !! a = Some r → r = q → lseg h p q (l ++ [a]).
Proof.
  intros Hl Ha Hr ->. apply lseg_app. exists a. split; [done|].
  simpl. eauto.
Qed.

Lemma is_list_null h l : is_list h nullptr l → l = [].
Proof. destruct l as [|a l]; [done|]. intros (<- & Ha & _). done. Qed.

Lemma is_list_nonnull h p l : is_list h p l → p ≠ nullptr → ∃ a l', l = a :: l'.
Proof. destruct l as [|a l]; [intros ->; done | eauto]. Qed.

(** A free list is determined by its head. *)
Lemma is_list_func h p l1 l2 : is_list h p l1 → is_list h p l2 → l1 = l2.
Proof.
  revert p l2. induction l1 as [|a l1 IH]; intros p l2.
  - intros -> H2. symmetry. by eapply is_list_null.
  - intros (-> & Ha & r & Hr & Hl). destruct l2 as [|b l2].
    + intros ->. done.
    + intros (<- & _ & r' & Hr' & Hl'). f_equal.
      rewrite Hr in Hr'. injection Hr' as <-. by eapply IH.
Qed.

Section Slicing.

Context (cfg : BuildConfig).
Hypothesis pointer_size_pos : 0 < OGDF_SIZEOF_POINTER cfg.

Lemma slice_addrs_S p w n :
  slice_addrs cfg p w (S n) = p :: slice_addrs cfg (ptr_add cfg p w) w n.
Proof.
  unfold slice_addrs. simpl. f_equal.
  - unfold ptr_add. lia.
  - rewrite <- fmap_S_seq, <- list_fmap_compose.
    apply list_fmap_ext. intros _ i _. simpl. unfold ptr_add. lia.
Qed.

Lemma elem_of_slice_addrs p w n x :
  x ∈ slice_addrs cfg p w n ↔
  ∃ i : nat, (i < n)%nat ∧ x = p + Z.of_nat i * w * OGDF_SIZEOF_POINTER cfg.
Proof.
  unfold slice_addrs. rewrite list_elem_of_fmap. split.
  - intros (i & -> & Hi). apply elem_of_seq in Hi. exists i. unfold ptr_add. split; lia.
  - intros (i & Hi & ->). exists i. split; [unfold ptr_add; lia|].
    apply elem_of_seq. lia.
Qed.

Lemma slice_addrs_lookup p w n (i : nat) :
  (i < n)%nat →
  slice_addrs cfg p w n !! i = Some (p + Z.of_nat i * w * OGDF_SIZEOF_POINTER cfg).
Proof.
  intros Hi. unfold slice_addrs. rewrite list_lookup_fmap, lookup_seq_lt by done.
  simpl. unfold ptr_add. f_equal; lia.
Qed.

Lemma length_slice_addrs p w n : length (slice_addrs cfg p w n) = n.
Proof. unfold slice_addrs. by rewrite length_fmap, length_seq. Qed.

(** The slice addresses ascend strictly. *)
Lemma slice_addrs_sorted p w n :
  0 < w → StronglySorted Z.lt (slice_addrs cfg p w n).
Proof.
  intros Hw. revert p. induction n as [|n IH]; intros p.
  - constructor.
  - rewrite slice_addrs_S. constructor; [apply IH|].
    apply Forall_forall. intros x Hx. apply elem_of_slice_addrs in Hx as (i & _ & ->).
    unfold ptr_add. nia.
Qed.

Lemma slice_addrs_NoDup p w n : 0 < w → NoDup (slice_addrs cfg p w n).
Proof.
  intros Hw. revert p. induction n as [|n IH]; intros p.
  - constructor.
  - rewrite slice_addrs_S. constructor; [|apply IH].
    intros Hx. apply elem_of_slice_addrs in Hx as (i & _ & Hx).
    unfold ptr_add in Hx. nia.
Qed.

Lemma makeSlices_loop_S fuel h p w n :
  makeSlices_loop cfg (S fuel) h p w n =
  h' ← store h p (ptr_add cfg p w);
  if decide (n - 1 > 1) then makeSlices_loop cfg fuel h' (ptr_add cfg p w) w (n - 1)
  else Ok (h', ptr_add cfg p w).
Proof. reflexivity. Qed.

(** The loop of [makeSlices], entered with [nSlices = k+2]: it links the
    first [k+1] slices and stops at the last one. *)
Lemma makeSlices_loop_spec (k : nat) : ∀ fuel h p w,
  0 < p → 0 < w → (k < fuel)%nat →
  ∃ h', makeSlices_loop cfg fuel h p w (Z.of_nat k + 2)
          = Ok (h', ptr_add cfg p (Z.of_nat (S k) * w))
      ∧ lseg h' p (ptr_add cfg p (Z.of_nat (S k) * w)) (slice_addrs cfg p w (S k))
      ∧ ∀ x, x ∉ slice_addrs cfg p w (S k) → h' !! x = h !! x.
Proof.
  induction k as [|k IH]; intros fuel h p w Hp Hw Hfuel;
    (destruct fuel as [|fuel]; [lia|]); rewrite makeSlices_loop_S;
    rewrite store_Ok by (unfold nullptr; lia); rewrite bind_Ok_l.
  - rewrite decide_False by lia.
    eexists. split; [f_equal; f_equal; unfold ptr_add; lia|]. split.
    + simpl. split; [unfold ptr_add; lia|]. split; [unfold ptr_add, nullptr; lia|].
      eexists. split; [|reflexivity].
      replace (ptr_add cfg p (Z.of_nat 0 * w)) with p by (unfold ptr_add; lia).
      rewrite lookup_insert_eq. f_equal. unfold ptr_add. lia.
    + intros x Hx. apply lookup_insert_ne. intros ->. apply Hx.
      rewrite slice_addrs_S. left.
  - rewrite decide_True by lia.
    replace (Z.of_nat (S k) + 2 - 1) with (Z.of_nat k + 2) by lia.
    destruct (IH fuel (<[p:=ptr_add cfg p w]> h) (ptr_add cfg p w) w)
      as (h' & Hrun & Hseg & Hframe); [unfold ptr_add; nia | done | lia |].
    exists h'. split.
    { rewrite Hrun. f_equal. f_equal. unfold ptr_add. lia. }
    split.
    + rewrite slice_addrs_S. simpl. split; [done|]. split; [unfold nullptr; lia|].
      exists (ptr_add cfg p w). split.
      * rewrite Hframe; [apply lookup_insert_eq|].
        intros Hx. apply elem_of_slice_addrs in Hx as (i & _ & Hx).
        unfold ptr_add in Hx. nia.
      * replace (ptr_add cfg p (Z.of_nat (S (S k)) * w))
          with (ptr_add cfg (ptr_add cfg p w) (Z.of_nat (S k) * w))
          by (unfold ptr_add; lia).
        done.
    + intros x Hx. rewrite Hframe.
      * apply lookup_insert_ne. intros ->. apply Hx. rewrite slice_addrs_S. left.
      * intros Hx'. apply Hx. rewrite (slice_addrs_S p). by right.
Qed.

(** [makeSlices] with at least two slices: exactly the slice addresses are
    linked, in order, the last link is [nullptr], nothing else is written. *)
Lemma makeSlices_spec h p w (n : nat) :
  0 < p → 0 < w → (2 ≤ n)%nat →
  ∃ h', makeSlices cfg h p w (Z.of_nat n) = Ok h'
      ∧ is_list h' p (slice_addrs cfg p w n)
      ∧ ∀ x, x ∉ slice_addrs cfg p w n → h' !! x = h !! x.
Proof.
  intros Hp Hw Hn. destruct n as [|[|k]]; [lia | lia |].
  unfold makeSlices.
  destruct (makeSlices_loop_spec k (S (Z.to_nat (Z.of_nat (S (S k))))) h p w)
    as (h' & Hrun & Hseg & Hframe); [done | done | lia |].
  replace (Z.of_nat (S (S k))) with (Z.of_nat k + 2) by lia.
  replace (Z.to_nat (Z.of_nat k + 2)) with (Z.to_nat (Z.of_nat (S (S k)))) by lia.
  rewrite Hrun. simpl.
  set (last := ptr_add cfg p (Z.of_nat (S k) * w)) in *.
  assert (Hlast : last ≠ nullptr) by (unfold last, ptr_add, nullptr; nia).
  assert (Hnotin : last ∉ slice_addrs cfg p w (S k)).
  { intros Hx. apply elem_of_slice_addrs in Hx as (i & Hi & Hx).
    unfold last, ptr_add in Hx. nia. }
  assert (Hsplit : slice_addrs cfg p w (S (S k)) = slice_addrs cfg p w (S k) ++ [last]).
  { unfold slice_addrs. rewrite (seq_S (S k)), fmap_app. done. }
  rewrite store_Ok by done. eexists. split; [done|]. split.
  - unfold is_list. rewrite Hsplit. eapply lseg_snoc; [| done | apply lookup_insert_eq | done].
    by apply lseg_frame.
  - intros x Hx. rewrite lookup_insert_ne.
    + apply Hframe. intros Hx'. apply Hx. rewrite Hsplit. apply elem_of_app. by left.
    + intros <-. apply Hx. rewrite Hsplit. apply elem_of_app. right. left.
Qed.

End Slicing.

(** ** The walks over free lists *)

Lemma advance_spec h p q l : lseg h p q l → advance h p (length l) = Ok q.
Proof.
  revert p. induction l as [|a l IH]; intros p; simpl.
  - by intros ->.
  - intros (-> & Ha & r & Hr & Hl). rewrite (load_Ok _ _ r) by done.
    rewrite bind_Ok_l. by apply IH.
Qed.

Lemma find_tail_spec h t l : ∀ fuel p n,
  is_list h p (l ++ [t]) → (length l < fuel)%nat →
  find_tail fuel h p n = Ok (t, n + Z.of_nat (length l)).
Proof.
  unfold is_list.
  induction l as [|a l IH]; intros fuel p n Hl Hfuel;
    (destruct fuel as [|fuel]; [simpl in Hfuel; lia|]); simpl in Hl |- *.
  - destruct Hl as (-> & Ht & r & Hr & ->).
    rewrite (load_Ok _ _ nullptr) by done. rewrite bind_Ok_l.
    rewrite decide_False by (intros H; by apply H).
    do 2 f_equal. lia.
  - destruct Hl as (-> & Ha & r & Hr & Hl).
    rewrite (load_Ok _ _ r) by done. rewrite bind_Ok_l.
    assert (r ≠ nullptr).
    { destruct l; simpl in Hl; destruct Hl as (-> & ? & _); done. }
    rewrite decide_True by done.
    rewrite (IH fuel r (n + 1)); [do 2 f_equal; lia | done | simpl in Hfuel; lia].
Qed.

Lemma collect_spec h l : ∀ fuel p room,
  is_list h p l → (length l < fuel)%nat → (length l ≤ room)%nat →
  collect fuel h p room = Ok l.
Proof.
  unfold is_list.
  induction l as [|a l IH]; intros fuel p room Hl Hfuel Hroom;
    (destruct fuel as [|fuel]; [simpl in Hfuel; lia|]); simpl in Hl |- *.
  - subst p. by rewrite decide_False by (intros H; by apply H).
  - destruct Hl as (-> & Ha & r & Hr & Hl).
    rewrite decide_True by done.
    destruct room as [|room]; [simpl in Hroom; lia|].
    rewrite (load_Ok _ _ r) by done. rewrite bind_Ok_l.
    rewrite (IH fuel r room); [done | done | simpl in Hfuel; lia | simpl in Hroom; lia].
Qed.

Lemma relink_spec a : ∀ h,
  a ≠ [] → NoDup a → (∀ x, x ∈ a → x ≠ nullptr) →
  ∃ h', relink h a = Ok h' ∧ is_list h' (hd nullptr a) a
      ∧ ∀ x, x ∉ a → h' !! x = h !! x.
Proof.
  induction a as [|x a IH]; intros h Hne Hnd Hnz; [done|].
  assert (Hx : x ≠ nullptr) by (apply Hnz; left).
  destruct a as [|y a].
  - simpl. rewrite store_Ok by done. eexists. split; [done|]. split.
    + repeat split; [done|]. eexists. split; [apply lookup_insert_eq | done].
    + intros z Hz. apply lookup_insert_ne. intros ->. apply Hz. left.
  - apply NoDup_cons in Hnd as [Hxa Hnd].
    destruct (IH (<[x:=y]> h)) as (h' & Hrun & Hl & Hframe);
      [done | done | intros z Hz; apply Hnz; by right |].
    exists h'. split.
    { change (relink h (x :: y :: a)) with (h1 ← store h x y; relink h1 (y :: a)).
      rewrite store_Ok by done. by rewrite bind_Ok_l. }
    split.
    + simpl. repeat split; [done|]. exists y. split; [|exact Hl].
      rewrite Hframe by done. apply lookup_insert_eq.
    + intros z Hz. rewrite Hframe.
      * apply lookup_insert_ne. intros ->. apply Hz. left.
      * intros Hz'. apply Hz. by right.
Qed.

(** ** Separation of the recorded cells *)

Lemma separate_notin own pl pl' x :
  separate own → x ∈ own pl → pl ≠ pl' → x ∉ own pl'.
Proof. intros [_ Hd] Hx Hne Hx'. apply Hne. by eapply Hd. Qed.

Lemma elem_of_fn_insert (own : place → list Z) A a pl x :
  x ∈ (<[A := a]> own) pl → x ∈ a ∨ x ∈ own pl.
Proof.
  destruct (decide (A = pl)) as [<-|Hne].
  - rewrite fn_lookup_insert. by left.
  - rewrite fn_lookup_insert_ne by done. by right.
Qed.

(** Cells may move between places; as long as every cell has one destination
    and no place receives a cell twice, separation is kept. *)
Lemma separate_relocate (own own' : place → list Z) (dest : place → Z → place) :
  separate own →
  (∀ pl, NoDup (own' pl)) →
  (∀ pl' x, x ∈ own' pl' → ∃ pl, x ∈ own pl ∧ dest pl x = pl') →
  separate own'.
Proof.
  intros [_ Hd] Hnd Horigin. split; [done|].
  intros pl1 pl2 x H1 H2.
  apply Horigin in H1 as (q1 & Hq1 & <-). apply Horigin in H2 as (q2 & Hq2 & <-).
  by rewrite (Hd q1 q2 x).
Qed.

(** Cells that nobody holds yet may be handed to a place. *)
Lemma separate_add_fresh own pl0 new :
  separate own → NoDup new → (∀ x pl, x ∈ new → x ∉ own pl) →
  separate (<[pl0 := new ++ own pl0]> own).
Proof.
  intros [Hnd Hd] Hnew Hfresh. split.
  - intros pl. destruct (decide (pl0 = pl)) as [->|Hne].
    + rewrite fn_lookup_insert. apply NoDup_app. repeat split; [done | | done].
      intros x Hx. by apply Hfresh.
    + by rewrite fn_lookup_insert_ne.
  - assert (Hin : ∀ pl x, x ∈ (<[pl0 := new ++ own pl0]> own) pl →
                          (x ∈ new ∧ pl = pl0) ∨ ((x ∉ new) ∧ x ∈ own pl)).
    { intros pl x. destruct (decide (pl0 = pl)) as [->|Hne].
      - rewrite fn_lookup_insert, elem_of_app. intros [?|?]; [left; done|].
        right. split; [|done]. intros ?. by eapply Hfresh.
      - rewrite fn_lookup_insert_ne by done. intros ?. right. split; [|done].
        intros ?. by eapply Hfresh. }
    intros pl1 pl2 x H1 H2. apply Hin in H1, H2.
    destruct H1 as [[? ->]|[? ?]], H2 as [[? ->]|[? ?]]; try done. by eapply Hd.
Qed.

Lemma separate_ext own own' :
  (∀ pl, own' pl = own pl) → separate own → separate own'.
Proof.
  intros Heq [Hnd Hd]. split.
  - intros pl. rewrite Heq. apply Hnd.
  - intros pl pl' x. rewrite !Heq. apply Hd.
Qed.

(** Two places may redistribute the cells they hold between them. *)
Lemma separate_move own A B a' b' :
  separate own → A ≠ B → a' ++ b' ≡ₚ own A ++ own B →
  separate (<[B := b']> (<[A := a']> own)).
Proof.
  intros [Hnd Hd] HAB Hperm.
  assert (Hboth : NoDup (a' ++ b')).
  { rewrite Hperm. apply NoDup_app. repeat split; [apply Hnd | | apply Hnd].
    intros x HxA HxB. apply HAB. by eapply Hd. }
  apply NoDup_app in Hboth as (Hnda & Hab & Hndb).
  assert (Hsrc : ∀ x, x ∈ a' ∨ x ∈ b' → x ∈ own A ∨ x ∈ own B).
  { intros x Hx. apply elem_of_app. rewrite <- Hperm. by apply elem_of_app. }
  assert (Hin : ∀ pl x, x ∈ (<[B := b']> (<[A := a']> own)) pl →
            (pl = B ∧ x ∈ b') ∨ (pl = A ∧ x ∈ a') ∨ (pl ≠ A ∧ pl ≠ B ∧ x ∈ own pl)).
  { intros pl x. destruct (decide (B = pl)) as [<-|HneB].
    { rewrite fn_lookup_insert. auto. }
    rewrite fn_lookup_insert_ne by done.
    destruct (decide (A = pl)) as [<-|HneA].
    { rewrite fn_lookup_insert. auto. }
    rewrite fn_lookup_insert_ne by done. intros ?. right. right. auto. }
  split.
  - intros pl. destruct (decide (B = pl)) as [<-|HneB].
    { by rewrite fn_lookup_insert. }
    rewrite fn_lookup_insert_ne by done.
    destruct (decide (A = pl)) as [<-|HneA].
    { by rewrite fn_lookup_insert. }
    rewrite fn_lookup_insert_ne by done. apply Hnd.
  - intros pl1 pl2 x H1 H2. apply Hin in H1, H2.
    destruct H1 as [[-> H1]|[[-> H1]|(? & ? & H1)]],
             H2 as [[-> H2]|[[-> H2]|(? & ? & H2)]]; try done.
    + exfalso. by eapply Hab.
    + exfalso. destruct (Hsrc x) as [?|?]; [by right | |];
        match goal with Hx : x ∈ own ?P, Hne : pl2 ≠ ?P |- _ =>
          apply Hne; by eapply Hd end.
    + exfalso. by eapply Hab.
    + exfalso. destruct (Hsrc x) as [?|?]; [by left | |];
        match goal with Hx : x ∈ own ?P, Hne : pl2 ≠ ?P |- _ =>
          apply Hne; by eapply Hd end.
    + exfalso. destruct (Hsrc x) as [?|?]; [by right | |];
        match goal with Hx : x ∈ own ?P, Hne : pl1 ≠ ?P |- _ =>
          apply Hne; by eapply Hd end.
    + exfalso. destruct (Hsrc x) as [?|?]; [by left | |];
        match goal with Hx : x ∈ own ?P, Hne : pl1 ≠ ?P |- _ =>
          apply Hne; by eapply Hd end.
    + by eapply Hd.
Qed.

(** A place may reorder the cells it holds. *)
Lemma separate_perm own A a' :
  separate own → a' ≡ₚ own A → separate (<[A := a']> own).
Proof.
  intros [Hnd Hd] Hperm. split.
  - intros pl. destruct (decide (A = pl)) as [<-|Hne].
    + rewrite fn_lookup_insert, Hperm. apply Hnd.
    + rewrite fn_lookup_insert_ne by done. apply Hnd.
  - assert (Hin : ∀ pl x, x ∈ (<[A := a']> own) pl → x ∈ own pl).
    { intros pl x. destruct (decide (A = pl)) as [<-|Hne].
      - rewrite fn_lookup_insert. by rewrite Hperm.
      - by rewrite fn_lookup_insert_ne by done. }
    intros pl1 pl2 x H1%Hin H2%Hin. by eapply Hd.
Qed.

Lemma is_list_NoDup h p l : is_list h p l → NoDup l.
Proof.
  revert p. induction l as [|a l IH]; intros p; [constructor|].
  intros Hl. pose proof Hl as (-> & Ha & r & Hr & Hl').
  constructor; [|by eapply IH].
  intros Hin. apply list_elem_of_split in Hin as (l1 & l2 & ->).
  apply lseg_app in Hl' as (r' & _ & Hl2).
  pose proof Hl2 as (-> & _).
  pose proof (is_list_func _ _ _ _ Hl Hl2) as Heq.
  apply (f_equal length) in Heq. rewrite !length_cons, length_app, length_cons in Heq. lia.
Qed.

Lemma uint16_small (n : nat) : Z.of_nat n < 65536 → uint16 n = n.
Proof. intros Hn. unfold uint16. rewrite Z.mod_small by lia. lia. Qed.

Section Operations.

Context (cfg : BuildConfig).

Lemma tp_get_Ok st i p : s_tp st !! i = Some p → tp_get st i = Ok p.
Proof. unfold tp_get. by intros ->. Qed.

Lemma pool_get_Ok st i pe : s_pool st !! i = Some pe → pool_get st i = Ok pe.
Proof. unfold pool_get. by intros ->. Qed.

Lemma WF_tp_lookup st own sz :
  WF cfg st own → (sz < eTableSize cfg)%nat → ∃ p, s_tp st !! sz = Some p.
Proof.
  intros Hwf Hsz. apply lookup_lt_is_Some_2. by rewrite (wf_tp_length _ _ _ Hwf).
Qed.

Lemma WF_pool_lookup st own sz :
  WF cfg st own → (sz < eTableSize cfg)%nat → ∃ pe, s_pool st !! sz = Some pe.
Proof.
  intros Hwf Hsz. apply lookup_lt_is_Some_2. by rewrite (wf_pool_length _ _ _ Hwf).
Qed.

Lemma WF_counts_consistent st own : WF cfg st own → counts_consistent st.
Proof.
  intros Hwf sz pe Hpe. exists (own (Global sz)). by apply (wf_global _ _ _ Hwf).
Qed.

(** The statics at program start satisfy the invariant, nothing being held. *)
Lemma WF_initial : WF cfg (initial_state cfg) nothing_held.
Proof.
  split; simpl.
  - apply length_replicate.
  - apply length_replicate.
  - intros sz p Hp. apply lookup_replicate in Hp as [-> _]. done.
  - intros sz pe Hpe. apply lookup_replicate in Hpe as [-> _]. done.
  - split; [intros pl; constructor|]. intros pl pl' x Hx. by apply elem_of_nil in Hx.
  - done.
Qed.

(** *** allocate, fast path *)

Lemma allocate_fast st own blk sz a l :
  WF cfg st own → (sz < eTableSize cfg)%nat → own (Local sz) = a :: l →
  ∃ r, heap st !! a = Some r
     ∧ allocate cfg blk sz st
       = Ok (a, set_heap (<[a:=nullptr]> (heap st)) (set_tp sz r st))
     ∧ WF cfg (set_heap (<[a:=nullptr]> (heap st)) (set_tp sz r st))
          (<[Local sz := l]> (<[Outstanding := a :: own Outstanding]> own)).
Proof.
  intros Hwf Hsz Hown.
  destruct (WF_tp_lookup _ _ _ Hwf Hsz) as [p Hp].
  pose proof (wf_local _ _ _ Hwf _ _ Hp) as Hl. rewrite Hown in Hl.
  destruct Hl as (-> & Ha & r & Hr & Hl).
  pose proof (wf_separate _ _ _ Hwf) as Hsep.
  assert (Hal : a ∉ l).
  { pose proof (proj1 Hsep (Local sz)) as Hnd. rewrite Hown in Hnd.
    by apply NoDup_cons in Hnd as [? _]. }
  assert (Ha_in : a ∈ own (Local sz)) by (rewrite Hown; left).
  exists r. split; [done|]. split.
  { unfold allocate. rewrite (tp_get_Ok _ _ _ Hp), bind_Ok_l.
    rewrite decide_True by done. rewrite (load_Ok _ _ r) by done.
    rewrite bind_Ok_l. simpl heap. by rewrite store_Ok by done. }
  split; simpl.
  - rewrite length_insert. apply Hwf.
  - apply Hwf.
  - intros sz' p'. destruct (decide (sz = sz')) as [<-|Hne].
    + rewrite list_lookup_insert_eq by (by rewrite (wf_tp_length _ _ _ Hwf)).
      intros [= <-]. rewrite fn_lookup_insert. by apply lseg_frame.
    + rewrite list_lookup_insert_ne by done. intros Hp'.
      rewrite fn_lookup_insert_ne by congruence.
      rewrite fn_lookup_insert_ne by done.
      apply lseg_frame; [|by apply (wf_local _ _ _ Hwf)].
      eapply separate_notin; [done | done | congruence].
  - intros sz' pe Hpe.
    rewrite fn_lookup_insert_ne by done. rewrite fn_lookup_insert_ne by done.
    destruct (wf_global _ _ _ Hwf _ _ Hpe) as [Hg Hn]. split; [|done].
    apply lseg_frame; [|done]. eapply separate_notin; [done | done | done].
  - apply separate_move; [done | done |].
    rewrite Hown. by rewrite <- Permutation_middle.
  - intros sz' Hge. assert (sz ≠ sz') by lia. fn_simpl. by apply (wf_range _ _ _ Hwf).
Qed.

(** Table entries and chains that an operation leaves alone. *)
Lemma local_frame st own h' sz p :
  WF cfg st own → s_tp st !! sz = Some p →
  (∀ x, x ∈ own (Local sz) → h' !! x = heap st !! x) →
  is_list h' p (own (Local sz)).
Proof. intros Hwf Hp Hag. eapply lseg_agree; [done|]. by apply (wf_local _ _ _ Hwf). Qed.

Lemma global_frame st own h' sz pe :
  WF cfg st own → s_pool st !! sz = Some pe →
  (∀ x, x ∈ own (Global sz) → h' !! x = heap st !! x) →
  is_list h' (m_gp pe) (own (Global sz))
  ∧ m_size pe = Z.of_nat (length (own (Global sz))).
Proof.
  intros Hwf Hpe Hag. destruct (wf_global _ _ _ Hwf _ _ Hpe) as [Hg Hn].
  split; [|done]. by eapply lseg_agree.
Qed.

(** *** deallocateList and deallocate *)

(** The caller hands back a chain [l ++ [t]] of cells it holds, linked from
    [h] up to its tail [t]. *)
Lemma deallocateList_spec st own sz h l t rest :
  WF cfg st own → (sz < eTableSize cfg)%nat →
  lseg (heap st) h t l → t ≠ nullptr →
  own Outstanding ≡ₚ (l ++ [t]) ++ rest →
  ∃ old, s_tp st !! sz = Some old
     ∧ deallocateList sz h t st
       = Ok (set_tp sz h (set_heap (<[t:=old]> (heap st)) st))
     ∧ WF cfg (set_tp sz h (set_heap (<[t:=old]> (heap st)) st))
          (<[Local sz := (l ++ [t]) ++ own (Local sz)]> (<[Outstanding := rest]> own)).
Proof.
  intros Hwf Hsz Hchain Ht Hperm.
  destruct (WF_tp_lookup _ _ _ Hwf Hsz) as [old Hold].
  pose proof (wf_separate _ _ _ Hwf) as Hsep.
  assert (Ht_out : t ∈ own Outstanding).
  { rewrite Hperm. apply elem_of_app. left. apply elem_of_app. right. left. }
  assert (Htl : t ∉ l).
  { pose proof (proj1 Hsep Outstanding) as Hnd. rewrite Hperm in Hnd.
    apply NoDup_app in Hnd as (Hnd & _). apply NoDup_app in Hnd as (_ & Hd & _).
    intros Hin. eapply Hd; [done | left]. }
  exists old. split; [done|]. split.
  { unfold deallocateList. rewrite (tp_get_Ok _ _ _ Hold), bind_Ok_l.
    by rewrite store_Ok by done. }
  split; simpl.
  - rewrite length_insert. apply Hwf.
  - apply Hwf.
  - intros sz' p'. destruct (decide (sz = sz')) as [<-|Hne].
    + rewrite list_lookup_insert_eq by (by rewrite (wf_tp_length _ _ _ Hwf)).
      intros [= <-]. rewrite fn_lookup_insert. apply lseg_app. exists old. split.
      * eapply lseg_snoc; [by apply lseg_frame | done | apply lookup_insert_eq | done].
      * apply lseg_frame; [|by apply (wf_local _ _ _ Hwf)].
        eapply separate_notin; [done | done | done].
    + rewrite list_lookup_insert_ne by done. intros Hp'.
      rewrite fn_lookup_insert_ne by congruence.
      rewrite fn_lookup_insert_ne by done.
      eapply local_frame; [done | done |]. intros x Hx.
      apply lookup_insert_ne. intros <-.
      eapply (separate_notin own Outstanding (Local sz')); eauto.
  - intros sz' pe Hpe.
    rewrite fn_lookup_insert_ne by done. rewrite fn_lookup_insert_ne by done.
    eapply global_frame; [done | done |]. intros x Hx.
    apply lookup_insert_ne. intros <-.
    eapply (separate_notin own Outstanding (Global sz')); eauto.
  - apply separate_move; [done | done |].
    rewrite Hperm. by rewrite (assoc (++) rest), (comm (++) rest).
  - intros sz' Hge. assert (sz ≠ sz') by lia. fn_simpl. by apply (wf_range _ _ _ Hwf).
Qed.

Lemma deallocate_spec st own sz p rest :
  WF cfg st own → (sz < eTableSize cfg)%nat → p ≠ nullptr →
  own Outstanding ≡ₚ p :: rest →
  ∃ old, s_tp st !! sz = Some old
     ∧ deallocate sz p st
       = Ok (set_tp sz p (set_heap (<[p:=old]> (heap st)) st))
     ∧ WF cfg (set_tp sz p (set_heap (<[p:=old]> (heap st)) st))
          (<[Local sz := p :: own (Local sz)]> (<[Outstanding := rest]> own)).
Proof.
  intros Hwf Hsz Hp Hperm.
  by apply (deallocateList_spec st own sz p [] p rest).
Qed.

(** *** fillPool *)

Lemma slicesPerBlock_bounds n W N :
  0 < OGDF_SIZEOF_POINTER cfg → (0 < n)%nat → slicesPerBlock cfg n = (W, N) →
  0 < W ∧ W * OGDF_SIZEOF_POINTER cfg * N ≤ blockCapacity cfg.
Proof.
  intros Hptr Hn [= <- <-].
  set (ptr := OGDF_SIZEOF_POINTER cfg) in *.
  assert (HW : 0 < (Z.of_nat n + ptr - 1) / ptr).
  { apply Z.div_str_pos. lia. }
  split; [done|]. apply Z.mul_div_le. nia.
Qed.

Lemma slice_addrs_in_block n W N blk x :
  0 < OGDF_SIZEOF_POINTER cfg → (0 < n)%nat → slicesPerBlock cfg n = (W, N) →
  x ∈ slice_addrs cfg blk W (Z.to_nat N) → blk ≤ x < blk + blockCapacity cfg.
Proof.
  intros Hptr Hn HWN (i & Hi & ->)%elem_of_slice_addrs.
  destruct (slicesPerBlock_bounds n W N Hptr Hn HWN) as [HW Hcap]. nia.
Qed.

(** Refill from the global pool: the first [nSlices] cells [a :: g1] of the
    global list are detached; [a] is returned, [g1] becomes the local list. *)
Lemma fillPool_global st own blk sz W N a g1 g2 :
  WF cfg st own → (sz < eTableSize cfg)%nat →
  slicesPerBlock cfg (Nat.max sz (uint16 (eMinBytes cfg))) = (W, N) →
  own (Local sz) = [] → own (Global sz) = (a :: g1) ++ g2 →
  Z.of_nat (length (a :: g1)) = N →
  ∃ st', fillPool cfg blk sz sz st = Ok (a, st')
     ∧ WF cfg st' (<[Local sz := g1]> (<[Global sz := g2]>
                     (<[Outstanding := a :: own Outstanding]> own)))
     ∧ s_blocks st' = s_blocks st ∧ s_nettoAlloc st' = s_nettoAlloc st
     ∧ (∀ x, x ∉ a :: g1 → heap st' !! x = heap st !! x)
     ∧ (∀ sz', sz' ≠ sz → s_tp st' !! sz' = s_tp st !! sz'
                          ∧ s_pool st' !! sz' = s_pool st !! sz').
Proof.
  intros Hwf Hsz Hslices HL HG HN.
  destruct (WF_pool_lookup _ _ _ Hwf Hsz) as [pe Hpe].
  destruct (wf_global _ _ _ Hwf _ _ Hpe) as [Hg Hcount].
  pose proof (wf_separate _ _ _ Hwf) as Hsep.
  pose proof (proj1 Hsep (Global sz)) as Hnd.
  rewrite HG in Hg, Hcount, Hnd.
  destruct (exists_last (l := a :: g1)) as (front & lst & Hfront); [done|].
  rewrite Hfront in Hg, Hnd.
  apply lseg_app in Hg as (r' & Hseg & Hg2).
  apply lseg_app in Hseg as (lst' & Hfr & Hlst).
  destruct Hlst as (-> & Hlst & rl & Hr' & ->).
  apply NoDup_app in Hnd as (Hnd1 & Hdisj & Hnd2).
  apply NoDup_app in Hnd1 as (_ & Hlf & _).
  assert (Hlst_front : lst ∉ front).
  { intros Hin. eapply Hlf; [done | left]. }
  assert (Hlst_g2 : lst ∉ g2).
  { apply Hdisj. apply elem_of_app. right. left. }
  set (h' := <[lst:=nullptr]> (heap st)).
  assert (Hnew : is_list h' (m_gp pe) (a :: g1)).
  { rewrite Hfront. eapply lseg_snoc;
      [by apply lseg_frame | done | apply lookup_insert_eq | done]. }
  pose proof Hnew as (Hgp & Ha & next & Hnext & Hg1).
  set (st1 := set_heap h' (set_pool sz (mkPoolElement r' (m_size pe - N))
                             (set_tp sz (m_gp pe) st))).
  assert (Htp1 : s_tp st1 !! sz = Some (m_gp pe)).
  { simpl. apply list_lookup_insert_eq. by rewrite (wf_tp_length _ _ _ Hwf). }
  pose proof (f_equal length Hfront) as Hlen.
  rewrite length_app in Hcount, Hlen. simpl in Hcount, HN, Hlen.
  exists (set_tp sz next st1). split.
  { unfold fillPool. rewrite Hslices. cbv beta iota.
    rewrite (pool_get_Ok _ _ _ Hpe), bind_Ok_l.
    rewrite decide_True by lia.
    simpl heap. replace (Z.to_nat (N - 1)) with (length front) by lia.
    rewrite (advance_spec _ _ _ _ Hfr), bind_Ok_l.
    rewrite (load_Ok _ _ r') by done. rewrite bind_Ok_l.
    rewrite store_Ok by done. rewrite bind_Ok_l.
    fold h'. fold st1. rewrite bind_Ok_l.
    rewrite (tp_get_Ok _ _ _ Htp1), bind_Ok_l.
    rewrite (load_Ok _ _ next); [by rewrite Hgp | by rewrite Hgp | by rewrite Hgp]. }
  assert (Hlst_G : lst ∈ own (Global sz)).
  { rewrite HG, Hfront. apply elem_of_app. left. apply elem_of_app. right. left. }
  split; [split; simpl|].
  - rewrite !length_insert. apply Hwf.
  - rewrite length_insert. apply Hwf.
  - intros sz' p'. destruct (decide (sz = sz')) as [<-|Hne].
    + rewrite list_lookup_insert_eq
        by (by rewrite length_insert, (wf_tp_length _ _ _ Hwf)).
      intros [= <-]. by fn_simpl.
    + rewrite !list_lookup_insert_ne by done. intros Hp'. fn_simpl.
      eapply local_frame; [done | done |]. intros x Hx.
      apply lookup_insert_ne. intros <-.
      eapply (separate_notin own (Global sz) (Local sz')); eauto.
  - intros sz' pe'. destruct (decide (sz = sz')) as [<-|Hne].
    + rewrite list_lookup_insert_eq by (by rewrite (wf_pool_length _ _ _ Hwf)).
      intros [= <-]. fn_simpl. simpl. split; [by apply lseg_frame | lia].
    + rewrite list_lookup_insert_ne by done. intros Hpe'. fn_simpl.
      eapply global_frame; [done | done |]. intros x Hx.
      apply lookup_insert_ne. intros <-.
      eapply (separate_notin own (Global sz) (Global sz')); eauto; congruence.
  - apply (separate_ext
             (<[Local sz := g1]> (<[Global sz := g2]>
                (<[Global sz := g1 ++ g2]> (<[Outstanding := a :: own Outstanding]> own))))).
    { intros pl. destruct (decide (Local sz = pl)) as [<-|?]; [by fn_simpl|].
      destruct (decide (Global sz = pl)) as [<-|?]; by fn_simpl. }
    apply separate_move; [|done|].
    + apply separate_move; [done | done |].
      rewrite HG. simpl. by rewrite <- Permutation_middle.
    + fn_simpl. rewrite HL, app_nil_r. apply (comm (++)).
  - intros sz' Hge. assert (sz ≠ sz') by lia. fn_simpl. by apply (wf_range _ _ _ Hwf).
  - simpl. split; [done|]. split; [done|]. split.
    + intros x Hx. apply lookup_insert_ne. intros <-. apply Hx.
      rewrite Hfront. apply elem_of_app. right. left.
    + intros sz' Hne. by rewrite !list_lookup_insert_ne.
Qed.

(** Refill from a new block: the block is put in front of the block chain
    and sliced; the first slice is returned, the others are the local list. *)
Lemma fillPool_block st own blk sz W N :
  WF cfg st own → 0 < OGDF_SIZEOF_POINTER cfg → (0 < sz < eTableSize cfg)%nat →
  slicesPerBlock cfg (Nat.max sz (uint16 (eMinBytes cfg))) = (W, N) → 2 ≤ N →
  own (Local sz) = [] → Z.of_nat (length (own (Global sz))) < N →
  fresh_block cfg own blk →
  ∃ st', fillPool cfg blk sz sz st = Ok (blk, st')
     ∧ WF cfg st' (<[Local sz := tail (slice_addrs cfg blk W (Z.to_nat N))]>
                     (<[Outstanding := blk :: own Outstanding]> own))
     ∧ s_blocks st' = blk
     ∧ heap st' !! block_link cfg blk = Some (s_blocks st)
     ∧ s_pool st' = s_pool st
     ∧ s_nettoAlloc st'
       = (if OGDF_DEBUG cfg then s_nettoAlloc st + W * N else s_nettoAlloc st)
     ∧ (∀ x, ¬ (blk ≤ x < blk + eBlockSize cfg) → heap st' !! x = heap st !! x)
     ∧ (∀ sz', sz' ≠ sz → s_tp st' !! sz' = s_tp st !! sz').
Proof.
  intros Hwf Hptr [Hsz0 Hsz] Hslices HN HL HG [Hblk Hfresh].
  destruct (WF_pool_lookup _ _ _ Hwf Hsz) as [pe Hpe].
  destruct (wf_global _ _ _ Hwf _ _ Hpe) as [_ Hcount].
  pose proof (wf_separate _ _ _ Hwf) as Hsep.
  destruct (slicesPerBlock_bounds (Nat.max sz (uint16 (eMinBytes cfg))) W N Hptr)
    as [HW Hcap]; [lia | done |].
  assert (Hcap0 : 0 < blockCapacity cfg) by nia.
  set (h1 := <[block_link cfg blk := s_blocks st]> (heap st)).
  destruct (makeSlices_spec cfg Hptr h1 blk W (Z.to_nat N))
    as (h2 & Hmake & Hlist & Hframe); [done | done | lia |].
  rewrite Z2Nat.id in Hmake by lia.
  set (slices := slice_addrs cfg blk W (Z.to_nat N)) in *.
  assert (Hrange : ∀ x, x ∈ slices → blk ≤ x < blk + blockCapacity cfg).
  { intros x (i & Hi & ->)%elem_of_slice_addrs. nia. }
  assert (Hlink : block_link cfg blk ∉ slices).
  { intros Hin%Hrange. unfold block_link in Hin. lia. }
  assert (Houtside : ∀ x, ¬ (blk ≤ x < blk + eBlockSize cfg) → h2 !! x = heap st !! x).
  { intros x Hx. rewrite Hframe.
    - apply lookup_insert_ne. unfold block_link, blockCapacity in *. lia.
    - intros Hin%Hrange. unfold blockCapacity in *. lia. }
  assert (Hsl : slices = blk :: tail slices).
  { unfold slices. destruct (Z.to_nat N) as [|n] eqn:E; [lia|].
    by rewrite slice_addrs_S. }
  rewrite Hsl in Hlist. pose proof Hlist as (_ & _ & next & Hnext & Htl).
  set (st3 := if OGDF_DEBUG cfg
              then set_nettoAlloc (s_nettoAlloc st + W * N)
                     (set_tp sz blk (set_blocks blk (set_heap h1 st)))
              else set_tp sz blk (set_blocks blk (set_heap h1 st))).
  assert (Hst3 : heap st3 = h1 ∧ s_tp st3 = <[sz:=blk]> (s_tp st)
                 ∧ s_pool st3 = s_pool st ∧ s_blocks st3 = blk
                 ∧ s_nettoAlloc st3 = (if OGDF_DEBUG cfg
                                       then s_nettoAlloc st + W * N else s_nettoAlloc st)).
  { unfold st3. by destruct (OGDF_DEBUG cfg). }
  destruct Hst3 as (Hh3 & Htp3 & Hpool3 & Hbl3 & Hnet3).
  exists (set_tp sz next (set_heap h2 st3)). split.
  { unfold fillPool. rewrite Hslices. cbv beta iota.
    rewrite (pool_get_Ok _ _ _ Hpe), bind_Ok_l.
    rewrite decide_False by lia.
    unfold allocateBlock, store_link. rewrite decide_False by (unfold nullptr; lia).
    fold h1. rewrite !bind_Ok_l. cbv beta iota. simpl s_nettoAlloc.
    fold st3. rewrite Hh3, Hmake, !bind_Ok_l.
    unfold tp_get. simpl s_tp. rewrite Htp3.
    rewrite list_lookup_insert_eq by (by rewrite (wf_tp_length _ _ _ Hwf)).
    simpl defined. rewrite bind_Ok_l. simpl heap.
    by rewrite (load_Ok _ _ next) by (done || unfold nullptr; lia). }
  split; [split; st_simpl|].
  - rewrite Htp3, !length_insert. apply Hwf.
  - rewrite Hpool3. apply Hwf.
  - rewrite Htp3. intros sz' p'. destruct (decide (sz = sz')) as [<-|Hne].
    + rewrite list_lookup_insert_eq
        by (by rewrite length_insert, (wf_tp_length _ _ _ Hwf)).
      intros [= <-]. by fn_simpl.
    + rewrite !list_lookup_insert_ne by done. intros Hp'. fn_simpl.
      eapply local_frame; [done | done |]. intros x Hx.
      apply Houtside. by eapply Hfresh.
  - rewrite Hpool3. intros sz' pe' Hpe'. fn_simpl.
    eapply global_frame; [done | done |]. intros x Hx.
    apply Houtside. by eapply Hfresh.
  - apply (separate_ext
             (<[Local sz := tail slices]> (<[Outstanding := blk :: own Outstanding]>
                (<[Outstanding := slices ++ own Outstanding]> own)))).
    { intros pl. destruct (decide (Local sz = pl)) as [<-|?]; [by fn_simpl|].
      destruct (decide (Outstanding = pl)) as [<-|?]; by fn_simpl. }
    apply separate_move; [|done|].
    + apply separate_add_fresh; [done | |].
      * unfold slices. by apply slice_addrs_NoDup.
      * intros x pl Hx%Hrange Hpl. eapply Hfresh; [done|].
        unfold blockCapacity in Hx. lia.
    + fn_simpl. rewrite HL, app_nil_r.
      transitivity ((blk :: tail slices) ++ own Outstanding); [|by rewrite <- Hsl].
      simpl. constructor. apply (comm (++)).
  - intros sz' Hge. assert (sz ≠ sz') by lia. fn_simpl. by apply (wf_range _ _ _ Hwf).
  - st_simpl. rewrite Hbl3, Hpool3, Hnet3, Htp3. split; [done|]. split.
    { rewrite Hframe by done. apply lookup_insert_eq. }
    split; [done|]. split; [done|]. split; [done|].
    intros sz' Hne. by rewrite !list_lookup_insert_ne.
Qed.

Lemma WF_ext st own own' :
  (∀ pl, own' pl = own pl) → WF cfg st own → WF cfg st own'.
Proof.
  intros Heq Hwf. split; try apply Hwf.
  - intros sz p Hp. rewrite Heq. by apply (wf_local _ _ _ Hwf).
  - intros sz pe Hpe. rewrite Heq. by apply (wf_global _ _ _ Hwf).
  - eapply separate_ext; [done | apply Hwf].
  - intros sz Hge. rewrite !Heq. by apply (wf_range _ _ _ Hwf).
Qed.

Lemma elem_of_sizes sz : sz ∈ sizes cfg ↔ (0 < sz < eTableSize cfg)%nat.
Proof. unfold sizes. rewrite elem_of_seq. lia. Qed.

Lemma NoDup_sizes : NoDup (sizes cfg).
Proof. apply NoDup_seq. Qed.

(** The invariant depends on the configuration only through the table size. *)
Lemma WF_same_table cfg' st own :
  eTableSize cfg = eTableSize cfg' → WF cfg st own → WF cfg' st own.
Proof.
  intros Heq Hwf. split; try apply Hwf.
  - rewrite <- Heq. apply Hwf.
  - rewrite <- Heq. apply Hwf.
  - rewrite <- Heq. apply Hwf.
Qed.

(** The record of holdings is determined by the state and by what the
    application holds. *)
Lemma WF_own_unique st own own' :
  WF cfg st own → WF cfg st own' → own Outstanding = own' Outstanding →
  ∀ pl, own pl = own' pl.
Proof.
  intros Hwf Hwf' Hout pl. destruct pl as [sz|sz|]; [| |done].
  - destruct (decide (sz < eTableSize cfg)%nat) as [Hsz|Hge].
    + destruct (WF_pool_lookup _ _ _ Hwf Hsz) as [pe Hpe].
      destruct (wf_global _ _ _ Hwf _ _ Hpe) as [Hg _].
      destruct (wf_global _ _ _ Hwf' _ _ Hpe) as [Hg' _].
      by eapply is_list_func.
    + destruct (wf_range _ _ _ Hwf sz) as [_ ->]; [lia|].
      by destruct (wf_range _ _ _ Hwf' sz) as [_ ->]; [lia|].
  - destruct (decide (sz < eTableSize cfg)%nat) as [Hsz|Hge].
    + destruct (WF_tp_lookup _ _ _ Hwf Hsz) as [p Hp].
      eapply is_list_func; [by apply (wf_local _ _ _ Hwf) | by apply (wf_local _ _ _ Hwf')].
    + destruct (wf_range _ _ _ Hwf sz) as [-> _]; [lia|].
      by destruct (wf_range _ _ _ Hwf' sz) as [-> _]; [lia|].
Qed.

(** *** flushPool *)

Lemma flush_class_spec fuel st own sz :
  WF cfg st own → (sz < eTableSize cfg)%nat →
  (length (own (Local sz)) ≤ fuel)%nat →
  ∃ st', flush_class fuel sz st = Ok st'
     ∧ WF cfg st' (flush_on [sz] own)
     ∧ s_tp st' = <[sz:=nullptr]> (s_tp st)
     ∧ s_blocks st' = s_blocks st ∧ s_nettoAlloc st' = s_nettoAlloc st
     ∧ (∀ x, x ∉ own (Local sz) → heap st' !! x = heap st !! x).
Proof.
  intros Hwf Hsz Hfuel.
  destruct (WF_tp_lookup _ _ _ Hwf Hsz) as [p Hp].
  destruct (WF_pool_lookup _ _ _ Hwf Hsz) as [pe Hpe].
  pose proof (wf_local _ _ _ Hwf _ _ Hp) as HL.
  destruct (wf_global _ _ _ Hwf _ _ Hpe) as [HG Hcount].
  pose proof (wf_separate _ _ _ Hwf) as Hsep.
  unfold flush_class. rewrite (tp_get_Ok _ _ _ Hp), bind_Ok_l.
  destruct (decide (p ≠ nullptr)) as [Hnz|Hz].
  - destruct (is_list_nonnull _ _ _ HL Hnz) as (a & l' & Hown).
    destruct (exists_last (l := own (Local sz))) as (l & t & Hlast);
      [by rewrite Hown|].
    rewrite Hlast in HL.
    rewrite (find_tail_spec _ t l) by (done || rewrite Hlast, length_app in Hfuel; simpl in Hfuel; lia).
    rewrite bind_Ok_l. cbv beta iota.
    assert (Hpool1 : s_pool (set_tp sz nullptr st) !! sz = Some pe) by done.
    rewrite (pool_get_Ok _ _ _ Hpool1), bind_Ok_l.
    pose proof HL as Hsplit. apply lseg_app in Hsplit as (t' & Hfront & Ht).
    destruct Ht as (-> & Ht & r & Hr & ->).
    rewrite store_Ok by done. rewrite bind_Ok_l.
    assert (Ht_in : t ∈ own (Local sz)).
    { rewrite Hlast. apply elem_of_app. right. left. }
    assert (Htl : t ∉ l).
    { pose proof (proj1 Hsep (Local sz)) as Hnd. rewrite Hlast in Hnd.
      apply NoDup_app in Hnd as (_ & Hd & _). intros Hin. eapply Hd; [done | left]. }
    eexists. split; [done|]. split; [split; st_simpl|].
    + rewrite length_insert. apply Hwf.
    + rewrite length_insert. apply Hwf.
    + intros sz' p'. unfold flush_on. destruct (decide (sz = sz')) as [<-|Hne].
      * rewrite list_lookup_insert_eq by (by rewrite (wf_tp_length _ _ _ Hwf)).
        intros [= <-]. rewrite decide_True by left. done.
      * rewrite list_lookup_insert_ne by done. intros Hp'.
        rewrite decide_False by (rewrite list_elem_of_singleton; congruence).
        eapply local_frame; [done | done |]. intros x Hx.
        apply lookup_insert_ne. intros <-.
        eapply (separate_notin own (Local sz) (Local sz')); eauto; congruence.
    + intros sz' pe'. unfold flush_on. destruct (decide (sz = sz')) as [<-|Hne].
      * rewrite list_lookup_insert_eq by (by rewrite (wf_pool_length _ _ _ Hwf)).
        intros [= <-]. rewrite decide_True by left. simpl. split.
        -- rewrite Hlast. apply lseg_app. exists (m_gp pe). split.
           ++ eapply lseg_snoc; [by apply lseg_frame | done | apply lookup_insert_eq | done].
           ++ apply lseg_frame; [|done].
              eapply (separate_notin own (Local sz) (Global sz)); eauto.
        -- rewrite length_app, Hlast, length_app. simpl. lia.
      * rewrite list_lookup_insert_ne by done. intros Hpe'.
        rewrite decide_False by (rewrite list_elem_of_singleton; congruence).
        eapply global_frame; [done | done |]. intros x Hx.
        apply lookup_insert_ne. intros <-.
        eapply (separate_notin own (Local sz) (Global sz')); eauto.
    + apply (separate_ext
               (<[Global sz := own (Local sz) ++ own (Global sz)]> (<[Local sz := []]> own))).
      { intros pl. unfold flush_on. destruct pl as [sz'|sz'|].
        - destruct (decide (sz' ∈ [sz])) as [->%list_elem_of_singleton|Hni]; [by fn_simpl|].
          rewrite list_elem_of_singleton in Hni. by fn_simpl.
        - destruct (decide (sz' ∈ [sz])) as [->%list_elem_of_singleton|Hni]; [by fn_simpl|].
          rewrite list_elem_of_singleton in Hni. by fn_simpl.
        - by fn_simpl. }
      apply separate_move; done.
    + intros sz' Hge. assert (sz' ∉ [sz]) by (rewrite list_elem_of_singleton; lia).
      unfold flush_on. rewrite !decide_False by done. by apply (wf_range _ _ _ Hwf).
    + st_simpl. repeat (split; [done|]). intros x Hx.
      apply lookup_insert_ne. intros <-. done.
  - assert (p = nullptr) as -> by (by destruct (decide (p = nullptr)) as [|?]; [|exfalso; eauto]).
    apply is_list_null in HL.
    exists st. split; [done|]. split; [|by rewrite list_insert_id].
    eapply WF_ext; [|done]. intros pl. unfold flush_on. destruct pl as [sz'|sz'|]; [| |done].
    + destruct (decide (sz' ∈ [sz])) as [->%list_elem_of_singleton|Hni]; [|done].
      by rewrite HL.
    + destruct (decide (sz' ∈ [sz])) as [->%list_elem_of_singleton|Hni]; done.
Qed.

Lemma flush_on_cons sz l own pl :
  sz ∉ l → flush_on l (flush_on [sz] own) pl = flush_on (sz :: l) own pl.
Proof.
  intros Hni. unfold flush_on. destruct pl as [sz'|sz'|]; [| |done].
  - destruct (decide (sz' ∈ l)) as [Hin|Hnin].
    + assert (sz' ≠ sz) by (intros ->; done).
      rewrite !(decide_False (P := sz' ∈ [sz])) by (rewrite list_elem_of_singleton; done).
      by rewrite decide_True by (by right).
    + destruct (decide (sz' ∈ [sz])) as [->%list_elem_of_singleton|Hne].
      * by rewrite decide_True by left.
      * rewrite decide_False; [done|].
        rewrite list_elem_of_singleton in Hne. rewrite elem_of_cons. intros [?|?]; done.
  - destruct (decide (sz' ∈ l)) as [Hin|Hnin].
    + by rewrite decide_True by (by right).
    + destruct (decide (sz' ∈ [sz])) as [->%list_elem_of_singleton|Hne].
      * by rewrite decide_True by left.
      * rewrite decide_False; [done|].
        rewrite list_elem_of_singleton in Hne. rewrite elem_of_cons. intros [?|?]; done.
Qed.

Lemma flush_on_nil own pl : flush_on [] own pl = own pl.
Proof.
  unfold flush_on. destruct pl; [| |done];
    rewrite decide_False; (done || apply not_elem_of_nil).
Qed.

Lemma flush_loop fuel l : ∀ st own,
  NoDup l → (∀ sz, sz ∈ l → (sz < eTableSize cfg)%nat) →
  WF cfg st own → (∀ sz, (length (own (Local sz)) ≤ fuel)%nat) →
  ∃ st', for_each (flush_class fuel) l st = Ok st'
     ∧ WF cfg st' (flush_on l own)
     ∧ s_tp st' = foldl (fun tp sz => <[sz:=nullptr]> tp) (s_tp st) l
     ∧ s_blocks st' = s_blocks st ∧ s_nettoAlloc st' = s_nettoAlloc st
     ∧ (∀ x, (∀ sz, sz ∈ l → x ∉ own (Local sz)) → heap st' !! x = heap st !! x).
Proof.
  induction l as [|sz l IH]; intros st own Hnd Hrange Hwf Hfuel.
  - exists st. split; [done|]. split; [|done].
    eapply WF_ext; [|done]. apply flush_on_nil.
  - apply NoDup_cons in Hnd as [Hni Hnd].
    destruct (flush_class_spec fuel st own sz)
      as (st1 & Hrun1 & Hwf1 & Htp1 & Hbl1 & Hnet1 & Hheap1);
      [done | apply Hrange; left | apply Hfuel |].
    destruct (IH st1 (flush_on [sz] own))
      as (st' & Hrun & Hwf' & Htp' & Hbl' & Hnet' & Hheap');
      [done | intros; apply Hrange; by right | done | |].
    { intros sz'. simpl. destruct (decide (sz' ∈ [sz])); [simpl; lia | apply Hfuel]. }
    exists st'. split.
    { simpl. by rewrite Hrun1, bind_Ok_l. }
    split.
    { eapply WF_ext; [|done]. intros pl. symmetry. by apply flush_on_cons. }
    simpl. rewrite Htp', Htp1, Hbl', Hbl1, Hnet', Hnet1. repeat (split; [done|]).
    intros x Hx. rewrite Hheap'.
    + apply Hheap1. apply Hx. left.
    + intros sz' Hin. simpl. destruct (decide (sz' ∈ [sz])); [apply not_elem_of_nil|].
      apply Hx. by right.
Qed.

Lemma lookup_foldl_clear (l : list nat) : ∀ (tp : list Z) sz,
  foldl (fun tp sz => <[sz:=nullptr]> tp) tp l !! sz
  = if decide (sz ∈ l ∧ (sz < length tp)%nat) then Some nullptr else tp !! sz.
Proof.
  induction l as [|sz0 l IH]; intros tp sz.
  - destruct (decide _) as [[H _]|]; [by apply elem_of_nil in H | done].
  - change (foldl (fun tp sz => <[sz:=nullptr]> tp) tp (sz0 :: l))
      with (foldl (fun tp sz => <[sz:=nullptr]> tp) (<[sz0:=nullptr]> tp) l).
    rewrite IH, length_insert.
    destruct (decide (sz ∈ l ∧ (sz < length tp)%nat)) as [[? ?]|Hn].
    + rewrite decide_True; [done|]. split; [by right | done].
    + destruct (decide (sz0 = sz)) as [->|Hne].
      * destruct (decide (sz < length tp)%nat).
        -- rewrite list_lookup_insert_eq by done. rewrite decide_True; [done|].
           split; [left | done].
        -- rewrite list_insert_ge by lia. rewrite decide_False; [done|]. intros [_ ?]. lia.
      * rewrite list_lookup_insert_ne by done. rewrite decide_False; [done|].
        intros [[?|?]%elem_of_cons ?]; [congruence|]. apply Hn. done.
Qed.

(** *** Introspection *)

Lemma for_each_sum (body : nat → Z → result Z) (f : nat → Z) l : ∀ a,
  (∀ sz acc, sz ∈ l → body sz acc = Ok (acc + f sz)) →
  for_each body l a = Ok (a + sum_over l f).
Proof.
  induction l as [|sz l IH]; intros a Hbody; simpl.
  - f_equal. lia.
  - rewrite Hbody by left. rewrite bind_Ok_l.
    rewrite IH by (intros; apply Hbody; by right). f_equal. lia.
Qed.

Lemma sum_over_ext l f g :
  (∀ sz, sz ∈ l → f sz = g sz) → sum_over l f = sum_over l g.
Proof.
  induction l as [|sz l IH]; intros Heq; simpl; [done|].
  rewrite Heq by left. rewrite IH; [done|]. intros; apply Heq; by right.
Qed.

Lemma sum_over_plus l f g :
  sum_over l (fun sz => f sz + g sz) = sum_over l f + sum_over l g.
Proof. induction l as [|sz l IH]; simpl; lia. Qed.

Lemma for_each_foldl (body : nat → Z → result Z) (f : Z → nat → Z) l : ∀ a,
  (∀ sz acc, sz ∈ l → body sz acc = Ok (f acc sz)) →
  for_each body l a = Ok (foldl f a l).
Proof.
  induction l as [|sz l IH]; intros a Hbody; simpl; [done|].
  rewrite Hbody by left. rewrite bind_Ok_l.
  apply IH. intros sz' acc Hin. apply Hbody. by right.
Qed.



Lemma global_bytes_ext l c c' :
  (∀ sz, sz ∈ l → c sz = c' sz) → global_bytes cfg l c = global_bytes cfg l c'.
Proof.
  unfold global_bytes. generalize 0. induction l as [|sz l IH]; intros a Hc; [done|].
  cbn [foldl]. rewrite (Hc sz) by left. apply IH. intros sz' Hin. apply Hc. by right.
Qed.

Lemma global_bytes_zero l c :
  (∀ sz, sz ∈ l → c sz = 0) → global_bytes cfg l c = 0.
Proof.
  unfold global_bytes. induction l as [|sz l IH]; intros Hc; [done|].
  cbn [foldl]. rewrite (Hc sz) by left.
  replace (to_size_t cfg (0 + int32 (0 * Z.of_nat sz))) with 0.
  - apply IH. intros sz' Hin. apply Hc. by right.
  - unfold to_size_t, int32. rewrite Z.mul_0_l. cbn. by rewrite Zmod_0_l.
Qed.


(** [unguardedMemGlobalFreelist] depends on the stored counts only. *)
Lemma unguardedMemGlobalFreelist_counts st own :
  WF cfg st own →
  unguardedMemGlobalFreelist cfg st
  = Ok (global_bytes cfg (sizes cfg) (fun sz => Z.of_nat (length (own (Global sz))))).
Proof.
  intros Hwf. unfold unguardedMemGlobalFreelist, global_bytes.
  apply (for_each_foldl _
    (fun bytesFree sz =>
       to_size_t cfg (bytesFree
                      + int32 (Z.of_nat (length (own (Global sz))) * Z.of_nat sz)))).
  intros sz acc [_ Hsz]%elem_of_sizes.
  destruct (WF_pool_lookup _ _ _ Hwf Hsz) as [pe Hpe].
  destruct (wf_global _ _ _ Hwf _ _ Hpe) as [_ Hcount].
  by rewrite (pool_get_Ok _ _ _ Hpe), bind_Ok_l, Hcount.
Qed.


Lemma set_tp_set_tp sz p q st : set_tp sz q (set_tp sz p st) = set_tp sz q st.
Proof. unfold set_tp. simpl. by rewrite list_insert_insert_eq. Qed.

Lemma set_tp_id sz p st : s_tp st !! sz = Some p → set_tp sz p st = st.
Proof. intros Hp. unfold set_tp. rewrite list_insert_id by done. by destruct st. Qed.

(** The walk of [memoryInThreadFreeList] over one class counts the cells of
    the list, and, assigning through the reference, leaves the head null. *)
Lemma thread_walk_spec sz l : ∀ fuel st p bytesFree,
  s_tp st !! sz = Some p → is_list (heap st) p l → (length l < fuel)%nat →
  thread_walk fuel sz (st, bytesFree)
  = Ok (set_tp sz nullptr st, bytesFree + Z.of_nat (length l) * Z.of_nat sz).
Proof.
  induction l as [|a l IH]; intros fuel st p b Hp Hl Hfuel;
    (destruct fuel as [|fuel]; [simpl in Hfuel; lia|]);
    simpl thread_walk; rewrite (tp_get_Ok _ _ _ Hp), bind_Ok_l.
  - unfold is_list in Hl. simpl in Hl. subst p.
    rewrite decide_False by (intros H; by apply H).
    rewrite set_tp_id by done. do 2 f_equal. simpl. lia.
  - destruct Hl as (-> & Ha & r & Hr & Hl).
    rewrite decide_True by done.
    rewrite (load_Ok _ _ r) by done. rewrite bind_Ok_l.
    rewrite (IH fuel (set_tp sz r st) r); [| | done | simpl in Hfuel; lia].
    + rewrite set_tp_set_tp. do 2 f_equal. simpl length. lia.
    + simpl. apply list_lookup_insert_eq. by eapply lookup_lt_Some.
Qed.

Lemma memoryInThreadFreeList_loop fuel (lists : nat → list Z) l : ∀ st bytesFree,
  NoDup l →
  (∀ sz, sz ∈ l → ∃ p, s_tp st !! sz = Some p ∧ is_list (heap st) p (lists sz)
                      ∧ (length (lists sz) < fuel)%nat) →
  for_each (thread_walk fuel) l (st, bytesFree)
  = Ok (clear_tp l st,
        bytesFree + sum_over l (fun sz => Z.of_nat (length (lists sz)) * Z.of_nat sz)).
Proof.
  induction l as [|sz l IH]; intros st b Hnd Hl.
  - simpl. do 2 f_equal. lia.
  - apply NoDup_cons in Hnd as [Hni Hnd].
    destruct (Hl sz) as (p & Hp & Hlist & Hfuel); [left|].
    simpl for_each. rewrite (thread_walk_spec sz (lists sz) fuel st p) by done.
    rewrite bind_Ok_l. rewrite IH; [simpl; do 2 f_equal; lia | done |].
    intros sz' Hin. destruct (Hl sz') as (p' & Hp' & Hlist' & Hfuel'); [by right|].
    exists p'. split; [|done]. simpl. rewrite list_lookup_insert_ne; [done|].
    intros ->. done.
Qed.

Lemma memoryInThreadFreeList_spec fuel st own :
  WF cfg st own → fuel_enough fuel own →
  memoryInThreadFreeList cfg fuel st
  = Ok (clear_tp (sizes cfg) st, bytes_held (sizes cfg) own Local).
Proof.
  intros Hwf Hfuel. unfold memoryInThreadFreeList, bytes_held.
  rewrite (memoryInThreadFreeList_loop fuel (fun sz => own (Local sz)));
    [done | apply NoDup_sizes |].
  intros sz [_ Hsz]%elem_of_sizes.
  destruct (WF_tp_lookup _ _ _ Hwf Hsz) as [p Hp].
  exists p. split; [done|]. split; [by apply (wf_local _ _ _ Hwf) | apply (Hfuel sz)].
Qed.

Lemma s_tp_clear_tp l : ∀ st,
  s_tp (clear_tp l st) = foldl (fun tp sz => <[sz:=nullptr]> tp) (s_tp st) l.
Proof. induction l as [|sz l IH]; intros st; [done|]. simpl. by rewrite IH. Qed.

Lemma clear_tp_frame l : ∀ st,
  heap (clear_tp l st) = heap st ∧ s_pool (clear_tp l st) = s_pool st
  ∧ s_blocks (clear_tp l st) = s_blocks st
  ∧ s_nettoAlloc (clear_tp l st) = s_nettoAlloc st.
Proof.
  induction l as [|sz l IH]; intros st; [done|]. simpl.
  destruct (IH (set_tp sz nullptr st)) as (-> & -> & -> & ->). done.
Qed.

(** *** defrag *)

Lemma std_sort_Permutation a : std_sort a ≡ₚ a.
Proof. apply merge_sort_Permutation. Qed.

Lemma std_sort_sorted a : StronglySorted Z.le (std_sort a).
Proof. apply StronglySorted_merge_sort; apply _. Qed.

(** Without repetitions, sorted means strictly ascending. *)
Lemma sorted_NoDup_strict (a : list Z) :
  StronglySorted Z.le a → NoDup a → StronglySorted Z.lt a.
Proof.
  induction 1 as [|x a Hs IH Hall]; intros Hnd; [constructor|].
  apply NoDup_cons in Hnd as [Hx Hnd]. constructor; [by apply IH|].
  apply Forall_forall. intros y Hy.
  pose proof (proj1 (Forall_forall _ _) Hall y Hy).
  assert (x ≠ y) by (intros ->; done). lia.
Qed.

Lemma defrag_on_nil own pl : defrag_on [] own pl = own pl.
Proof.
  unfold defrag_on. destruct pl; [|done|done].
  rewrite decide_False; [done|]. intros [[]%elem_of_nil _].
Qed.

Lemma defrag_on_length l own pl : length (defrag_on l own pl) = length (own pl).
Proof.
  unfold defrag_on. destruct pl; [|done|done].
  destruct (decide _); [|done]. by rewrite std_sort_Permutation.
Qed.

Lemma defrag_class_spec fuel maxSize st own sz :
  WF cfg st own → (sz < eTableSize cfg)%nat →
  (length (own (Global sz)) < fuel)%nat →
  Z.of_nat (length (own (Global sz))) ≤ maxSize →
  ∃ st', defrag_class cfg fuel maxSize sz st = Ok st'
     ∧ WF cfg st' (defrag_on [sz] own)
     ∧ s_tp st' = s_tp st ∧ s_blocks st' = s_blocks st
     ∧ s_nettoAlloc st' = s_nettoAlloc st
     ∧ (∀ sz' pe, sz' ≠ sz → s_pool st !! sz' = Some pe → s_pool st' !! sz' = Some pe)
     ∧ (∀ x, x ∉ own (Global sz) → heap st' !! x = heap st !! x)
     ∧ ((length (own (Global sz)) ≤ 1)%nat → st' = st).
Proof.
  intros Hwf Hsz Hfuel Hroom.
  destruct (WF_pool_lookup _ _ _ Hwf Hsz) as [pe Hpe].
  destruct (wf_global _ _ _ Hwf _ _ Hpe) as [HG Hcount].
  pose proof (wf_separate _ _ _ Hwf) as Hsep.
  unfold defrag_class. rewrite (pool_get_Ok _ _ _ Hpe), bind_Ok_l.
  destruct (decide (m_size pe > 1)) as [Hbig|Hsmall].
  - rewrite (collect_spec _ (own (Global sz))) by (done || lia).
    rewrite bind_Ok_l. rewrite decide_True by done.
    set (a' := std_sort (own (Global sz))).
    assert (Hperm : a' ≡ₚ own (Global sz)) by apply std_sort_Permutation.
    destruct (relink_spec a' (heap st)) as (h' & Hrun & Hlist & Hframe).
    { intros Heq. apply (f_equal length) in Heq.
      rewrite Hperm in Heq. simpl in Heq. lia. }
    { rewrite Hperm. apply Hsep. }
    { intros x Hx. rewrite Hperm in Hx. by eapply lseg_nonnull. }
    st_simpl. rewrite Hrun, bind_Ok_l.
    assert (Hout : ∀ x, x ∉ own (Global sz) → h' !! x = heap st !! x).
    { intros x Hx. apply Hframe. by rewrite Hperm. }
    eexists. split; [done|]. split; [split; st_simpl|].
    + apply Hwf.
    + rewrite length_insert. apply Hwf.
    + intros sz' p' Hp'. unfold defrag_on.
      eapply local_frame; [done | done |]. intros x Hx. apply Hout.
      eapply (separate_notin own (Local sz') (Global sz)); eauto.
    + intros sz' pe'. unfold defrag_on. destruct (decide (sz = sz')) as [<-|Hne].
      * rewrite list_lookup_insert_eq by (by rewrite (wf_pool_length _ _ _ Hwf)).
        intros [= <-]. rewrite decide_True by (split; [left | lia]).
        simpl. fold a'. split; [done|]. by rewrite Hperm.
      * rewrite list_lookup_insert_ne by done. intros Hpe'.
        rewrite decide_False by (rewrite list_elem_of_singleton; intros [? _]; congruence).
        eapply global_frame; [done | done |]. intros x Hx. apply Hout.
        eapply (separate_notin own (Global sz') (Global sz)); eauto; congruence.
    + apply (separate_ext (<[Global sz := a']> own)).
      { intros pl. unfold defrag_on. destruct pl as [sz'|sz'|]; [|by fn_simpl|by fn_simpl].
        destruct (decide _) as [[->%list_elem_of_singleton _]|Hn]; [by fn_simpl|].
        destruct (decide (sz = sz')) as [<-|?]; [|by fn_simpl].
        exfalso. apply Hn. split; [left | lia]. }
      by apply separate_perm.
    + intros sz' Hge. unfold defrag_on.
      rewrite decide_False by (rewrite list_elem_of_singleton; intros [? _]; lia).
      by apply (wf_range _ _ _ Hwf).
    + st_simpl. repeat (split; [done|]). split; [|split; [done|lia]].
      intros sz' pe' Hne Hpe'. by rewrite list_lookup_insert_ne.
  - exists st. split; [done|]. split.
    { eapply WF_ext; [|done]. intros pl. unfold defrag_on.
      destruct pl as [sz'|sz'|]; [|done|done].
      destruct (decide _) as [[->%list_elem_of_singleton ?]|Hn]; [lia | done]. }
    repeat (split; [done|]). done.
Qed.

Lemma defrag_on_cons sz l own pl :
  sz ∉ l → defrag_on l (defrag_on [sz] own) pl = defrag_on (sz :: l) own pl.
Proof.
  intros Hni. unfold defrag_on. destruct pl as [sz'|sz'|]; [|done|done].
  destruct (decide (sz' ∈ l)) as [Hin|Hnin].
  - assert (sz' ≠ sz) by (intros ->; done).
    rewrite !(decide_False (P := sz' ∈ [sz] ∧ _))
      by (rewrite list_elem_of_singleton; intros [? _]; done).
    destruct (decide (sz' ∈ l ∧ _)) as [[_ ?]|Hn].
    + rewrite decide_True; [done|]. split; [by right | done].
    + rewrite decide_False; [done|]. intros [_ ?]. apply Hn. done.
  - rewrite (decide_False (P := sz' ∈ l ∧ _)) by (intros [? _]; done).
    destruct (decide (sz' ∈ [sz] ∧ _)) as [[->%list_elem_of_singleton ?]|Hn].
    + rewrite decide_True; [done|]. split; [left | done].
    + rewrite decide_False; [done|]. rewrite list_elem_of_singleton in Hn.
      intros [[->|?]%elem_of_cons ?]; [|done]. apply Hn. done.
Qed.

Lemma defrag_loop fuel maxSize l : ∀ st own,
  NoDup l → (∀ sz, sz ∈ l → (sz < eTableSize cfg)%nat) →
  WF cfg st own → (∀ sz, (length (own (Global sz)) < fuel)%nat) →
  (∀ sz, sz ∈ l → Z.of_nat (length (own (Global sz))) ≤ maxSize) →
  ∃ st', for_each (defrag_class cfg fuel maxSize) l st = Ok st'
     ∧ WF cfg st' (defrag_on l own)
     ∧ s_tp st' = s_tp st ∧ s_blocks st' = s_blocks st
     ∧ s_nettoAlloc st' = s_nettoAlloc st
     ∧ (∀ sz pe, (sz ∉ l ∨ (length (own (Global sz)) ≤ 1)%nat) →
                 s_pool st !! sz = Some pe → s_pool st' !! sz = Some pe)
     ∧ (∀ x, (∀ sz, sz ∈ l → (1 < length (own (Global sz)))%nat → x ∉ own (Global sz)) →
             heap st' !! x = heap st !! x).
Proof.
  induction l as [|sz l IH]; intros st own Hnd Hrange Hwf Hfuel Hroom.
  - exists st. split; [done|]. split; [|done].
    eapply WF_ext; [|done]. apply defrag_on_nil.
  - apply NoDup_cons in Hnd as [Hni Hnd].
    destruct (defrag_class_spec fuel maxSize st own sz)
      as (st1 & Hrun1 & Hwf1 & Htp1 & Hbl1 & Hnet1 & Hpool1 & Hheap1 & Hsmall1);
      [done | apply Hrange; left | apply Hfuel | apply Hroom; left |].
    destruct (IH st1 (defrag_on [sz] own))
      as (st' & Hrun & Hwf' & Htp' & Hbl' & Hnet' & Hpool' & Hheap');
      [done | intros; apply Hrange; by right | done | | |].
    { intros sz'. rewrite defrag_on_length. apply Hfuel. }
    { intros sz' Hin. rewrite defrag_on_length. apply Hroom. by right. }
    assert (Hother : ∀ sz', sz' ≠ sz → defrag_on [sz] own (Global sz') = own (Global sz')).
    { intros sz' Hne. unfold defrag_on. rewrite decide_False; [done|].
      rewrite list_elem_of_singleton. intros [? _]. done. }
    exists st'. split.
    { simpl. by rewrite Hrun1, bind_Ok_l. }
    split.
    { eapply WF_ext; [|done]. intros pl. symmetry. by apply defrag_on_cons. }
    rewrite Htp', Htp1, Hbl', Hbl1, Hnet', Hnet1. repeat (split; [done|]). split.
    + intros sz' pe Hcase Hpe. apply Hpool'.
      * destruct (decide (sz' = sz)) as [->|Hne]; [by left|].
        destruct Hcase as [Hcase|Hcase].
        -- left. intros ?. apply Hcase. by right.
        -- right. by rewrite defrag_on_length.
      * destruct (decide (sz' = sz)) as [->|Hne].
        -- destruct Hcase as [Hcase|Hcase]; [exfalso; apply Hcase; left|].
           by rewrite (Hsmall1 Hcase).
        -- by eapply Hpool1.
    + intros x Hx. rewrite Hheap'.
      * destruct (decide (1 < length (own (Global sz)))%nat) as [Hbig|Hsm].
        -- apply Hheap1. apply Hx; [left | done].
        -- rewrite Hsmall1; [done | lia].
      * intros sz' Hin Hbig.
        assert (sz' ≠ sz) by (intros ->; done).
        rewrite defrag_on_length in Hbig. rewrite Hother by done.
        apply Hx; [by right | done].
Qed.

Lemma max_size_spec st own l : ∀ m0,
  WF cfg st own → (∀ sz, sz ∈ l → (sz < eTableSize cfg)%nat) →
  ∃ M, for_each (fun sz maxSize => pe ← pool_get st sz; Ok (Z.max maxSize (m_size pe))) l m0
       = Ok M
     ∧ m0 ≤ M ∧ ∀ sz, sz ∈ l → Z.of_nat (length (own (Global sz))) ≤ M.
Proof.
  induction l as [|sz l IH]; intros m0 Hwf Hrange.
  - exists m0. split; [done|]. split; [lia|]. intros sz []%elem_of_nil.
  - destruct (WF_pool_lookup _ _ _ Hwf (Hrange sz ltac:(left))) as [pe Hpe].
    destruct (wf_global _ _ _ Hwf _ _ Hpe) as [_ Hcount].
    destruct (IH (Z.max m0 (m_size pe))) as (M & Hrun & Hle & Hall);
      [done | intros; apply Hrange; by right |].
    exists M. split.
    { simpl. by rewrite (pool_get_Ok _ _ _ Hpe), !bind_Ok_l. }
    split; [lia|]. intros sz' [->|Hin]%elem_of_cons; [lia | by apply Hall].
Qed.

Lemma defrag_spec fuel st own :
  WF cfg st own → fuel_enough fuel own →
  ∃ st', defrag cfg fuel st = Ok st'
     ∧ WF cfg st' (defrag_on (sizes cfg) own)
     ∧ s_tp st' = s_tp st ∧ s_blocks st' = s_blocks st
     ∧ s_nettoAlloc st' = s_nettoAlloc st
     ∧ (∀ sz pe, (length (own (Global sz)) ≤ 1)%nat →
                 s_pool st !! sz = Some pe → s_pool st' !! sz = Some pe)
     ∧ (∀ x, (∀ sz, sz ∈ sizes cfg → (1 < length (own (Global sz)))%nat →
                    x ∉ own (Global sz)) →
             heap st' !! x = heap st !! x).
Proof.
  intros Hwf Hfuel.
  destruct (max_size_spec st own (sizes cfg) 0) as (M & Hmax & _ & Hall);
    [done | by intros sz [_ ?]%elem_of_sizes |].
  unfold defrag. rewrite Hmax, bind_Ok_l.
  destruct (decide (M > 1)) as [Hbig|Hsmall].
  - destruct (defrag_loop fuel M (sizes cfg) st own)
      as (st' & Hrun & Hwf' & Htp & Hbl & Hnet & Hpool & Hheap);
      [apply NoDup_sizes | by intros sz [_ ?]%elem_of_sizes | done
      | intros sz; apply (Hfuel sz) | done |].
    exists st'. repeat (split; [done|]). split; [|done].
    intros sz pe Hsm. apply Hpool. by right.
  - exists st. split; [done|]. split; [|done].
    eapply WF_ext; [|done]. intros pl. unfold defrag_on.
    destruct pl as [sz|sz|]; [|done|done].
    destruct (decide _) as [[Hin Hlen]|]; [|done].
    specialize (Hall sz Hin). lia.
Qed.

(** *** allocate, slow path, and what a successful call tells *)

Lemma load_Ok_inv h p v : load h p = Ok v → p ≠ nullptr ∧ h !! p = Some v.
Proof.
  unfold load. destruct (decide (p = nullptr)); [done|].
  destruct (h !! p); [|done]. by intros [= ->].
Qed.

Lemma tp_get_Ok_inv st i p : tp_get st i = Ok p → s_tp st !! i = Some p.
Proof. unfold tp_get. destruct (s_tp st !! i); [|done]. by intros [= ->]. Qed.

Lemma allocate_empty st own blk sz :
  WF cfg st own → (sz < eTableSize cfg)%nat → Z.of_nat (eTableSize cfg) ≤ 65536 →
  own (Local sz) = [] →
  allocate cfg blk sz st = fillPool cfg blk sz sz st.
Proof.
  intros Hwf Hsz Htab Hown.
  destruct (WF_tp_lookup _ _ _ Hwf Hsz) as [p Hp].
  pose proof (wf_local _ _ _ Hwf _ _ Hp) as Hl. rewrite Hown in Hl.
  unfold is_list in Hl. simpl in Hl. subst p.
  unfold allocate. rewrite (tp_get_Ok _ _ _ Hp), bind_Ok_l.
  rewrite decide_False by (intros H; by apply H).
  by rewrite uint16_small by lia.
Qed.

Lemma fillPool_Ok_inv blk ref n st p st1 :
  fillPool cfg blk ref n st = Ok (p, st1) →
  p ≠ nullptr ∧ (ref < length (s_tp st1))%nat.
Proof.
  unfold fillPool. destruct (slicesPerBlock cfg _) as [W N].
  intros (pe & _ & H)%bind_Ok. apply bind_Ok in H as (st' & _ & H).
  apply bind_Ok in H as (q & Hq%tp_get_Ok_inv & H).
  apply bind_Ok in H as (next & [Hnz _]%load_Ok_inv & [= <- <-]).
  split; [done|]. simpl. rewrite length_insert. by eapply lookup_lt_Some.
Qed.

Lemma allocate_Ok_inv blk sz st p st1 :
  allocate cfg blk sz st = Ok (p, st1) →
  p ≠ nullptr ∧ (sz < length (s_tp st1))%nat.
Proof.
  unfold allocate. intros (h & Hh%tp_get_Ok_inv & H)%bind_Ok.
  destruct (decide (h ≠ nullptr)) as [Hnz|_].
  - apply bind_Ok in H as (next & _ & H).
    apply bind_Ok in H as (h' & _ & [= <- <-]).
    split; [done|]. simpl. rewrite length_insert. by eapply lookup_lt_Some.
  - apply fillPool_Ok_inv in H as [? Hlen]. done.
Qed.

(** After [deallocate(sz, p)] the next [allocate(sz)] hands [p] out again. *)
Lemma deallocate_allocate blk sz p st1 :
  p ≠ nullptr → (sz < length (s_tp st1))%nat →
  ∃ st2 st3, deallocate sz p st1 = Ok st2 ∧ allocate cfg blk sz st2 = Ok (p, st3).
Proof.
  intros Hp Hsz. destruct (lookup_lt_is_Some_2 _ _ Hsz) as [old Hold].
  eexists _, _. split.
  - unfold deallocate. rewrite (tp_get_Ok _ _ _ Hold), bind_Ok_l.
    by rewrite store_Ok by done.
  - unfold allocate, tp_get. st_simpl.
    rewrite list_lookup_insert_eq by done. simpl defined. rewrite bind_Ok_l.
    rewrite decide_True by done.
    rewrite (load_Ok _ _ old) by (done || apply lookup_insert_eq).
    rewrite bind_Ok_l. st_simpl. by rewrite store_Ok by done.
Qed.

(** A fast-path [allocate] is undone by the matching [deallocate]. *)
Lemma allocate_fast_undone blk sz st h p st1 :
  s_tp st !! sz = Some h → h ≠ nullptr →
  allocate cfg blk sz st = Ok (p, st1) → deallocate sz p st1 = Ok st.
Proof.
  intros Hh Hnz. unfold allocate. rewrite (tp_get_Ok _ _ _ Hh), bind_Ok_l.
  rewrite decide_True by done.
  intros (next & [_ Hnext]%load_Ok_inv & H)%bind_Ok.
  rewrite store_Ok in H by done. injection H as <- <-.
  unfold deallocate, tp_get. st_simpl.
  rewrite list_lookup_insert_eq by (by eapply lookup_lt_Some).
  simpl defined. rewrite bind_Ok_l. rewrite store_Ok by done. rewrite bind_Ok_l.
  f_equal. unfold set_tp, set_heap. st_simpl.
  rewrite list_insert_insert_eq, list_insert_id by done.
  rewrite insert_insert_eq, insert_id by done. by destruct st.
Qed.

(** Popping a chain off the local list, call by call. *)
Lemma allocate_n_chain c : ∀ blks sz st p q,
  length blks = length c → s_tp st !! sz = Some p →
  lseg (heap st) p q c → NoDup c →
  ∃ st', allocate_n cfg blks sz st = Ok (c, st') ∧ s_tp st' !! sz = Some q.
Proof.
  induction c as [|a c IH]; intros blks sz st p q Hlen Hp Hc Hnd.
  - destruct blks; [|done]. simpl in Hc. subst q. by exists st.
  - destruct blks as [|blk blks]; [done|].
    destruct Hc as (-> & Ha & r & Hr & Hc).
    apply NoDup_cons in Hnd as [Hac Hnd].
    set (st1 := set_heap (<[a:=nullptr]> (heap st)) (set_tp sz r st)).
    assert (Hrun : allocate cfg blk sz st = Ok (a, st1)).
    { unfold allocate. rewrite (tp_get_Ok _ _ _ Hp), bind_Ok_l.
      rewrite decide_True by done. rewrite (load_Ok _ _ r) by done.
      rewrite bind_Ok_l. st_simpl. by rewrite store_Ok by done. }
    destruct (IH blks sz st1 r q) as (st' & Hrest & Hq).
    + simpl in Hlen. lia.
    + simpl. apply list_lookup_insert_eq. by eapply lookup_lt_Some.
    + simpl. by apply lseg_frame.
    + done.
    + exists st'. split; [|done].
      simpl. rewrite Hrun, bind_Ok_l. cbv beta iota. by rewrite Hrest.
Qed.

(** *** Every call keeps the invariant *)

Lemma allocate_step st own blk sz :
  constants_ok cfg → WF cfg st own → (0 < sz < eTableSize cfg)%nat →
  fresh_block cfg own blk →
  ∃ p st' own', allocate cfg blk sz st = Ok (p, st') ∧ WF cfg st' own'
     ∧ p ≠ nullptr ∧ own' Outstanding = p :: own Outstanding
     ∧ (s_tp st !! sz ≠ Some nullptr → s_pool st' = s_pool st)
     ∧ step_effect cfg (Allocate blk sz) st own st' own'.
Proof.
  intros ([Hptr Hblock] & Htab & Hslices) Hwf Hsz Hfresh.
  destruct (own (Local sz)) as [|a l] eqn:HL.
  - assert (Hnull : s_tp st !! sz = Some nullptr).
    { destruct (WF_tp_lookup _ _ _ Hwf (proj2 Hsz)) as [p Hp].
      pose proof (wf_local _ _ _ Hwf _ _ Hp) as Hl. rewrite HL in Hl.
      unfold is_list in Hl. simpl in Hl. by subst p. }
    rewrite (allocate_empty st own) by (done || lia).
    destruct (slicesPerBlock cfg (Nat.max sz (uint16 (eMinBytes cfg)))) as [W N] eqn:HWN.
    pose proof (Hslices sz Hsz) as HN. rewrite HWN in HN. simpl in HN.
    destruct (decide (N ≤ Z.of_nat (length (own (Global sz))))) as [Hge|Hlt].
    + pose proof (take_drop (Z.to_nat N) (own (Global sz))) as Hsplit.
      destruct (take (Z.to_nat N) (own (Global sz))) as [|a g1] eqn:Htake.
      { apply (f_equal length) in Htake. rewrite length_take_le in Htake by lia.
        simpl in Htake. lia. }
      destruct (fillPool_global st own blk sz W N a g1 (drop (Z.to_nat N) (own (Global sz))))
        as (st' & Hrun & Hwf' & Hbl & _ & Hframe & _); [done | lia | done | done | done | |].
      { rewrite <- Htake, length_take_le by lia. lia. }
      apply fillPool_Ok_inv in Hrun as Hnz.
      eexists _, _, _. split; [done|]. split; [done|]. split; [apply Hnz|].
      split; [by fn_simpl|]. split; [done|]. split; [|left; split; [done|]].
      * intros x Hx _. apply Hframe. intros Hin. apply (Hx (Global sz)).
        rewrite <- Hsplit. apply elem_of_app. by left.
      * intros pl x Hin.
        apply elem_of_fn_insert in Hin as [Hin|Hin].
        { exists (Global sz). rewrite <- Hsplit. apply elem_of_app. left. by right. }
        apply elem_of_fn_insert in Hin as [Hin|Hin].
        { exists (Global sz). rewrite <- Hsplit. apply elem_of_app. by right. }
        apply elem_of_fn_insert in Hin as [[->|Hin]%elem_of_cons|Hin]; [| by eauto..].
        exists (Global sz). rewrite <- Hsplit. apply elem_of_app. left. left.
    + destruct (fillPool_block st own blk sz W N)
        as (st' & Hrun & Hwf' & Hbl & Hlink & _ & _ & Hframe & _);
        [done | done | done | done | done | done | lia | done |].
      apply fillPool_Ok_inv in Hrun as Hnz.
      assert (Hslice : ∀ x, x ∈ slice_addrs cfg blk W (Z.to_nat N) →
                            blk ≤ x < blk + blockCapacity cfg).
      { intros x. apply (slice_addrs_in_block (Nat.max sz (uint16 (eMinBytes cfg))));
          [done | lia | done]. }
      assert (Hhd : blk ∈ slice_addrs cfg blk W (Z.to_nat N)).
      { destruct (Z.to_nat N) as [|n] eqn:E; [lia|]. rewrite slice_addrs_S. left. }
      eexists _, _, _. split; [done|]. split; [done|]. split; [apply Hnz|].
      split; [by fn_simpl|]. split; [done|]. split.
      * intros x _ Hx. apply Hframe. by eapply Hx.
      * right. exists blk, sz. repeat (split; [done|]). intros pl x Hin.
        apply elem_of_fn_insert in Hin as [Hin|Hin].
        { right. apply Hslice.
          destruct (slice_addrs cfg blk W (Z.to_nat N)); [done | by right]. }
        apply elem_of_fn_insert in Hin as [[->|Hin]%elem_of_cons|Hin]; [| by eauto..].
        right. by apply Hslice.
  - destruct (allocate_fast st own blk sz a l) as (r & _ & Hrun & Hwf'); [done | lia | done |].
    apply allocate_Ok_inv in Hrun as Hnz.
    eexists _, _, _. split; [done|]. split; [done|]. split; [apply Hnz|].
    split; [by fn_simpl|]. split; [done|]. split; [|left; split; [done|]].
    + intros x Hx _. st_simpl. apply lookup_insert_ne. intros <-.
      apply (Hx (Local sz)). rewrite HL. left.
    + intros pl x Hin.
      apply elem_of_fn_insert in Hin as [Hin|Hin].
      { exists (Local sz). rewrite HL. by right. }
      apply elem_of_fn_insert in Hin as [[->|Hin]%elem_of_cons|Hin]; [| by eauto..].
      exists (Local sz). rewrite HL. left.
Qed.

(** The application writing into a cell it holds disturbs no free list. *)
Lemma WF_store_held st own p v :
  WF cfg st own → p ∈ own Outstanding →
  WF cfg (set_heap (<[p:=v]> (heap st)) st) own.
Proof.
  intros Hwf Hin. pose proof (wf_separate _ _ _ Hwf) as [_ Hsep].
  split; try apply Hwf.
  - intros sz q Hq. st_simpl. apply (local_frame st own); [done | done |].
    intros x Hx. apply lookup_insert_ne. intros <-.
    by pose proof (Hsep _ _ _ Hin Hx).
  - intros sz pe Hpe. st_simpl. apply (global_frame st own); [done | done |].
    intros x Hx. apply lookup_insert_ne. intros <-.
    by pose proof (Hsep _ _ _ Hin Hx).
Qed.

Lemma step_WF fuel st own c :
  constants_ok cfg → WF cfg st own → call_ok cfg st own c → fuel_enough fuel own →
  ∃ r st' own', run_call cfg fuel c st = Ok (r, st') ∧ WF cfg st' own'
     ∧ outstanding_step c r st (own Outstanding) (own' Outstanding)
     ∧ pool_untouched c st st'
     ∧ step_effect cfg c st own st' own'.
Proof.
  intros Hconst Hwf Hok Hfuel.
  destruct c as [blk sz|sz p|sz h t| | |p v]; simpl in Hok |- *.
  - destruct Hok as [Hsz Hfresh].
    destruct (allocate_step st own blk sz)
      as (p & st' & own' & Hrun & Hwf' & Hnz & Hout & Hpool & Heff); [done..|].
    exists (Some p), st', own'. rewrite Hrun. split; [done|]. split; [done|].
    split; [by exists p|]. done.
  - destruct Hok as (Hsz & Hnz & Hin).
    apply elem_of_Permutation in Hin as [rest Hperm].
    destruct (deallocate_spec st own sz p rest) as (old & _ & Hrun & Hwf');
      [done | lia | done | done |].
    eexists None, _, _. rewrite Hrun. split; [done|]. split; [done|].
    split; [by fn_simpl|]. split; [done|]. split; [|left; split; [done|]].
    + intros x Hx _. st_simpl. apply lookup_insert_ne. intros <-.
      apply (Hx Outstanding). rewrite Hperm. left.
    + intros pl x Hin.
      apply elem_of_fn_insert in Hin as [[->|Hin]%elem_of_cons|Hin]; [| by eauto |].
      { exists Outstanding. rewrite Hperm. left. }
      apply elem_of_fn_insert in Hin as [Hin|Hin]; [|by eauto].
      exists Outstanding. rewrite Hperm. by right.
  - destruct Hok as (Hsz & Hnz & l & Hchain & Hnd & Hsub).
    destruct (submseteq_Permutation (l ++ [t]) (own Outstanding)) as [rest Hperm].
    { by apply NoDup_submseteq. }
    destruct (deallocateList_spec st own sz h l t rest) as (old & _ & Hrun & Hwf');
      [done | lia | done | done | done |].
    eexists None, _, _. rewrite Hrun. split; [done|]. split; [done|].
    split; [exists l; by fn_simpl|]. split; [done|]. split; [|left; split; [done|]].
    + intros x Hx _. st_simpl. apply lookup_insert_ne. intros <-.
      apply (Hx Outstanding). apply Hsub. apply elem_of_app. right. left.
    + intros pl x Hin.
      apply elem_of_fn_insert in Hin as [[Hin|Hin]%elem_of_app|Hin]; [| by eauto |].
      { exists Outstanding. by apply Hsub. }
      apply elem_of_fn_insert in Hin as [Hin|Hin]; [|by eauto].
      exists Outstanding. rewrite Hperm. apply elem_of_app. by right.
  - destruct (flush_loop fuel (sizes cfg) st own) as (st' & Hrun & Hwf' & _ & Hbl & _ & Hheap);
      [apply NoDup_sizes | by intros sz [_ ?]%elem_of_sizes | done | |].
    { intros sz. destruct (Hfuel sz). lia. }
    eexists None, _, _. unfold flushPool.
    rewrite decide_True by apply Hconst. rewrite Hrun.
    split; [done|]. split; [done|]. split; [done|]. split; [done|].
    split; [|left; split; [done|]].
    + intros x Hx _. apply Hheap. intros sz _. apply Hx.
    + intros pl x Hin. unfold flush_on in Hin. destruct pl as [sz|sz|]; [| |by eauto].
      * destruct (decide _); [|by eauto].
        apply elem_of_app in Hin as [?|?]; eauto.
      * destruct (decide _); [by apply elem_of_nil in Hin | by eauto].
  - destruct (defrag_spec fuel st own) as (st' & Hrun & Hwf' & _ & Hbl & _ & _ & Hheap);
      [done | done |].
    eexists None, _, _. rewrite Hrun.
    split; [done|]. split; [done|]. split; [done|]. split; [done|].
    split; [|left; split; [done|]].
    + intros x Hx _. apply Hheap. intros sz _ _. apply Hx.
    + intros pl x Hin. exists pl. unfold defrag_on in Hin.
      destruct pl as [sz|sz|]; [|done|done].
      destruct (decide _); [|done]. by rewrite std_sort_Permutation in Hin.
  - destruct Hok as [Hnz Hin]. rewrite store_Ok by done. rewrite bind_Ok_l.
    exists None, (set_heap (<[p:=v]> (heap st)) st), own.
    split; [done|]. split; [by apply WF_store_held|].
    split; [done|]. split; [done|]. split; [|left; split; [done | by eauto]].
    intros x Hx _. st_simpl. apply lookup_insert_ne. intros <-.
    by apply (Hx Outstanding).
Qed.

(** *** The block chain *)

Lemma blist_agree h h' p bl :
  (∀ b, b ∈ bl → h' !! block_link cfg b = h !! block_link cfg b) →
  blist cfg h p bl → blist cfg h' p bl.
Proof.
  revert p. induction bl as [|b bl IH]; intros p Hag; simpl; [done|].
  intros (-> & Hb & q & Hq & Hl). repeat split; [done|].
  exists q. split.
  - rewrite Hag; [done | left].
  - apply IH; [|done]. intros b' Hb'. apply Hag. by right.
Qed.

(** A block put in front of the chain by [allocateBlock], the memory outside
    it being left alone, extends the chain by exactly that block. *)
Lemma blist_grows h h' anchor blk bl :
  blist cfg h anchor bl → blk ≠ nullptr →
  h' !! block_link cfg blk = Some anchor →
  (∀ x, ¬ in_block cfg blk x → h' !! x = h !! x) →
  (∀ b, b ∈ bl → ¬ in_block cfg blk (block_link cfg b)) →
  blist cfg h' blk (blk :: bl).
Proof.
  intros Hl Hnz Hlink Hframe Hapart. simpl. repeat split; [done|].
  exists anchor. split; [done|]. eapply blist_agree; [|done].
  intros b Hb. apply Hframe. by apply Hapart.
Qed.

Lemma release_lookup_outside h p x :
  ¬ in_block cfg p x → release cfg h p !! x = h !! x.
Proof.
  intros Hout. unfold release. destruct (h !! x) as [v|] eqn:Hx.
  - by apply map_lookup_filter_Some_2.
  - apply map_lookup_filter_None. left. done.
Qed.

Lemma release_lookup_inside h p x :
  in_block cfg p x → release cfg h p !! x = None.
Proof.
  intros Hin. unfold release. apply map_lookup_filter_None. right.
  intros v _ Hout. apply Hout. exact Hin.
Qed.

(** The walk of [cleanup] hands every block of the chain to [free], in chain
    order; the memory outside the blocks stays, the blocks are gone. *)
Lemma free_chain_spec bl : ∀ fuel h p,
  blist cfg h p bl → blocks_apart cfg bl → (length bl < fuel)%nat →
  ∃ h', free_chain cfg fuel h p = Ok (h', bl)
      ∧ (∀ x, (∀ b, b ∈ bl → ¬ in_block cfg b x) → h' !! x = h !! x)
      ∧ (∀ b x, b ∈ bl → in_block cfg b x → h' !! x = None)
      ∧ (∀ x, h !! x = None → h' !! x = None).
Proof.
  induction bl as [|b bl IH]; intros fuel h p Hl Hapart Hfuel;
    (destruct fuel as [|fuel]; [simpl in Hfuel; lia|]); simpl in Hl |- *.
  - subst p. rewrite decide_False by (intros H; by apply H).
    exists h. split; [done|]. split; [done|]. split; [|done]. intros b x []%elem_of_nil.
  - destruct Hl as (-> & Hb & q & Hq & Hl). destruct Hapart as [Hhere Hapart].
    rewrite decide_True by done.
    unfold load_link. rewrite decide_False by done. rewrite Hq. simpl defined.
    rewrite bind_Ok_l.
    destruct (IH fuel (release cfg h b) q) as (h' & Hrun & Hout & Hin & Hmono);
      [| done | simpl in Hfuel; lia |].
    { eapply blist_agree; [|done]. intros b' Hb'.
      apply release_lookup_outside. by apply Hhere. }
    exists h'. rewrite Hrun. split; [done|]. split; [|split].
    + intros x Hx. rewrite Hout by (intros b' Hb'; apply Hx; by right).
      apply release_lookup_outside. apply Hx. left.
    + intros b' x [->|Hb']%elem_of_cons Hx.
      * apply Hmono. by apply release_lookup_inside.
      * by eapply Hin.
    + intros x Hx. apply Hmono. unfold release.
      apply map_lookup_filter_None. by left.
Qed.

(** In a release build [cleanup] hands exactly the blocks of the chain to
    [free] and leaves the statics as they are: the anchor still names the
    first block, whose memory is gone. *)
Lemma cleanup_release_spec fuel st bl :
  OGDF_DEBUG cfg = false →
  blist cfg (heap st) (s_blocks st) bl → blocks_apart cfg bl → (length bl < fuel)%nat →
  ∃ h', cleanup cfg fuel st = Ok (set_heap h' st, bl)
      ∧ (∀ b x, b ∈ bl → in_block cfg b x → h' !! x = None).
Proof.
  intros Hrel Hl Hapart Hfuel.
  destruct (free_chain_spec bl fuel (heap st) (s_blocks st)) as (h' & Hrun & _ & Hin & _);
    [done..|].
  exists h'. split; [|done]. unfold cleanup. rewrite Hrel, bind_Ok_l. by rewrite Hrun.
Qed.


(** *** Runs within the contract *)

Lemma is_list_dom h p l x : is_list h p l → x ∈ l → is_Some (h !! x).
Proof.
  unfold is_list. revert p. induction l as [|a l IH]; intros p; simpl.
  - intros _ Hx. by apply elem_of_nil in Hx.
  - intros (-> & Ha & r & Hr & Hl) [->|Hx]%elem_of_cons; [by eexists | eauto].
Qed.

Lemma length_le_size (h : gmap Z Z) (l : list Z) :
  NoDup l → (∀ x, x ∈ l → is_Some (h !! x)) → (length l ≤ size h)%nat.
Proof.
  intros Hnd Hdom.
  rewrite <- (size_list_to_set (C := gset Z) l Hnd), <- (size_dom (D := gset Z) h).
  apply subseteq_size. intros x Hx. apply elem_of_list_to_set in Hx.
  apply elem_of_dom. by apply Hdom.
Qed.

(** More steps than cells in memory are enough for every walk. *)
Lemma fuel_enough_heap st own fuel :
  WF cfg st own → (size (heap st) < fuel)%nat → fuel_enough fuel own.
Proof.
  intros Hwf Hfuel sz. destruct (decide (sz < eTableSize cfg)%nat) as [Hsz|Hge].
  - destruct (WF_tp_lookup _ _ _ Hwf Hsz) as [p Hp].
    destruct (WF_pool_lookup _ _ _ Hwf Hsz) as [pe Hpe].
    pose proof (wf_local _ _ _ Hwf _ _ Hp) as HL.
    destruct (wf_global _ _ _ Hwf _ _ Hpe) as [HG _].
    pose proof (length_le_size (heap st) _ (is_list_NoDup _ _ _ HL)
                  (fun x => is_list_dom _ _ _ x HL)).
    pose proof (length_le_size (heap st) _ (is_list_NoDup _ _ _ HG)
                  (fun x => is_list_dom _ _ _ x HG)).
    lia.
  - destruct (wf_range _ _ _ Hwf sz) as [-> ->]; [lia|]. simpl. lia.
Qed.

(** A chain without repetitions from [p] to its tail [t] is determined. *)
Lemma lseg_NoDup_unique h t l1 : ∀ p l2,
  lseg h p t l1 → lseg h p t l2 → NoDup (l1 ++ [t]) → NoDup (l2 ++ [t]) → l1 = l2.
Proof.
  induction l1 as [|a l1 IH]; intros p l2 H1 H2 Hnd1 Hnd2.
  - simpl in H1. subst p. destruct l2 as [|b l2]; [done|].
    destruct H2 as (<- & _). simpl in Hnd2. apply NoDup_cons in Hnd2 as [Hin _].
    exfalso. apply Hin. apply elem_of_app. right. left.
  - destruct H1 as (-> & Ha & r & Hr & H1). destruct l2 as [|b l2].
    + simpl in H2. subst t. simpl in Hnd1. apply NoDup_cons in Hnd1 as [Hin _].
      exfalso. apply Hin. apply elem_of_app. right. left.
    + destruct H2 as (<- & _ & r' & Hr' & H2). rewrite Hr in Hr'. injection Hr' as <-.
      simpl in Hnd1, Hnd2. apply NoDup_cons in Hnd1 as [_ Hnd1].
      apply NoDup_cons in Hnd2 as [_ Hnd2]. f_equal. by eapply IH.
Qed.

Lemma blist_func h p bl1 : ∀ bl2, blist cfg h p bl1 → blist cfg h p bl2 → bl1 = bl2.
Proof.
  revert p. induction bl1 as [|b bl1 IH]; intros p bl2.
  - simpl. intros -> H2. destruct bl2 as [|b bl2]; [done|].
    by destruct H2 as (<- & Hb & _).
  - intros (-> & Hb & q & Hq & H1). destruct bl2 as [|b' bl2].
    + simpl. intros ->. done.
    + intros (<- & _ & q' & Hq' & H2). rewrite Hq in Hq'. injection Hq' as <-.
      f_equal. by eapply IH.
Qed.

Lemma Inv_initial : Inv cfg (initial_state cfg) [] nothing_held [].
Proof.
  split.
  - apply WF_initial.
  - done.
  - done.
  - intros b Hb. by apply elem_of_nil in Hb.
  - intros b b' Hb. by apply elem_of_nil in Hb.
  - intros pl x Hx. by apply elem_of_nil in Hx.
Qed.

(** A cell in the fill area of a block of the chain is no block link. *)
Lemma Inv_cell_not_link st held own bl pl x b :
  0 < OGDF_SIZEOF_POINTER cfg < eBlockSize cfg →
  Inv cfg st held own bl → x ∈ own pl → b ∈ bl → x ≠ block_link cfg b.
Proof.
  intros Hptr Hinv Hx Hb ->.
  destruct (inv_cells _ _ _ _ _ Hinv _ _ Hx) as (b' & Hb' & Hrange).
  unfold block_link, blockCapacity in *.
  destruct (inv_apart _ _ _ _ _ Hinv b b' Hb Hb') as [->|[?|?]]; lia.
Qed.

Lemma Inv_fresh st held own bl blk :
  0 < OGDF_SIZEOF_POINTER cfg < eBlockSize cfg →
  Inv cfg st held own bl → provider_fresh cfg st blk → fresh_block cfg own blk.
Proof.
  intros Hptr Hinv [Hpos Hfresh]. split; [done|]. intros pl x Hx Hin.
  destruct (inv_cells _ _ _ _ _ Hinv _ _ Hx) as (b & Hb & Hrange).
  specialize (Hfresh bl (inv_chain _ _ _ _ _ Hinv) b Hb).
  unfold blockCapacity, blocks_disjoint in *. lia.
Qed.

Lemma Inv_nonnull st held own bl pl x :
  Inv cfg st held own bl → x ∈ own pl → x ≠ nullptr.
Proof.
  intros Hinv Hx. destruct (inv_cells _ _ _ _ _ Hinv _ _ Hx) as (b & Hb & Hrange).
  pose proof (inv_pos _ _ _ _ _ Hinv b Hb). unfold nullptr. lia.
Qed.

(** The application's contract implies the one stated on the record. *)
Lemma Inv_call_ok st held own bl c :
  0 < OGDF_SIZEOF_POINTER cfg < eBlockSize cfg →
  Inv cfg st held own bl → client_ok cfg st held c → call_ok cfg st own c.
Proof.
  intros Hptr Hinv Hok. pose proof (inv_held _ _ _ _ _ Hinv) as Hheld.
  destruct c as [blk sz|sz p|sz h t| | |p v]; simpl in *; [| | |done|done|].
  - destruct Hok as [Hsz Hfresh]. split; [done|]. by eapply Inv_fresh.
  - destruct Hok as [Hsz Hin]. rewrite <- Hheld in Hin.
    split; [done|]. split; [by eapply Inv_nonnull | done].
  - destruct Hok as (Hsz & l & Hchain & Hnd & Hsub).
    assert (Ht : t ∈ own Outstanding).
    { rewrite Hheld. apply Hsub. apply elem_of_app. right. left. }
    split; [done|]. split; [by eapply Inv_nonnull|].
    exists l. repeat (split; [done|]). intros x Hx. rewrite Hheld. by apply Hsub.
  - rewrite <- Hheld in Hok. split; [by eapply Inv_nonnull | done].
Qed.

(** Every call within the contract keeps the invariant of runs; the block
    chain stays as it is, or grows by the block handed to [allocate]. *)
Lemma Inv_step_chain fuel st held own bl c r st' held' :
  constants_ok cfg → Inv cfg st held own bl → client_ok cfg st held c →
  (size (heap st) < fuel)%nat →
  run_call cfg fuel c st = Ok (r, st') → outstanding_step c r st held held' →
  ∃ own' bl', Inv cfg st' held' own' bl' ∧ pool_untouched c st st'
    ∧ (bl' = bl ∨ ∃ blk sz, c = Allocate blk sz ∧ bl' = blk :: bl).
Proof.
  intros Hconst Hinv Hok Hfuel Hrun Hstep.
  pose proof Hconst as (Hptr & _).
  pose proof (inv_wf _ _ _ _ _ Hinv) as Hwf.
  pose proof (inv_held _ _ _ _ _ Hinv) as Hheld.
  destruct (step_WF fuel st own c)
    as (r0 & st0 & own' & Hrun0 & Hwf' & Hout & Hpool & Hframe & Heff);
    [done | done | by eapply Inv_call_ok | by eapply fuel_enough_heap |].
  rewrite Hrun in Hrun0. injection Hrun0 as <- <-.
  assert (Hheld' : own' Outstanding ≡ₚ held').
  { destruct c as [blk sz|sz p|sz h t| | |p v]; simpl in Hout, Hstep.
    - destruct Hout as (p & Hr & _ & ->). destruct Hstep as (p' & Hr' & _ & ->).
      rewrite Hr in Hr'. injection Hr' as <-. by rewrite Hheld.
    - rewrite Hheld, Hstep in Hout. by apply (inj (cons p)) in Hout.
    - destruct Hout as (l & Hl & Hnd & Hout). destruct Hstep as (l' & Hl' & Hnd' & Hstep).
      assert (l = l') as <- by (by eapply lseg_NoDup_unique).
      rewrite Hheld, Hstep in Hout. by apply (inj (app (l ++ [t]))) in Hout.
    - by rewrite Hout, Hstep.
    - by rewrite Hout, Hstep.
    - by rewrite Hout, Hstep. }
  assert (Hlinks : ∀ b, b ∈ bl →
            (∀ blk sz, c = Allocate blk sz → ¬ in_block cfg blk (block_link cfg b)) →
            heap st' !! block_link cfg b = heap st !! block_link cfg b).
  { intros b Hb Hnew. apply Hframe; [|done].
    intros pl Hin. by eapply Inv_cell_not_link. }
  destruct Heff as [[Hanchor Hcells]|(blk & sz & -> & Hanchor & Hlink & Hcells)].
  - exists own', bl. split; [|split; [done | by left]]. split; [done | done | | | |].
    + rewrite Hanchor. eapply blist_agree; [|apply Hinv].
      intros b Hb. apply Hlinks; [done|]. intros blk sz ->. simpl in Hok.
      destruct Hok as [_ [_ Hfresh]].
      specialize (Hfresh bl (inv_chain _ _ _ _ _ Hinv) b Hb).
      unfold in_block, block_link, blockCapacity, blocks_disjoint in *. lia.
    + apply Hinv.
    + apply Hinv.
    + intros pl x Hx. destruct (Hcells pl x Hx) as [pl0 Hx0].
      by eapply (inv_cells _ _ _ _ _ Hinv).
  - simpl in Hok. destruct Hok as [Hsz [Hpos Hfresh]].
    specialize (Hfresh bl (inv_chain _ _ _ _ _ Hinv)).
    exists own', (blk :: bl).
    split; [|split; [done | right; by exists blk, sz]]. split; [done | done | | | |].
    + rewrite Hanchor. simpl. split; [done|]. split; [unfold nullptr; lia|].
      exists (s_blocks st). split; [done|].
      eapply blist_agree; [|apply Hinv].
      intros b Hb. apply Hlinks; [done|]. intros blk' sz' [= <- <-].
      specialize (Hfresh b Hb).
      unfold in_block, block_link, blockCapacity, blocks_disjoint in *. lia.
    + intros b [->|Hb]%elem_of_cons; [done | by apply (inv_pos _ _ _ _ _ Hinv)].
    + intros b b' [->|Hb]%elem_of_cons [->|Hb']%elem_of_cons.
      * by left.
      * right. specialize (Hfresh b' Hb'). unfold blocks_disjoint in *. lia.
      * right. by apply Hfresh.
      * by apply (inv_apart _ _ _ _ _ Hinv).
    + intros pl x Hx. destruct (Hcells pl x Hx) as [[pl0 Hx0]|Hrange].
      * destruct (inv_cells _ _ _ _ _ Hinv _ _ Hx0) as (b & Hb & ?).
        exists b. split; [by right | done].
      * exists blk. split; [left | done].
Qed.

Lemma Inv_step fuel st held own bl c r st' held' :
  constants_ok cfg → Inv cfg st held own bl → client_ok cfg st held c →
  (size (heap st) < fuel)%nat →
  run_call cfg fuel c st = Ok (r, st') → outstanding_step c r st held held' →
  ∃ own' bl', Inv cfg st' held' own' bl' ∧ pool_untouched c st st'.
Proof.
  intros Hconst Hinv Hok Hfuel Hrun Hstep.
  destruct (Inv_step_chain fuel st held own bl c r st' held')
    as (own' & bl' & Hinv' & Hpool & _); [done..|].
  by exists own', bl'.
Qed.

Lemma run_Inv cs : ∀ st held own bl st' held',
  constants_ok cfg → Inv cfg st held own bl → run cfg st held cs st' held' →
  ∃ own' bl', Inv cfg st' held' own' bl'.
Proof.
  induction cs as [|c cs IH]; intros st held own bl st' held' Hconst Hinv Hrun.
  - inversion Hrun; subst. eauto.
  - inversion Hrun as [|? ? ? ? fuel r st1 held1 ? ? Hok Hfuel Hcall Hstep Hrest]; subst.
    destruct (Inv_step fuel st held own bl c r st1 held1) as (own1 & bl1 & Hinv1 & _);
      [done..|].
    by eapply IH.
Qed.

(** From a state reached by a run, every call within the contract returns. *)
Lemma Inv_progress fuel st held own bl c :
  constants_ok cfg → Inv cfg st held own bl → client_ok cfg st held c →
  (size (heap st) < fuel)%nat →
  ∃ r st' held', run_call cfg fuel c st = Ok (r, st')
    ∧ outstanding_step c r st held held'.
Proof.
  intros Hconst Hinv Hok Hfuel. pose proof Hconst as (Hptr & _).
  pose proof (inv_held _ _ _ _ _ Hinv) as Hheld.
  destruct (step_WF fuel st own c)
    as (r & st' & own' & Hrun & _ & Hout & _);
    [done | apply Hinv | by eapply Inv_call_ok
    | eapply fuel_enough_heap; [apply Hinv | done] |].
  exists r, st'. destruct c as [blk sz|sz p|sz h t| | |p v]; simpl in Hout |- *.
  - destruct Hout as (p & -> & Hnz & _). exists (p :: held). eauto.
  - exists (own' Outstanding). split; [done|]. by rewrite <- Hheld.
  - destruct Hout as (l & Hl & Hnd & Hperm). exists (own' Outstanding).
    split; [done|]. exists l. by rewrite <- Hheld.
  - exists held. done.
  - exists held. done.
  - exists held. done.
Qed.

Lemma constants_okb_correct : constants_okb cfg = true → constants_ok cfg.
Proof.
  unfold constants_okb. intros [[H1 H2]%andb_prop H3]%andb_prop.
  apply bool_decide_eq_true in H1, H2. split; [done|]. split; [done|].
  intros sz Hsz. rewrite forallb_forall in H3.
  specialize (H3 sz). rewrite bool_decide_eq_true in H3. apply H3.
  apply list_elem_of_In. by apply elem_of_sizes.
Qed.

(** *** cleanup *)

(** In a release build [cleanup] only walks the block chain: the statics
    keep their values, whatever the state. *)
Lemma cleanup_release_frame fuel st st' freed :
  OGDF_DEBUG cfg = false → cleanup cfg fuel st = Ok (st', freed) →
  s_tp st' = s_tp st ∧ s_pool st' = s_pool st ∧ s_blocks st' = s_blocks st
  ∧ s_nettoAlloc st' = s_nettoAlloc st.
Proof.
  unfold cleanup. intros ->. rewrite bind_Ok_l.
  intros ([h fr] & _ & [= <- <-])%bind_Ok. done.
Qed.

(** The accounting behind the assertion of [cleanup], for one size class
    used on a fresh allocator: a cell is allocated, which carves a block into
    [N] slices of [W] words, and returned.  The free lists then account for
    [N] cells of [sz] bytes, the counter for [N] slices of [W] words: the
    asserted condition holds exactly when the class size is a whole number
    of words. *)
Lemma sum_over_zero l f : (∀ sz, sz ∈ l → f sz = 0) → sum_over l f = 0.
Proof.
  induction l as [|sz l IH]; intros Hz; simpl; [done|].
  rewrite Hz by left. rewrite IH; [done|]. intros; apply Hz; by right.
Qed.

Lemma sum_over_single l f sz0 :
  NoDup l → sz0 ∈ l → (∀ sz, sz ∈ l → sz ≠ sz0 → f sz = 0) → sum_over l f = f sz0.
Proof.
  induction l as [|sz l IH]; intros Hnd Hin Hz; [by apply elem_of_nil in Hin|].
  apply NoDup_cons in Hnd as [Hni Hnd]. simpl.
  apply elem_of_cons in Hin as [->|Hin].
  - rewrite sum_over_zero; [lia|]. intros sz' Hin'. apply Hz; [by right|].
    intros ->. done.
  - rewrite IH; [| done | done | intros; apply Hz; [by right | done]].
    rewrite Hz; [lia | left | intros ->; done].
Qed.

Lemma cleanup_check_one_class fuel blk sz W N p st1 st2 :
  constants_ok cfg → OGDF_DEBUG cfg = true → (0 < sz < eTableSize cfg)%nat → 0 < blk →
  slicesPerBlock cfg (Nat.max sz (uint16 (eMinBytes cfg))) = (W, N) →
  (Z.to_nat N < fuel)%nat →
  allocate cfg blk sz (initial_state cfg) = Ok (p, st1) →
  deallocate sz p st1 = Ok st2 →
  ∃ st', cleanup_check cfg fuel st2
         = Ok (st', bool_decide (Z.of_nat sz = W * OGDF_SIZEOF_POINTER cfg)).
Proof.
  intros Hconst Hdebug Hsz Hblk HWN Hfuel Halloc Hdealloc.
  pose proof Hconst as ([Hptr Hblock] & Htab & Hslices).
  pose proof (Hslices sz Hsz) as HN. rewrite HWN in HN. simpl in HN.
  rewrite (allocate_empty _ nothing_held) in Halloc;
    [| apply WF_initial | lia | lia | done].
  destruct (fillPool_block (initial_state cfg) nothing_held blk sz W N)
    as (st1' & Hrun1 & Hwf1 & _ & _ & _ & Hnet1 & _);
    [apply WF_initial | done | done | done | done | done | simpl; lia
    | split; [done | intros pl x Hx; by apply elem_of_nil in Hx] |].
  rewrite Hrun1 in Halloc. injection Halloc as <- <-.
  rewrite Hdebug in Hnet1. simpl in Hnet1.
  set (slices := slice_addrs cfg blk W (Z.to_nat N)) in *.
  assert (Hsl : slices = blk :: tail slices).
  { unfold slices. destruct (Z.to_nat N) as [|n] eqn:E; [lia|]. by rewrite slice_addrs_S. }
  destruct (deallocate_spec _ _ sz blk [] Hwf1) as (old & _ & Hrun2 & Hwf2);
    [lia | unfold nullptr; lia | by fn_simpl |].
  rewrite Hrun2 in Hdealloc. injection Hdealloc as <-.
  match type of Hwf2 with WF _ ?st ?own => set (st2 := st) in *; set (own2 := own) in * end.
  assert (HL : ∀ sz', own2 (Local sz') = if decide (sz' = sz) then slices else []).
  { intros sz'. unfold own2. destruct (decide (sz' = sz)) as [->|Hne].
    - fn_simpl. by rewrite <- Hsl.
    - by fn_simpl. }
  assert (HG : ∀ sz', own2 (Global sz') = []).
  { intros sz'. unfold own2. by fn_simpl. }
  assert (Hlen : length slices = Z.to_nat N) by apply length_slice_addrs.
  assert (Hfuel2 : fuel_enough fuel own2).
  { intros sz'. rewrite HL, HG. destruct (decide _); simpl; lia. }
  unfold cleanup_check.
  rewrite (unguardedMemGlobalFreelist_counts _ _ Hwf2), bind_Ok_l.
  rewrite (memoryInThreadFreeList_spec _ _ _ Hwf2 Hfuel2), bind_Ok_l. cbv beta iota.
  eexists. f_equal. f_equal.
  destruct (clear_tp_frame (sizes cfg) st2) as (_ & _ & _ & ->).
  rewrite global_bytes_zero by (intros sz' _; by rewrite HG).
  unfold bytes_held.
  rewrite (sum_over_single _ _ sz);
    [| apply NoDup_sizes | by apply elem_of_sizes
     | intros sz' _ Hne; rewrite HL, decide_False by done; simpl; lia].
  rewrite HL, decide_True by done. rewrite Hlen.
  change (s_nettoAlloc st2) with (s_nettoAlloc st1'). rewrite Hnet1.
  apply bool_decide_ext. nia.
Qed.

(** In a debug build the global table and the anchor keep their values too;
    the thread-local heads are what [memoryInThreadFreeList] leaves. *)
Lemma cleanup_debug_frame fuel st own st' freed :
  OGDF_DEBUG cfg = true → WF cfg st own → fuel_enough fuel own →
  cleanup cfg fuel st = Ok (st', freed) →
  s_tp st' = s_tp (clear_tp (sizes cfg) st) ∧ s_pool st' = s_pool st
  ∧ s_blocks st' = s_blocks st ∧ s_nettoAlloc st' = s_nettoAlloc st.
Proof.
  unfold cleanup, cleanup_check. intros -> Hwf Hfuel.
  rewrite (unguardedMemGlobalFreelist_counts _ _ Hwf), bind_Ok_l.
  rewrite (memoryInThreadFreeList_spec _ _ _ Hwf Hfuel), !bind_Ok_l. cbv beta iota.
  destruct (bool_decide _); [|done]. rewrite bind_Ok_l.
  intros ([h fr] & _ & [= <- <-])%bind_Ok. st_simpl.
  destruct (clear_tp_frame (sizes cfg) st) as (_ & -> & -> & ->). done.
Qed.

End Operations.

(** ** The sample states are well-formed *)

Lemma constants_ok_small debug : constants_ok (cfg_small debug).
Proof. apply constants_okb_correct. by destruct debug. Qed.

Lemma constants_ok_64 debug : constants_ok (cfg64 debug).
Proof. apply constants_okb_correct. destruct debug; vm_compute; reflexivity. Qed.

Lemma nothing_held_fresh cfg blk : 0 < blk → fresh_block cfg nothing_held blk.
Proof. intros Hblk. split; [done|]. intros pl x Hx. by apply elem_of_nil in Hx. Qed.

(** A block that overlaps none of the chain is one the provider may hand
    out. *)
Lemma provider_fresh_chain cfg st bl blk :
  0 < blk → blist cfg (heap st) (s_blocks st) bl →
  (∀ b, b ∈ bl → blocks_disjoint cfg b blk) → provider_fresh cfg st blk.
Proof.
  intros Hblk Hbl Hdis. split; [done|]. intros bl' Hbl' b Hb.
  rewrite (blist_func cfg _ _ _ _ Hbl' Hbl) in Hb. by apply Hdis.
Qed.

(** *** A state with a long global list *)









Lemma sample_returned_WF : WF (cfg_small false) sample_returned own_returned.
Proof.
  set (cfg := cfg_small false).
  destruct (fillPool_block cfg (initial_state cfg) nothing_held 1000 8 1 4)
    as (s1 & Hrun1 & Hwf1 & _);
    [apply WF_initial | done | simpl; lia | done | lia | done | simpl; lia
    | by apply nothing_held_fresh |].
  vm_compute in Hrun1. injection Hrun1 as <-.
  destruct (allocate_fast cfg _ _ 2000 8 1008 [1016; 1024] Hwf1)
    as (r & Hr & _ & Hwf2); [simpl; lia | done |].
  vm_compute in Hr. injection Hr as <-.
  destruct (deallocate_spec cfg _ _ 8 1000 [1008] Hwf2)
    as (old1 & Hold1 & _ & Hwf3); [simpl; lia | done | apply perm_swap |].
  vm_compute in Hold1. injection Hold1 as <-.
  destruct (deallocate_spec cfg _ _ 8 1008 [] Hwf3)
    as (old2 & Hold2 & _ & Hwf4); [simpl; lia | done | done |].
  vm_compute in Hold2. injection Hold2 as <-.
  eapply WF_ext; [|exact Hwf4].
  intros pl. unfold own_returned.
  destruct (decide (Local 8%nat = pl)) as [<-|?]; [done|].
  destruct (decide (Outstanding = pl)) as [<-|?]; [done|].
  by fn_simpl.
Qed.

Lemma own_returned_short (fuel : nat) : (4 < fuel)%nat → fuel_enough fuel own_returned.
Proof.
  intros Hfuel sz. unfold own_returned.
  destruct (decide (8%nat = sz)) as [<-|?]; fn_simpl; simpl; lia.
Qed.

Lemma sample_flushed_WF : WF (cfg_small false) sample_flushed own_flushed.
Proof.
  set (cfg := cfg_small false).
  destruct (flush_loop cfg 8 (sizes cfg) sample_returned own_returned)
    as (s5 & Hrun & Hwf5 & _);
    [apply NoDup_sizes | by intros sz [_ ?]%elem_of_sizes | apply sample_returned_WF | |].
  { intros sz. destruct (own_returned_short 8 ltac:(lia) sz). lia. }
  vm_compute in Hrun. injection Hrun as <-.
  eapply WF_ext; [|exact Hwf5].
  intros pl. unfold own_flushed, flush_on, own_returned.
  destruct pl as [sz|sz|]; [| |done].
  - destruct (decide (sz = 8%nat)) as [->|?]; [done|].
    fn_simpl. by destruct (decide _).
  - destruct (decide (sz = 8%nat)) as [->|?].
    + rewrite decide_True by (apply elem_of_sizes; simpl; lia). by fn_simpl.
    + fn_simpl. by destruct (decide _).
Qed.

Lemma own_flushed_short (fuel : nat) : (4 < fuel)%nat → fuel_enough fuel own_flushed.
Proof.
  intros Hfuel sz. unfold own_flushed.
  destruct (decide (8%nat = sz)) as [<-|?]; fn_simpl; simpl; lia.
Qed.

(** * Main results *)

(** ** Refill *)

(** C1. [fillPool] for a size class [sz] whose thread-local list is empty
    computes the slices per block [N] of the rounded-up size.  If the global
    count is at least [N], exactly the first [N] cells [p :: g1] of the
    global list are detached, the global list keeps the rest [g2] and its
    count drops by [N], and the block chain is left alone; otherwise exactly
    one block, the one the provider hands out, is put in front of the block
    chain and sliced, nothing outside that block being written.  Either way
    the first cell [p] of the batch is popped and returned, and the local
    list is the rest of the batch. *)
Theorem fillPool_refills cfg st own blk sz W N :
  constants_ok cfg → WF cfg st own → (0 < sz < eTableSize cfg)%nat →
  own (Local sz) = [] → fresh_block cfg own blk →
  slicesPerBlock cfg (Nat.max sz (uint16 (eMinBytes cfg))) = (W, N) →
  ∃ pe p st' pe' q,
    s_pool st !! sz = Some pe
    ∧ fillPool cfg blk sz sz st = Ok (p, st')
    ∧ s_pool st' !! sz = Some pe' ∧ s_tp st' !! sz = Some q
    ∧ if decide (m_size pe >= N) then
        ∃ g1 g2, own (Global sz) = (p :: g1) ++ g2
          ∧ Z.of_nat (length (p :: g1)) = N
          ∧ is_list (heap st') (m_gp pe') g2 ∧ m_size pe' = m_size pe - N
          ∧ is_list (heap st') q g1
          ∧ s_blocks st' = s_blocks st
          ∧ (∀ x, x ∉ p :: g1 → heap st' !! x = heap st !! x)
      else
        p = blk ∧ s_blocks st' = blk
        ∧ heap st' !! block_link cfg blk = Some (s_blocks st)
        ∧ (∀ x, ¬ in_block cfg blk x → heap st' !! x = heap st !! x)
        ∧ (∀ bl, blist cfg (heap st) (s_blocks st) bl →
                 (∀ b, b ∈ bl → ¬ in_block cfg blk (block_link cfg b)) →
                 blist cfg (heap st') (s_blocks st') (blk :: bl))
        ∧ pe' = pe
        ∧ is_list (heap st') q (tail (slice_addrs cfg blk W (Z.to_nat N)))
        ∧ head (slice_addrs cfg blk W (Z.to_nat N)) = Some p.
Proof.
  intros ([Hptr Hblock] & Htab & Hslices) Hwf Hsz HL Hfresh HWN.
  pose proof (Hslices sz Hsz) as HN. rewrite HWN in HN. simpl in HN.
  destruct (WF_pool_lookup cfg _ _ _ Hwf (proj2 Hsz)) as [pe Hpe].
  destruct (wf_global _ _ _ Hwf _ _ Hpe) as [_ Hcount].
  exists pe. destruct (decide (m_size pe >= N)) as [Hge|Hlt].
  - pose proof (take_drop (Z.to_nat N) (own (Global sz))) as Hsplit.
    destruct (take (Z.to_nat N) (own (Global sz))) as [|a g1] eqn:Htake.
    { apply (f_equal length) in Htake. rewrite length_take_le in Htake by lia.
      simpl in Htake. lia. }
    assert (Hlen : Z.of_nat (length (a :: g1)) = N).
    { rewrite <- Htake, length_take_le by lia. lia. }
    destruct (fillPool_global cfg st own blk sz W N a g1 (drop (Z.to_nat N) (own (Global sz))))
      as (st' & Hrun & Hwf' & Hbl & _ & Hframe & _); [done | lia | done | done | done | done |].
    destruct (WF_pool_lookup cfg _ _ _ Hwf' (proj2 Hsz)) as [pe' Hpe'].
    destruct (WF_tp_lookup cfg _ _ _ Hwf' (proj2 Hsz)) as [q Hq].
    destruct (wf_global _ _ _ Hwf' _ _ Hpe') as [Hg' Hcount'].
    pose proof (wf_local _ _ _ Hwf' _ _ Hq) as Hl'.
    revert Hg' Hcount' Hl'. fn_simpl. intros Hg' Hcount' Hl'.
    exists a, st', pe', q. repeat (split; [done|]).
    exists g1, (drop (Z.to_nat N) (own (Global sz))).
    repeat (split; [done|]). split; [|done].
    rewrite Hcount', Hcount, length_drop. lia.
  - destruct (fillPool_block cfg st own blk sz W N)
      as (st' & Hrun & Hwf' & Hbl & Hlink & Hpool & _ & Hframe & _);
      [done | done | done | done | done | done | lia | done |].
    destruct (WF_tp_lookup cfg _ _ _ Hwf' (proj2 Hsz)) as [q Hq].
    pose proof (wf_local _ _ _ Hwf' _ _ Hq) as Hl'.
    revert Hl'. fn_simpl. intros Hl'.
    exists blk, st', pe, q. rewrite Hpool. repeat (split; [done|]). split.
    { intros bl Hbl_list Hapart. rewrite Hbl.
      eapply blist_grows; [done | | done | done | done].
      destruct Hfresh as [? _]. unfold nullptr. lia. }
    split; [done|]. split; [done|].
    destruct (Z.to_nat N) as [|n] eqn:E; [lia|]. by rewrite slice_addrs_S.
Qed.

Lemma fillPool_refills_witness :
  ∃ p st', fillPool (cfg_small false) 3000 8 8 sample_flushed = Ok (p, st').
Proof.
  destruct (fillPool_refills (cfg_small false) sample_flushed own_flushed 3000 8 1 4)
    as (pe & p & st' & pe' & q & _ & Hrun & _).
  - apply constants_ok_small.
  - apply sample_flushed_WF.
  - simpl. lia.
  - reflexivity.
  - split; [lia|]. intros pl x. unfold own_flushed.
    destruct (decide (Global 8%nat = pl)) as [<-|?]; fn_simpl.
    + rewrite !elem_of_cons, elem_of_nil. simpl. lia.
    + by intros ?%elem_of_nil.
  - reflexivity.
  - exists p, st'. exact Hrun.
Defined.

(** ** Flush *)





(** ** Defragmentation *)

(** C5. [defrag] leaves, for every size class, a global list over the same
    cells (a permutation of the cells held before), with the same count, in
    strictly ascending address order; a class with at most one cell keeps its
    entry and the links of its cells. *)
Theorem defrag_sorts cfg fuel st own :
  WF cfg st own → fuel_enough fuel own →
  ∃ st', defrag cfg fuel st = Ok st'
    ∧ ∀ sz, (0 < sz < eTableSize cfg)%nat →
        ∃ pe pe' l', s_pool st !! sz = Some pe ∧ s_pool st' !! sz = Some pe'
          ∧ is_list (heap st') (m_gp pe') l'
          ∧ l' ≡ₚ own (Global sz) ∧ m_size pe' = m_size pe
          ∧ StronglySorted Z.lt l'
          ∧ ((length (own (Global sz)) ≤ 1)%nat →
               pe' = pe ∧ l' = own (Global sz)
               ∧ ∀ x, x ∈ own (Global sz) → heap st' !! x = heap st !! x).
Proof.
  intros Hwf Hfuel.
  destruct (defrag_spec cfg fuel st own) as (st' & Hrun & Hwf' & _ & _ & _ & Hpool & Hheap);
    [done | done |].
  pose proof (wf_separate _ _ _ Hwf) as Hsep.
  exists st'. split; [done|]. intros sz Hsz.
  destruct (WF_pool_lookup cfg _ _ _ Hwf (proj2 Hsz)) as [pe Hpe].
  destruct (WF_pool_lookup cfg _ _ _ Hwf' (proj2 Hsz)) as [pe' Hpe'].
  destruct (wf_global _ _ _ Hwf _ _ Hpe) as [_ Hcount].
  destruct (wf_global _ _ _ Hwf' _ _ Hpe') as [Hg' Hcount'].
  exists pe, pe', (defrag_on (sizes cfg) own (Global sz)).
  assert (Hperm : defrag_on (sizes cfg) own (Global sz) ≡ₚ own (Global sz)).
  { unfold defrag_on. destruct (decide _); [apply std_sort_Permutation | done]. }
  repeat (split; [done|]). split; [by rewrite Hcount', Hcount, Hperm|]. split.
  - unfold defrag_on. destruct (decide _) as [|Hsmall].
    + apply sorted_NoDup_strict; [apply std_sort_sorted|].
      rewrite std_sort_Permutation. apply Hsep.
    + assert (length (own (Global sz)) ≤ 1)%nat as Hle.
      { destruct (decide (1 < length (own (Global sz)))%nat); [|lia].
        exfalso. apply Hsmall. split; [by apply elem_of_sizes | done]. }
      destruct (own (Global sz)) as [|x [|y l]]; [constructor | | simpl in Hle; lia].
      constructor; constructor.
  - intros Hle. split; [|split].
    + specialize (Hpool sz pe Hle Hpe). congruence.
    + unfold defrag_on. rewrite decide_False; [done|]. intros [_ ?]. lia.
    + intros x Hx. apply Hheap. intros sz' _ Hbig Hx'.
      assert (Global sz = Global sz') as [= ->] by (by eapply Hsep). lia.
Qed.

Lemma defrag_sorts_witness :
  ∃ st', defrag (cfg_small false) 8 sample_flushed = Ok st'
    ∧ s_pool sample_flushed !! 8%nat = Some (mkPoolElement 1008 4)
    ∧ s_pool st' !! 8%nat = Some (mkPoolElement 1000 4).
Proof.
  destruct (defrag_sorts (cfg_small false) 8 sample_flushed own_flushed)
    as (st' & Hrun & _).
  - apply sample_flushed_WF.
  - apply own_flushed_short. lia.
  - exists st'. split; [exact Hrun|]. split; [reflexivity|].
    vm_compute in Hrun. injection Hrun as <-. reflexivity.
Defined.

(** ** Round trips through the thread-local list *)

(** C6, as the code has it.  Whenever [allocate(sz)] succeeds, returning the
    cell with [deallocate] succeeds and the next [allocate(sz)] hands out the
    same address.  When the local list of [sz] was not empty before the
    first call, [deallocate] restores the allocator state as it was.  When
    it was empty, the first call refills it, and after the round trip the
    list holds the refilled batch with the returned cell at its head: the
    first [N] cells of the global list if it has as many, the block chain
    being left alone, and else the [N] slices of the block the provider
    hands out, which is then the first of the block chain. *)
Theorem allocate_deallocate_roundtrip cfg blk blk' sz st p st1 :
  allocate cfg blk sz st = Ok (p, st1) →
  ∃ st2 st3, deallocate sz p st1 = Ok st2
    ∧ (∀ h, s_tp st !! sz = Some h → h ≠ nullptr → st2 = st)
    ∧ allocate cfg blk' sz st2 = Ok (p, st3)
    ∧ (∀ own W N,
         constants_ok cfg → WF cfg st own → (0 < sz < eTableSize cfg)%nat →
         s_tp st !! sz = Some nullptr → fresh_block cfg own blk →
         slicesPerBlock cfg (Nat.max sz (uint16 (eMinBytes cfg))) = (W, N) →
         ∃ batch, s_tp st2 !! sz = Some p
           ∧ is_list (heap st2) p (p :: batch)
           ∧ Z.of_nat (length (p :: batch)) = N
           ∧ if decide (N ≤ Z.of_nat (length (own (Global sz))))
             then p :: batch = take (Z.to_nat N) (own (Global sz))
                  ∧ s_blocks st2 = s_blocks st
             else p :: batch = slice_addrs cfg blk W (Z.to_nat N)
                  ∧ s_blocks st2 = blk).
Proof.
  intros Hrun. destruct (allocate_Ok_inv cfg _ _ _ _ _ Hrun) as [Hnz Hlen].
  destruct (deallocate_allocate cfg blk' sz p st1 Hnz Hlen) as (st2 & st3 & Hde & Hre).
  exists st2, st3. split; [done|]. split; [|split; [done|]].
  { intros h Hh Hhnz.
    pose proof (allocate_fast_undone cfg blk sz st h p st1 Hh Hhnz Hrun) as Hundo.
    congruence. }
  intros own W N Hconst Hwf Hsz Hnull Hfresh HWN.
  pose proof Hconst as ([Hptr Hblock] & Htab & Hslices).
  pose proof (Hslices sz Hsz) as HN. rewrite HWN in HN. simpl in HN.
  assert (HL : own (Local sz) = []).
  { eapply is_list_null. by apply (wf_local _ _ _ Hwf sz). }
  rewrite (allocate_empty cfg st own) in Hrun by (done || lia).
  assert (Hback : ∀ own1 batch,
            WF cfg st1 own1 → own1 (Local sz) = batch →
            own1 Outstanding = p :: own Outstanding →
            s_tp st2 !! sz = Some p ∧ is_list (heap st2) p (p :: batch)
            ∧ s_blocks st2 = s_blocks st1).
  { intros own1 batch Hwf1 Hbatch Hout.
    destruct (deallocate_spec cfg st1 own1 sz p (own Outstanding))
      as (old & Hold & Hrun2 & Hwf2); [done | lia | done | by rewrite Hout |].
    rewrite Hrun2 in Hde. injection Hde as <-.
    assert (Hhead : s_tp (set_tp sz p (set_heap (<[p:=old]> (heap st1)) st1)) !! sz
                    = Some p).
    { simpl. apply list_lookup_insert_eq. by eapply lookup_lt_Some. }
    split; [done|]. split; [|done].
    pose proof (wf_local _ _ _ Hwf2 _ _ Hhead) as Hl. revert Hl. fn_simpl.
    by rewrite Hbatch. }
  destruct (decide (N ≤ Z.of_nat (length (own (Global sz))))) as [Hge|Hlt].
  - pose proof (take_drop (Z.to_nat N) (own (Global sz))) as Hsplit.
    destruct (take (Z.to_nat N) (own (Global sz))) as [|a g1] eqn:Htake.
    { apply (f_equal length) in Htake. rewrite length_take_le in Htake by lia.
      simpl in Htake. lia. }
    assert (HaN : Z.of_nat (length (a :: g1)) = N).
    { rewrite <- Htake, length_take_le by lia. lia. }
    destruct (fillPool_global cfg st own blk sz W N a g1
                (drop (Z.to_nat N) (own (Global sz))))
      as (st1' & Hrun1 & Hwf1 & Hbl1 & _); [done | lia | done | done | done | done |].
    rewrite Hrun1 in Hrun. injection Hrun as <- <-.
    destruct (Hback _ g1 Hwf1) as (Hhead & Hlist & Hbl2); [by fn_simpl | by fn_simpl |].
    exists g1. split; [done|]. split; [done|]. split; [done|]. split; [done | congruence].
  - destruct (fillPool_block cfg st own blk sz W N)
      as (st1' & Hrun1 & Hwf1 & Hbl1 & _);
      [done | done | done | done | done | done | lia | done |].
    rewrite Hrun1 in Hrun. injection Hrun as <- <-.
    set (slices := slice_addrs cfg blk W (Z.to_nat N)) in *.
    assert (Hsl : slices = blk :: tail slices).
    { unfold slices. destruct (Z.to_nat N) as [|n] eqn:E; [lia|]. by rewrite slice_addrs_S. }
    destruct (Hback _ (tail slices) Hwf1) as (Hhead & Hlist & Hbl2);
      [by fn_simpl | by fn_simpl |].
    exists (tail slices). split; [done|]. split; [done|].
    split; [rewrite <- Hsl; unfold slices; rewrite length_slice_addrs; lia|].
    split; [by rewrite <- Hsl | congruence].
Qed.

Lemma allocate_deallocate_roundtrip_witness :
  (∃ st1 st2 st3,
     allocate (cfg_small false) 3000 8 sample_returned = Ok (1008, st1)
     ∧ deallocate 8 1008 st1 = Ok st2 ∧ st2 = sample_returned
     ∧ allocate (cfg_small false) 4000 8 st2 = Ok (1008, st3))
  ∧ (∃ st1 st2 st3,
       allocate (cfg_small false) 1000 8 (initial_state (cfg_small false)) = Ok (1000, st1)
       ∧ deallocate 8 1000 st1 = Ok st2
       ∧ allocate (cfg_small false) 2000 8 st2 = Ok (1000, st3)
       ∧ s_tp st2 !! 8%nat = Some 1000
       ∧ is_list (heap st2) 1000 [1000; 1008; 1016; 1024]
       ∧ s_blocks st2 = 1000).
Proof.
  split.
  - assert (Hrun : ∃ st1, allocate (cfg_small false) 3000 8 sample_returned = Ok (1008, st1))
      by (eexists; vm_compute; reflexivity).
    destruct Hrun as [st1 Hrun].
    destruct (allocate_deallocate_roundtrip (cfg_small false) 3000 4000 8
                sample_returned 1008 st1 Hrun) as (st2 & st3 & Hde & Hsame & Hre & _).
    exists st1, st2, st3.
    split; [exact Hrun|]. split; [exact Hde|]. split; [|exact Hre].
    assert (Hhead : s_tp sample_returned !! 8%nat = Some 1008) by reflexivity.
    assert (Hnz : 1008 ≠ nullptr) by (unfold nullptr; lia).
    exact (Hsame 1008 Hhead Hnz).
  - assert (Hrun : ∃ st1, allocate (cfg_small false) 1000 8 (initial_state (cfg_small false))
                          = Ok (1000, st1)) by (eexists; vm_compute; reflexivity).
    destruct Hrun as [st1 Hrun].
    destruct (allocate_deallocate_roundtrip (cfg_small false) 1000 2000 8
                (initial_state (cfg_small false)) 1000 st1 Hrun)
      as (st2 & st3 & Hde & _ & Hre & Hbatch).
    destruct (Hbatch nothing_held 1 4) as (batch & Hhead & Hlist & _ & Hcells & Hbl).
    + apply constants_ok_small.
    + apply WF_initial.
    + simpl. lia.
    + reflexivity.
    + apply nothing_held_fresh. lia.
    + reflexivity.
    + exists st1, st2, st3. repeat (split; [assumption|]).
      split; [|exact Hbl]. rewrite Hcells in Hlist. exact Hlist.
Defined.

(** The state the claim C6 speaks of is not restored when the first
    [allocate] had to refill: from the initial state, with the constants of a
    64-bit build, the local head of class 8 is [nullptr] before and the
    returned cell afterwards. *)
Lemma roundtrip_after_refill_keeps_batch :
  ¬ (∀ p st1 st2,
       allocate (cfg64 false) 65536 8 (initial_state (cfg64 false)) = Ok (p, st1) →
       deallocate 8 p st1 = Ok st2 →
       s_tp st2 !! 8%nat = s_tp (initial_state (cfg64 false)) !! 8%nat).
Proof.
  intros H.
  specialize (H 65536 (state_after (cfg64 false) [Allocate 65536 8])
                (state64_idle false 8)).
  assert (E1 : allocate (cfg64 false) 65536 8 (initial_state (cfg64 false))
               = Ok (65536, state_after (cfg64 false) [Allocate 65536 8]))
    by (vm_compute; reflexivity).
  assert (E2 : deallocate 8 65536 (state_after (cfg64 false) [Allocate 65536 8])
               = Ok (state64_idle false 8))
    by (vm_compute; reflexivity).
  specialize (H E1 E2). clear E1 E2. vm_compute in H. discriminate H.
Qed.

(** C7. Handing back a chain of [k] distinct cells, linked from [h] to its
    tail [t], and then calling [allocate] [k] times returns exactly the cells
    of the chain, in chain order. *)
Theorem deallocateList_then_allocate cfg st sz h t l blks :
  length (s_tp st) = eTableSize cfg → (0 < sz < eTableSize cfg)%nat →
  lseg (heap st) h t l → t ≠ nullptr → NoDup (l ++ [t]) →
  length blks = length (l ++ [t]) →
  ∃ st1 st2, deallocateList sz h t st = Ok st1
    ∧ allocate_n cfg blks sz st1 = Ok (l ++ [t], st2).
Proof.
  intros Hlen Hsz Hchain Ht Hnd Hblks.
  destruct (lookup_lt_is_Some_2 (s_tp st) sz) as [old Hold]; [lia|].
  set (st1 := set_tp sz h (set_heap (<[t:=old]> (heap st)) st)).
  assert (Htl : t ∉ l).
  { apply NoDup_app in Hnd as (_ & Hd & _). intros Hin. eapply Hd; [done | left]. }
  destruct (allocate_n_chain cfg (l ++ [t]) blks sz st1 h old) as (st2 & Hrun & _).
  - done.
  - simpl. apply list_lookup_insert_eq. lia.
  - simpl. eapply lseg_snoc; [by apply lseg_frame | done | apply lookup_insert_eq | done].
  - done.
  - exists st1, st2. split; [|done].
    unfold deallocateList. rewrite (tp_get_Ok _ _ _ Hold), bind_Ok_l.
    by rewrite store_Ok by done.
Qed.

Lemma deallocateList_then_allocate_witness :
  ∃ st1 st2, deallocateList 8 100 300 sample_chain_state = Ok st1
    ∧ allocate_n (cfg_small false) [0; 0; 0] 8 st1 = Ok ([100; 200; 300], st2).
Proof.
  apply (deallocateList_then_allocate (cfg_small false) sample_chain_state 8
           100 300 [100; 200] [0; 0; 0]).
  - reflexivity.
  - simpl. lia.
  - simpl. unfold nullptr. repeat split; try lia.
    exists 200. split; [reflexivity|]. repeat split; try lia.
    exists 300. split; reflexivity.
  - unfold nullptr. lia.
  - simpl. repeat constructor; rewrite ?elem_of_cons, ?elem_of_nil; lia.
  - reflexivity.
Defined.

(** ** The count of a global entry *)

(** C8. The stored count of every global entry equals the number of cells
    reachable from its head.  This holds for the initial statics (both
    zero), and in every state reached from them by calls of [allocate]
    (with its refill), [deallocate], [deallocateList], [flushPool] and
    [defrag] made within the contract, the application writing into the
    cells it holds in between, as it does to link the chain it hands to
    [deallocateList]; from such a state every further call
    within the contract returns, in a debug build too, so the assertion of
    [defrag] on its walk holds, and leads to a state where the counts are
    right again.  [deallocate] and [deallocateList] leave the global table
    alone, and so does [allocate] unless it refills. *)
Theorem counts_invariant cfg :
  constants_ok cfg →
  counts_consistent (initial_state cfg)
  ∧ ∀ cs st held, run cfg (initial_state cfg) [] cs st held →
      counts_consistent st
      ∧ ∀ c fuel, client_ok cfg st held c → (size (heap st) < fuel)%nat →
          ∃ r st' held', run_call cfg fuel c st = Ok (r, st')
            ∧ outstanding_step c r st held held'
            ∧ counts_consistent st'
            ∧ pool_untouched c st st'.
Proof.
  intros Hconst. split.
  - eapply WF_counts_consistent, WF_initial.
  - intros cs st held Hrun.
    destruct (run_Inv cfg cs _ _ _ _ _ _ Hconst (Inv_initial cfg) Hrun) as (own & bl & Hinv).
    split; [eapply WF_counts_consistent, Hinv|].
    intros c fuel Hok Hfuel.
    destruct (Inv_progress cfg fuel st held own bl c) as (r & st' & held' & Hcall & Hstep);
      [done..|].
    destruct (Inv_step cfg fuel st held own bl c r st' held') as (own' & bl' & Hinv' & Hpool);
      [done..|].
    exists r, st', held'. repeat (split; [done|]). split; [|done].
    eapply WF_counts_consistent, Hinv'.
Qed.

Lemma counts_invariant_witness :
  ∃ st held,
    run (cfg_small true) (initial_state (cfg_small true)) []
        [Allocate 1000 8; Allocate 2000 8; Store 1008 1000; DeallocateList 8 1008 1000;
         FlushPool; Defrag] st held
    ∧ counts_consistent st
    ∧ s_pool st !! 8%nat = Some (mkPoolElement 1000 4).
Proof.
  assert (Hrun : ∃ st held,
            run (cfg_small true) (initial_state (cfg_small true)) []
              [Allocate 1000 8; Allocate 2000 8; Store 1008 1000;
               DeallocateList 8 1008 1000; FlushPool; Defrag] st held
            ∧ s_pool st !! 8%nat = Some (mkPoolElement 1000 4)).
  { eexists _, _. split.
    - eapply (run_cons _ _ _ _ _ 8%nat).
      { split; [simpl; lia|]. apply (provider_fresh_chain _ _ []); [lia | done |].
        intros b []%elem_of_nil. }
      { vm_compute. lia. }
      { vm_compute. reflexivity. }
      { exists 1000. split; [reflexivity|]. split; [unfold nullptr; lia | reflexivity]. }
      eapply (run_cons _ _ _ _ _ 8%nat).
      { split; [simpl; lia|]. apply (provider_fresh_chain _ _ [1000]); [lia | |].
        - split; [done|]. split; [done|]. by exists nullptr.
        - intros b ->%list_elem_of_singleton. left. simpl. lia. }
      { vm_compute. lia. }
      { vm_compute. reflexivity. }
      { exists 1008. split; [reflexivity|]. split; [unfold nullptr; lia | reflexivity]. }
      eapply (run_cons _ _ _ _ _ 8%nat).
      { simpl. left. }
      { vm_compute. lia. }
      { vm_compute. reflexivity. }
      { reflexivity. }
      eapply (run_cons _ _ _ _ _ 8%nat).
      { split; [simpl; lia|]. exists [1008]. split; [|split].
        - split; [done|]. split; [done|]. by exists 1000.
        - repeat constructor; rewrite ?elem_of_cons, ?elem_of_nil; lia.
        - intros x Hx. exact Hx. }
      { vm_compute. lia. }
      { vm_compute. reflexivity. }
      { exists [1008]. split; [|split].
        - split; [done|]. split; [done|]. by exists 1000.
        - repeat constructor; rewrite ?elem_of_cons, ?elem_of_nil; lia.
        - exact (Permutation_refl (([1008] ++ [1000]) ++ [])). }
      eapply (run_cons _ _ _ _ _ 8%nat).
      { exact I. }
      { vm_compute. lia. }
      { vm_compute. reflexivity. }
      { simpl. reflexivity. }
      eapply (run_cons _ _ _ _ _ 8%nat).
      { exact I. }
      { vm_compute. lia. }
      { vm_compute. reflexivity. }
      { simpl. reflexivity. }
      apply run_nil.
    - reflexivity. }
  destruct Hrun as (st & held & Hrun & Hpool).
  exists st, held. split; [exact Hrun|]. split; [|exact Hpool].
  destruct (counts_invariant (cfg_small true) (constants_ok_small true)) as [_ Hall].
  exact (proj1 (Hall _ _ _ Hrun)).
Defined.

(** ** Slicing a block *)

(** C9. For a block at a positive address, a positive word count per
    slice and a slice count [N] as the refill routine computes it for a size
    class, which with the constants of the library is at least 1 (it is at
    least 2), [makeSlices] links exactly the [N] slice addresses, the block
    start plus [i*nWords] words for [i = 0 .. N-1], which ascend, ends the
    chain with [nullptr] and writes nowhere else. *)
Theorem makeSlices_links_slices cfg h p w sz N :
  constants_ok cfg → (0 < sz < eTableSize cfg)%nat →
  (slicesPerBlock cfg (Nat.max sz (uint16 (eMinBytes cfg)))).2 = N →
  0 < p → 0 < w →
  1 ≤ N
  ∧ makeSlices_links cfg h p w (Z.to_nat N)
  ∧ length (slice_addrs cfg p w (Z.to_nat N)) = Z.to_nat N
  ∧ (∀ i : nat, (i < Z.to_nat N)%nat →
       slice_addrs cfg p w (Z.to_nat N) !! i
       = Some (p + Z.of_nat i * w * OGDF_SIZEOF_POINTER cfg))
  ∧ StronglySorted Z.lt (slice_addrs cfg p w (Z.to_nat N)).
Proof.
  intros ([Hptr Hblock] & Htab & Hslices) Hsz HN Hp Hw.
  pose proof (Hslices sz Hsz) as H2. rewrite HN in H2.
  split; [lia|]. split; [|split; [|split]].
  - apply makeSlices_spec; (done || lia).
  - apply length_slice_addrs.
  - intros i Hi. by apply slice_addrs_lookup.
  - by apply slice_addrs_sorted.
Qed.

Lemma makeSlices_links_slices_witness :
  makeSlices_links (cfg64 false) ∅ 65536 1 1023.
Proof.
  apply (makeSlices_links_slices (cfg64 false) ∅ 65536 1 8 1023).
  - apply constants_ok_64.
  - simpl. lia.
  - reflexivity.
  - lia.
  - lia.
Defined.

(** The constants matter: were a block to have room for only one slice of a
    class, as with blocks of 40 bytes and a class of 32, the loop of
    [makeSlices] would still link a second cell, and overwrite the link of
    the block. *)
Lemma makeSlices_single_slice_overruns :
  slicesPerBlock cfg_tight 32 = (4, 1)
  ∧ ¬ makeSlices_links cfg_tight ∅ 1000 4 1.
Proof.
  split; [reflexivity|].
  intros (h' & Hrun & _ & Hframe).
  vm_compute in Hrun. injection Hrun as <-.
  specialize (Hframe 1032). vm_compute in Hframe.
  assert (Hne : Some 0 ≠ (None : option Z)) by discriminate.
  apply Hne, Hframe. intros Hin.
  apply (proj1 (list_elem_of_singleton 1032 1000)) in Hin. discriminate Hin.
Qed.

(** ** Introspection and teardown *)

(** C3, at a state with a non-empty local list (64-bit constants, one cell
    of size 8 allocated and returned): [memoryInThreadFreeList] returns the
    bytes in the local lists, 1023 cells of 8 bytes, but leaves the head of
    the list [nullptr], the walk assigning through its reference into
    [s_tp]. *)
Theorem memoryInThreadFreeList_clears_heads :
  ∃ st', memoryInThreadFreeList (cfg64 false) 2000 (state64_idle false 8) = Ok (st', 8184)
    ∧ s_tp (state64_idle false 8) !! 8%nat = Some 65536
    ∧ s_tp st' !! 8%nat = Some nullptr.
Proof.
  eexists. split; [vm_compute; reflexivity|].
  split; vm_compute; reflexivity.
Qed.

(** C10, in a debug build at the same state: [cleanup] passes its assertion
    and releases the one block of the chain; the anchor and the global table
    keep their values, but the thread-local head of class 8 is [nullptr]
    afterwards. *)
Theorem cleanup_debug_clears_heads :
  ∃ st', cleanup (cfg64 true) 2000 (state64_idle true 8) = Ok (st', [65536])
    ∧ s_blocks st' = s_blocks (state64_idle true 8)
    ∧ s_pool st' = s_pool (state64_idle true 8)
    ∧ s_tp (state64_idle true 8) !! 8%nat = Some 65536
    ∧ s_tp st' !! 8%nat = Some nullptr.
Proof.
  eexists. split; [vm_compute; reflexivity|].
  repeat split; vm_compute; reflexivity.
Qed.

(** C2, in a debug build with 64-bit constants: one cell of size 1 is
    allocated and returned, so nothing is outstanding.  The refill carved
    1023 slices of one word, 8184 bytes; the free lists account for 1023
    cells of 1 byte.  The condition asserted in [cleanup] is false and
    [cleanup] stops at its assertion. *)
Theorem cleanup_assertion_fails_on_odd_size :
  s_nettoAlloc (state64_idle true 1) * OGDF_SIZEOF_POINTER (cfg64 true) = 8184
  ∧ memoryInGlobalFreeList (cfg64 true) (state64_idle true 1) = Ok 0
  ∧ (∃ st', memoryInThreadFreeList (cfg64 true) 2000 (state64_idle true 1) = Ok (st', 1023))
  ∧ (∃ st', cleanup_check (cfg64 true) 2000 (state64_idle true 1) = Ok (st', false))
  ∧ cleanup (cfg64 true) 2000 (state64_idle true 1) = AssertionFailed.
Proof.
  split; [vm_compute; reflexivity|]. split; [vm_compute; reflexivity|].
  split; [eexists; vm_compute; reflexivity|].
  split; [eexists; vm_compute; reflexivity|].
  vm_compute; reflexivity.
Qed.
(** * Further properties *)

(** ** The thread-local list as a stack *)

Lemma deallocate_Ok sz p st old :
  s_tp st !! sz = Some old → p ≠ nullptr →
  deallocate sz p st = Ok (set_tp sz p (set_heap (<[p:=old]> (heap st)) st)).
Proof.
  intros Hold Hp. unfold deallocate. rewrite (tp_get_Ok _ _ _ Hold), bind_Ok_l.
  by rewrite store_Ok.
Qed.

Lemma allocate_Ok_fast cfg blk sz st p next :
  s_tp st !! sz = Some p → p ≠ nullptr → heap st !! p = Some next →
  allocate cfg blk sz st
  = Ok (p, set_heap (<[p:=nullptr]> (heap st)) (set_tp sz next st)).
Proof.
  intros Hp Hnz Hnext. unfold allocate. rewrite (tp_get_Ok _ _ _ Hp), bind_Ok_l.
  rewrite decide_True by done. rewrite (load_Ok _ _ _ Hnz Hnext), bind_Ok_l.
  st_simpl. by rewrite store_Ok.
Qed.

(** X1. The cell freed last is the cell allocated next: [deallocate(sz, p)]
    followed by [allocate(sz)] returns [p] and leaves the tables as they
    were before the two calls; of the memory only the link of [p] has
    changed, which is cleared.  This needs nothing of the state but a table
    entry for [sz]. *)
Theorem deallocate_then_allocate_lifo cfg blk sz p st :
  (sz < length (s_tp st))%nat → p ≠ nullptr →
  ∃ st1, deallocate sz p st = Ok st1
    ∧ allocate cfg blk sz st1 = Ok (p, set_heap (<[p:=nullptr]> (heap st)) st).
Proof.
  intros Hsz Hp. destruct (lookup_lt_is_Some_2 (s_tp st) sz Hsz) as [old Hold].
  eexists. split; [by apply deallocate_Ok|].
  rewrite (allocate_Ok_fast cfg blk sz _ p old); [| | done |].
  - f_equal. f_equal. destruct st as [h tp pool bl na]. unfold set_heap, set_tp. simpl.
    simpl in Hold. f_equal.
    + apply insert_insert_eq.
    + rewrite list_insert_insert_eq. by apply list_insert_id.
  - simpl. by apply list_lookup_insert_eq.
  - simpl. apply lookup_insert_eq.
Qed.

Lemma deallocate_then_allocate_lifo_witness :
  ∃ st1, deallocate 8 1000 sample_refilled = Ok st1
    ∧ allocate (cfg_small false) 2000 8 st1
      = Ok (1000, set_heap (<[1000:=nullptr]> (heap sample_refilled)) sample_refilled).
Proof.
  apply (deallocate_then_allocate_lifo (cfg_small false) 2000 8 1000 sample_refilled).
  - simpl. lia.
  - unfold nullptr. lia.
Defined.

(** After the cells [ps] have been freed one by one, the class heads the
    chain of these cells, last freed first, followed by what it headed
    before. *)
Lemma deallocate_all_spec sz : ∀ ps st old,
  s_tp st !! sz = Some old → NoDup ps → (∀ p, p ∈ ps → p ≠ nullptr) →
  ∃ st1 hd, deallocate_all sz ps st = Ok st1
    ∧ s_tp st1 !! sz = Some hd
    ∧ lseg (heap st1) hd old (reverse ps)
    ∧ (∀ x, x ∉ ps → heap st1 !! x = heap st !! x).
Proof.
  induction ps as [|p ps IH]; intros st old Hold Hnd Hnz; simpl.
  - exists st, old. done.
  - apply NoDup_cons in Hnd as [Hp Hnd].
    rewrite (deallocate_Ok sz p st old) by (done || apply Hnz; left). rewrite bind_Ok_l.
    destruct (IH (set_tp sz p (set_heap (<[p:=old]> (heap st)) st)) p)
      as (st1 & hd & Hrun & Hhd & Hchain & Hframe).
    { simpl. apply list_lookup_insert_eq. by eapply lookup_lt_Some. }
    { done. }
    { intros q Hq. apply Hnz. by right. }
    exists st1, hd. split; [done|]. split; [done|]. split.
    + rewrite reverse_cons. eapply lseg_snoc; [done | apply Hnz; left | | done].
      rewrite Hframe by done. simpl. apply lookup_insert_eq.
    + intros x Hx. apply not_elem_of_cons in Hx as [Hne Hx].
      rewrite Hframe by done. simpl. by apply lookup_insert_ne.
Qed.

(** X2. The thread-local list of a class is a stack: after distinct cells
    have been freed one by one, as many calls of [allocate] return them in
    the reverse order, and the class then heads what it headed before. *)
Theorem deallocate_all_then_allocate_reverse cfg sz ps blks st :
  (sz < length (s_tp st))%nat → NoDup ps → (∀ p, p ∈ ps → p ≠ nullptr) →
  length blks = length ps →
  ∃ st1 st2, deallocate_all sz ps st = Ok st1
    ∧ allocate_n cfg blks sz st1 = Ok (reverse ps, st2)
    ∧ s_tp st2 !! sz = s_tp st !! sz.
Proof.
  intros Hsz Hnd Hnz Hlen.
  destruct (lookup_lt_is_Some_2 (s_tp st) sz Hsz) as [old Hold].
  destruct (deallocate_all_spec sz ps st old Hold Hnd Hnz)
    as (st1 & hd & Hrun & Hhd & Hchain & _).
  destruct (allocate_n_chain cfg (reverse ps) blks sz st1 hd old)
    as (st2 & Hrun2 & Hq); [by rewrite length_reverse | done | done | by rewrite reverse_Permutation |].
  exists st1, st2. by rewrite Hold.
Qed.

Lemma deallocate_all_then_allocate_reverse_witness :
  ∃ st1 st2, deallocate_all 8 [1000; 5000; 7000] sample_refilled = Ok st1
    ∧ allocate_n (cfg_small false) [0; 0; 0] 8 st1 = Ok ([7000; 5000; 1000], st2)
    ∧ s_tp st2 !! 8%nat = Some 1008.
Proof.
  apply (deallocate_all_then_allocate_reverse (cfg_small false) 8 [1000; 5000; 7000]
           [0; 0; 0] sample_refilled).
  - simpl. lia.
  - repeat constructor; rewrite ?elem_of_cons, ?elem_of_nil; lia.
  - intros p. rewrite !elem_of_cons, elem_of_nil. unfold nullptr. lia.
  - reflexivity.
Defined.

(** X3. A cell freed twice is not noticed: the class then heads a chain in
    which the cell is linked to itself, the next two calls of [allocate]
    both return it, and the cells the class held before are cut off, the
    head being [nullptr] afterwards. *)
Theorem double_deallocate_hands_out_twice cfg blk blk' sz p st :
  (sz < length (s_tp st))%nat → p ≠ nullptr →
  ∃ st1 st2 st3 st4,
    deallocate sz p st = Ok st1 ∧ deallocate sz p st1 = Ok st2
    ∧ heap st2 !! p = Some p
    ∧ allocate cfg blk sz st2 = Ok (p, st3)
    ∧ allocate cfg blk' sz st3 = Ok (p, st4)
    ∧ s_tp st4 !! sz = Some nullptr.
Proof.
  intros Hsz Hp. destruct (lookup_lt_is_Some_2 (s_tp st) sz Hsz) as [old Hold].
  eexists _, _, _, _.
  split; [by apply deallocate_Ok|].
  split; [apply deallocate_Ok; [simpl; by apply list_lookup_insert_eq | done]|].
  split; [simpl; apply lookup_insert_eq|].
  split.
  { apply allocate_Ok_fast; [| done | simpl; apply lookup_insert_eq].
    simpl. apply list_lookup_insert_eq. by rewrite length_insert. }
  split.
  { apply allocate_Ok_fast; [| done | simpl; apply lookup_insert_eq].
    simpl. apply list_lookup_insert_eq. by rewrite !length_insert. }
  simpl. apply list_lookup_insert_eq. by rewrite !length_insert.
Qed.

Lemma double_deallocate_hands_out_twice_witness :
  ∃ st1 st2 st3 st4,
    deallocate 8 1000 sample_refilled = Ok st1 ∧ deallocate 8 1000 st1 = Ok st2
    ∧ heap st2 !! 1000 = Some 1000
    ∧ allocate (cfg_small false) 2000 8 st2 = Ok (1000, st3)
    ∧ allocate (cfg_small false) 3000 8 st3 = Ok (1000, st4)
    ∧ s_tp st4 !! 8%nat = Some nullptr.
Proof.
  apply (double_deallocate_hands_out_twice (cfg_small false) 2000 3000 8 1000
           sample_refilled).
  - simpl. lia.
  - unfold nullptr. lia.
Defined.

(** ** flushPool, once more *)

Lemma flush_class_frame fuel sz st st' :
  flush_class fuel sz st = Ok st' →
  (sz < length (s_tp st))%nat
  ∧ s_tp st' = <[sz:=nullptr]> (s_tp st)
  ∧ (∀ i, i ≠ sz → s_pool st' !! i = s_pool st !! i)
  ∧ s_blocks st' = s_blocks st ∧ s_nettoAlloc st' = s_nettoAlloc st.
Proof.
  unfold flush_class. intros (pHead & Hh%tp_get_Ok_inv & H)%bind_Ok.
  split; [by eapply lookup_lt_Some|].
  destruct (decide (pHead ≠ nullptr)) as [Hnz|Hz].
  - apply bind_Ok in H as ([pTail n] & _ & H).
    apply bind_Ok in H as (pe & _ & H). apply bind_Ok in H as (h & _ & H).
    injection H as <-. simpl. split; [done|]. split; [|done].
    intros i Hi. by apply list_lookup_insert_ne.
  - injection H as <-. apply dec_stable in Hz. subst pHead.
    split; [by rewrite list_insert_id|]. done.
Qed.

Lemma flush_loop_frame fuel l : ∀ st st',
  for_each (flush_class fuel) l st = Ok st' →
  (∀ sz, sz ∈ l → (sz < length (s_tp st))%nat)
  ∧ s_tp st' = foldl (fun tp sz => <[sz:=nullptr]> tp) (s_tp st) l
  ∧ (∀ i, i ∉ l → s_pool st' !! i = s_pool st !! i)
  ∧ s_blocks st' = s_blocks st ∧ s_nettoAlloc st' = s_nettoAlloc st.
Proof.
  induction l as [|sz l IH]; intros st st'; simpl.
  - intros [= <-]. split; [|done]. intros sz Hsz. by apply elem_of_nil in Hsz.
  - intros (st1 & H1 & Hrest)%bind_Ok.
    apply flush_class_frame in H1 as (Hlt & Htp & Hpool & Hbl & Hna).
    apply IH in Hrest as (Hlt' & Htp' & Hpool' & Hbl' & Hna').
    rewrite Htp in Htp', Hlt'. rewrite Htp', Hbl', Hna'.
    split; [|split; [done|split; [|done]]].
    + intros i [->|Hi]%elem_of_cons; [done|].
      specialize (Hlt' i Hi). by rewrite length_insert in Hlt'.
    + intros i [Hne Hi]%not_elem_of_cons. rewrite Hpool' by done. by apply Hpool.
Qed.

Lemma flush_loop_null fuel l : ∀ st,
  (∀ sz, sz ∈ l → s_tp st !! sz = Some nullptr) →
  for_each (flush_class fuel) l st = Ok st.
Proof.
  induction l as [|sz l IH]; intros st Hnull; [done|].
  assert (Hhere : flush_class fuel sz st = Ok st).
  { unfold flush_class. rewrite (tp_get_Ok _ _ nullptr), bind_Ok_l by (apply Hnull; left).
    by rewrite decide_False by (intros H; by apply H). }
  cbn [for_each]. rewrite Hhere, bind_Ok_l.
  apply IH. intros sz' Hsz'. apply Hnull. by right.
Qed.

(** X4. [flushPool] is idempotent: once it has returned, a second call
    finds every local head empty and leaves the state exactly as it is,
    without walking any list. *)
Theorem flushPool_idempotent cfg fuel fuel' st st1 :
  flushPool cfg fuel st = Ok st1 → flushPool cfg fuel' st1 = Ok st1.
Proof.
  unfold flushPool. destruct (decide _) as [Htab|]; [|done]. intros Hrun.
  apply flush_loop_frame in Hrun as (Hlt & Htp & _).
  apply flush_loop_null. intros sz Hsz. rewrite Htp, lookup_foldl_clear.
  rewrite decide_True; [done|]. split; [done | by apply Hlt].
Qed.

Lemma flushPool_idempotent_witness :
  flushPool (cfg_small false) 0 sample_flushed = Ok sample_flushed.
Proof.
  apply (flushPool_idempotent (cfg_small false) 8 0 sample_returned sample_flushed).
  vm_compute. reflexivity.
Defined.

Lemma sample_refilled_WF : WF (cfg_small false) sample_refilled own_refilled.
Proof.
  set (cfg := cfg_small false).
  destruct (fillPool_block cfg (initial_state cfg) nothing_held 1000 8 1 4)
    as (s1 & Hrun1 & Hwf1 & _);
    [apply WF_initial | done | simpl; lia | done | lia | done | simpl; lia
    | by apply nothing_held_fresh |].
  vm_compute in Hrun1. injection Hrun1 as <-. exact Hwf1.
Qed.

(** X5. Size class 0 is outside the loop of [flushPool], which starts at 1:
    a cell returned with size 0 stays at the head of the thread's list for
    class 0, the global entry for class 0 is left alone, and the next
    [allocate(0)] hands the cell out again. *)
Theorem flushPool_keeps_class_zero cfg fuel blk st own p :
  Z.of_nat (eTableSize cfg) ≤ 65535 → (0 < eTableSize cfg)%nat →
  WF cfg st own → fuel_enough fuel own → p ≠ nullptr → p ∈ own Outstanding →
  ∃ st1 st2 st3, deallocate 0 p st = Ok st1
    ∧ flushPool cfg (S fuel) st1 = Ok st2
    ∧ s_tp st2 !! 0%nat = Some p
    ∧ s_pool st2 !! 0%nat = s_pool st !! 0%nat
    ∧ allocate cfg blk 0 st2 = Ok (p, st3).
Proof.
  intros Htab Hpos Hwf Hfuel Hp Hin.
  apply elem_of_Permutation in Hin as [rest Hperm].
  destruct (deallocate_spec cfg st own 0 p rest) as (old & Hold & Hrun1 & Hwf1);
    [done..|].
  match type of Hwf1 with WF _ ?s ?o => set (st1 := s) in *; set (own1 := o) in * end.
  assert (H0 : (0%nat : nat) ∉ sizes cfg).
  { intros [H _]%elem_of_sizes. lia. }
  destruct (flush_loop cfg (S fuel) (sizes cfg) st1 own1)
    as (st2 & Hrun2 & Hwf2 & Htp & _);
    [apply NoDup_sizes | by intros sz [_ ?]%elem_of_sizes | done | |].
  { intros sz. unfold own1. destruct (Hfuel sz) as [HL _].
    destruct (decide (sz = 0%nat)) as [->|Hne]; fn_simpl; simpl; lia. }
  pose proof (flush_loop_frame _ _ _ _ Hrun2) as (_ & _ & Hpool & _).
  assert (HL2 : flush_on (sizes cfg) own1 (Local 0) = p :: own (Local 0)).
  { unfold flush_on. rewrite decide_False by done. unfold own1. by fn_simpl. }
  destruct (allocate_fast cfg st2 _ blk 0 p (own (Local 0)) Hwf2 Hpos HL2)
    as (r & _ & Hrun3 & _).
  eexists st1, st2, _. split; [done|].
  split; [unfold flushPool; by rewrite decide_True|].
  split; [|split; [by rewrite Hpool | done]].
  rewrite Htp, lookup_foldl_clear. rewrite decide_False by (intros [? _]; done).
  simpl. apply list_lookup_insert_eq. by eapply lookup_lt_Some.
Qed.

Lemma flushPool_keeps_class_zero_witness :
  ∃ st1 st2 st3, deallocate 0 1000 sample_refilled = Ok st1
    ∧ flushPool (cfg_small false) 9 st1 = Ok st2
    ∧ s_tp st2 !! 0%nat = Some 1000
    ∧ s_pool st2 !! 0%nat = s_pool sample_refilled !! 0%nat
    ∧ allocate (cfg_small false) 2000 0 st2 = Ok (1000, st3).
Proof.
  apply (flushPool_keeps_class_zero (cfg_small false) 8 2000 sample_refilled own_refilled).
  - simpl. lia.
  - simpl. lia.
  - apply sample_refilled_WF.
  - intros sz. unfold own_refilled, nothing_held.
    destruct (decide (sz = 8%nat)) as [->|Hne]; fn_simpl; simpl; lia.
  - unfold nullptr. lia.
  - unfold own_refilled. fn_simpl. left.
Defined.

(** X6. Cells flushed to the global pool come back without a new block:
    when the local list of a class is not empty and, together with the
    global list, holds at least the [N] cells of a batch, [flushPool]
    followed by [allocate] returns the former local head, the thread's new
    local list being the next [N-1] cells of the joined list, and the block
    chain is left alone. *)
Theorem flushPool_then_allocate_reuses cfg fuel blk st own sz a l W N :
  constants_ok cfg → WF cfg st own → fuel_enough fuel own →
  (0 < sz < eTableSize cfg)%nat → own (Local sz) = a :: l →
  slicesPerBlock cfg (Nat.max sz (uint16 (eMinBytes cfg))) = (W, N) →
  N ≤ Z.of_nat (length (own (Local sz) ++ own (Global sz))) →
  ∃ st1 st2 q, flushPool cfg fuel st = Ok st1
    ∧ allocate cfg blk sz st1 = Ok (a, st2)
    ∧ s_blocks st2 = s_blocks st
    ∧ s_tp st2 !! sz = Some q
    ∧ is_list (heap st2) q (take (Z.to_nat N - 1) (l ++ own (Global sz))).
Proof.
  intros Hconst Hwf Hfuel Hsz HL HWN Hlen.
  pose proof Hconst as ([Hptr Hblock] & Htab & Hslices).
  pose proof (Hslices sz Hsz) as HN. rewrite HWN in HN. simpl in HN.
  destruct (flush_loop cfg fuel (sizes cfg) st own) as (st1 & Hrun & Hwf1 & _ & Hbl & _);
    [apply NoDup_sizes | by intros sz' [_ ?]%elem_of_sizes | done | |].
  { intros sz'. destruct (Hfuel sz'). lia. }
  assert (HL1 : flush_on (sizes cfg) own (Local sz) = []).
  { unfold flush_on. by rewrite decide_True by (by apply elem_of_sizes). }
  assert (HG1 : flush_on (sizes cfg) own (Global sz)
                = (a :: take (Z.to_nat N - 1) (l ++ own (Global sz)))
                  ++ drop (Z.to_nat N - 1) (l ++ own (Global sz))).
  { unfold flush_on. rewrite decide_True by (by apply elem_of_sizes).
    rewrite HL. simpl. by rewrite take_drop. }
  rewrite HL in Hlen. simpl in Hlen. rewrite length_app in Hlen.
  destruct (fillPool_global cfg st1 _ blk sz W N a _ _ Hwf1 (proj2 Hsz) HWN HL1 HG1)
    as (st2 & Hrun2 & Hwf2 & Hbl2 & _).
  { simpl. rewrite length_take_le by (rewrite length_app; lia). lia. }
  destruct (WF_tp_lookup cfg _ _ _ Hwf2 (proj2 Hsz)) as [q Hq].
  pose proof (wf_local _ _ _ Hwf2 _ _ Hq) as Hlq. revert Hlq. fn_simpl. intros Hlq.
  exists st1, st2, q. split; [unfold flushPool; by rewrite decide_True|].
  split; [|split; [congruence | done]].
  rewrite (allocate_empty cfg st1 _ blk sz Hwf1) by (lia || done). done.
Qed.

Lemma flushPool_then_allocate_reuses_witness :
  ∃ st1 st2 q, flushPool (cfg_small false) 8 sample_returned = Ok st1
    ∧ allocate (cfg_small false) 3000 8 st1 = Ok (1008, st2)
    ∧ s_blocks st2 = s_blocks sample_returned
    ∧ s_tp st2 !! 8%nat = Some q
    ∧ is_list (heap st2) q [1000; 1016; 1024].
Proof.
  apply (flushPool_then_allocate_reuses (cfg_small false) 8 3000 sample_returned
           own_returned 8 1008 [1000; 1016; 1024] 1 4).
  - apply constants_ok_small.
  - apply sample_returned_WF.
  - apply own_returned_short. lia.
  - simpl. lia.
  - reflexivity.
  - reflexivity.
  - simpl. lia.
Defined.

(** ** Introspection, once more *)

Lemma clear_tp_null l : ∀ st,
  (∀ sz, sz ∈ l → s_tp st !! sz = Some nullptr) → clear_tp l st = st.
Proof.
  induction l as [|sz l IH]; intros st Hnull; [done|].
  unfold clear_tp. simpl. rewrite set_tp_id by (apply Hnull; left).
  apply IH. intros sz' Hsz'. apply Hnull. by right.
Qed.

(** X7. [memoryInThreadFreeList] forgets what it has counted: in every
    well-formed state it returns the bytes of the thread's lists and leaves
    every head of a size class [nullptr], the memory and the global table
    being as before, so that the cells just counted can no longer be reached
    from the table and a second call reports 0 bytes. *)
Theorem memoryInThreadFreeList_forgets_lists cfg fuel st own :
  WF cfg st own → fuel_enough fuel own →
  ∃ st1, memoryInThreadFreeList cfg fuel st
         = Ok (st1, bytes_held (sizes cfg) own Local)
    ∧ (∀ sz, (0 < sz < eTableSize cfg)%nat → s_tp st1 !! sz = Some nullptr)
    ∧ heap st1 = heap st ∧ s_pool st1 = s_pool st
    ∧ memoryInThreadFreeList cfg fuel st1 = Ok (st1, 0).
Proof.
  intros Hwf Hfuel. exists (clear_tp (sizes cfg) st).
  assert (Hnull : ∀ sz, sz ∈ sizes cfg →
            s_tp (clear_tp (sizes cfg) st) !! sz = Some nullptr).
  { intros sz Hsz. rewrite s_tp_clear_tp, lookup_foldl_clear.
    rewrite decide_True; [done|]. split; [done|].
    rewrite (wf_tp_length _ _ _ Hwf). by apply elem_of_sizes in Hsz as [_ ?]. }
  split; [by apply memoryInThreadFreeList_spec|].
  split; [intros sz Hsz; by apply Hnull, elem_of_sizes|].
  destruct (clear_tp_frame (sizes cfg) st) as (Hh & Hp & _).
  split; [done|]. split; [done|].
  unfold memoryInThreadFreeList.
  rewrite (memoryInThreadFreeList_loop fuel (fun _ => []));
    [| apply NoDup_sizes |].
  - rewrite clear_tp_null by done. f_equal. f_equal.
    rewrite sum_over_zero; [done|]. intros sz _. simpl. lia.
  - intros sz Hsz. exists nullptr. split; [by apply Hnull|]. split; [done|].
    destruct (Hfuel sz). simpl. lia.
Qed.

Lemma memoryInThreadFreeList_forgets_lists_witness :
  ∃ st1, memoryInThreadFreeList (cfg_small false) 8 sample_returned = Ok (st1, 32)
    ∧ (∀ sz, (0 < sz < 17)%nat → s_tp st1 !! sz = Some nullptr)
    ∧ heap st1 = heap sample_returned ∧ s_pool st1 = s_pool sample_returned
    ∧ memoryInThreadFreeList (cfg_small false) 8 st1 = Ok (st1, 0).
Proof.
  apply (memoryInThreadFreeList_forgets_lists (cfg_small false) 8 sample_returned
           own_returned).
  - apply sample_returned_WF.
  - apply own_returned_short. lia.
Defined.

(** ** defrag, once more *)

(** X8. What [defrag] leaves alone: the thread-local table, the block
    chain anchor and the counter keep their values, no cell outside the
    global lists is written, so every thread-local list is intact, and the
    bytes reported by [memoryInGlobalFreeList] are the same. *)
Theorem defrag_frame cfg fuel st own :
  WF cfg st own → fuel_enough fuel own →
  ∃ st', defrag cfg fuel st = Ok st'
    ∧ s_tp st' = s_tp st ∧ s_blocks st' = s_blocks st
    ∧ s_nettoAlloc st' = s_nettoAlloc st
    ∧ (∀ x, (∀ sz, x ∉ own (Global sz)) → heap st' !! x = heap st !! x)
    ∧ (∀ sz p, s_tp st !! sz = Some p → is_list (heap st') p (own (Local sz)))
    ∧ memoryInGlobalFreeList cfg st' = memoryInGlobalFreeList cfg st.
Proof.
  intros Hwf Hfuel.
  destruct (defrag_spec cfg fuel st own Hwf Hfuel)
    as (st' & Hrun & Hwf' & Htp & Hbl & Hna & _ & Hheap).
  exists st'. repeat (split; [done|]). split; [|split].
  - intros x Hx. apply Hheap. intros sz _ _. apply Hx.
  - intros sz p Hp. rewrite <- Htp in Hp.
    by apply (wf_local _ _ _ Hwf' sz p Hp).
  - unfold memoryInGlobalFreeList.
    rewrite (unguardedMemGlobalFreelist_counts cfg _ _ Hwf).
    rewrite (unguardedMemGlobalFreelist_counts cfg _ _ Hwf').
    f_equal. apply global_bytes_ext. intros sz _. by rewrite defrag_on_length.
Qed.

Lemma defrag_frame_witness :
  ∃ st', defrag (cfg_small false) 8 sample_flushed = Ok st'
    ∧ s_tp st' = s_tp sample_flushed
    ∧ memoryInGlobalFreeList (cfg_small false) st' = Ok 32.
Proof.
  destruct (defrag_frame (cfg_small false) 8 sample_flushed own_flushed)
    as (st' & Hrun & Htp & _ & _ & _ & _ & Hmem).
  - apply sample_flushed_WF.
  - apply own_flushed_short. lia.
  - exists st'. split; [exact Hrun|]. split; [exact Htp|]. exact Hmem.
Defined.

Lemma std_sort_id a : StronglySorted Z.le a → std_sort a = a.
Proof.
  intros Hs. apply (StronglySorted_unique Z.le); [apply std_sort_sorted | done |].
  apply std_sort_Permutation.
Qed.

(** Linking a chain the way it is already linked writes nothing new. *)
Lemma relink_id a : ∀ h p, a ≠ [] → is_list h p a → relink h a = Ok h.
Proof.
  induction a as [|x a IH]; intros h p Hne Hl; [done|].
  destruct Hl as (-> & Hx & r & Hr & Hl). destruct a as [|y a].
  - simpl in Hl. subst r. simpl. rewrite store_Ok by done. by rewrite insert_id.
  - pose proof Hl as (-> & _). cbn [relink]. rewrite store_Ok by done.
    rewrite insert_id by done. rewrite bind_Ok_l. by eapply IH.
Qed.

Lemma defrag_class_sorted cfg fuel maxSize st own sz :
  WF cfg st own → (sz < eTableSize cfg)%nat →
  StronglySorted Z.le (own (Global sz)) →
  (length (own (Global sz)) < fuel)%nat →
  Z.of_nat (length (own (Global sz))) ≤ maxSize →
  defrag_class cfg fuel maxSize sz st = Ok st.
Proof.
  intros Hwf Hsz Hsorted Hfuel Hmax.
  destruct (WF_pool_lookup cfg _ _ _ Hwf Hsz) as [pe Hpe].
  destruct (wf_global _ _ _ Hwf _ _ Hpe) as [Hl Hcount].
  unfold defrag_class. rewrite (pool_get_Ok _ _ _ Hpe), bind_Ok_l.
  destruct (decide (m_size pe > 1)) as [Hbig|]; [|done].
  rewrite (collect_spec _ _ _ _ _ Hl) by lia. rewrite bind_Ok_l.
  rewrite decide_True by done. rewrite std_sort_id by done.
  assert (Hhd : hd nullptr (own (Global sz)) = m_gp pe).
  { destruct (own (Global sz)); [simpl in Hcount; lia|]. by destruct Hl as (-> & _). }
  assert (Hst : set_pool sz (mkPoolElement (hd nullptr (own (Global sz))) (m_size pe)) st
                = st).
  { rewrite Hhd. destruct st as [h tp pool bl na], pe as [gp n]. unfold set_pool. simpl.
    simpl in Hpe. by rewrite list_insert_id. }
  rewrite Hst. rewrite (relink_id _ _ (m_gp pe)); [by destruct st | | done].
  intros Hnil. rewrite Hnil in Hcount. simpl in Hcount. lia.
Qed.

Lemma defrag_loop_sorted cfg fuel maxSize st own l :
  WF cfg st own → (∀ sz, sz ∈ l → (sz < eTableSize cfg)%nat) →
  (∀ sz, sz ∈ l → StronglySorted Z.le (own (Global sz))) →
  (∀ sz, (length (own (Global sz)) < fuel)%nat) →
  (∀ sz, sz ∈ l → Z.of_nat (length (own (Global sz))) ≤ maxSize) →
  for_each (defrag_class cfg fuel maxSize) l st = Ok st.
Proof.
  intros Hwf. induction l as [|sz l IH]; intros Hlt Hsorted Hfuel Hmax; [done|].
  cbn [for_each]. rewrite (defrag_class_sorted cfg fuel maxSize st own sz);
    [| done | apply Hlt; left | apply Hsorted; left | done | apply Hmax; left].
  rewrite bind_Ok_l. apply IH; intros; [apply Hlt | apply Hsorted | done | apply Hmax];
    by right.
Qed.

(** X9. [defrag] is idempotent: a second call finds every list in order,
    relinks it the way it is linked and leaves the state exactly as it is. *)
Theorem defrag_idempotent cfg fuel st own st1 :
  WF cfg st own → fuel_enough fuel own →
  defrag cfg fuel st = Ok st1 → defrag cfg fuel st1 = Ok st1.
Proof.
  intros Hwf Hfuel Hrun.
  destruct (defrag_spec cfg fuel st own Hwf Hfuel) as (st' & Hrun' & Hwf1 & _).
  rewrite Hrun in Hrun'. injection Hrun' as <-.
  assert (Hsorted : ∀ sz, sz ∈ sizes cfg →
            StronglySorted Z.le (defrag_on (sizes cfg) own (Global sz))).
  { intros sz Hsz. unfold defrag_on. destruct (decide _) as [|Hsmall].
    - apply std_sort_sorted.
    - destruct (own (Global sz)) as [|x [|y l]]; [constructor | by repeat constructor |].
      exfalso. apply Hsmall. split; [done | simpl; lia]. }
  assert (Hfuel1 : ∀ sz, (length (defrag_on (sizes cfg) own (Global sz)) < fuel)%nat).
  { intros sz. rewrite defrag_on_length. apply Hfuel. }
  unfold defrag.
  destruct (max_size_spec cfg st1 _ (sizes cfg) 0 Hwf1) as (M & -> & _ & HM).
  { by intros sz [_ ?]%elem_of_sizes. }
  rewrite bind_Ok_l. destruct (decide (M > 1)); [|done].
  apply (defrag_loop_sorted cfg fuel M st1 _ (sizes cfg) Hwf1); try done.
  by intros sz [_ ?]%elem_of_sizes.
Qed.

Lemma defrag_idempotent_witness :
  ∃ st1, defrag (cfg_small false) 8 sample_flushed = Ok st1
    ∧ defrag (cfg_small false) 8 st1 = Ok st1.
Proof.
  assert (Hrun : ∃ st1, defrag (cfg_small false) 8 sample_flushed = Ok st1)
    by (eexists; vm_compute; reflexivity).
  destruct Hrun as [st1 Hrun]. exists st1. split; [exact Hrun|].
  apply (defrag_idempotent (cfg_small false) 8 sample_flushed own_flushed st1).
  - apply sample_flushed_WF.
  - apply own_flushed_short. lia.
  - exact Hrun.
Defined.

(** X10. After [defrag] a refill from the global pool starts at the lowest
    address: when the local list of a class is empty and its global list
    holds at least the [N] cells of a batch, [defrag] followed by
    [allocate] returns the cell of the global list with the lowest address,
    and takes no new block. *)
Theorem defrag_then_allocate_lowest cfg fuel blk st own sz W N :
  constants_ok cfg → WF cfg st own → fuel_enough fuel own →
  (0 < sz < eTableSize cfg)%nat → own (Local sz) = [] →
  slicesPerBlock cfg (Nat.max sz (uint16 (eMinBytes cfg))) = (W, N) →
  N ≤ Z.of_nat (length (own (Global sz))) →
  ∃ st1 p st2, defrag cfg fuel st = Ok st1
    ∧ allocate cfg blk sz st1 = Ok (p, st2)
    ∧ p ∈ own (Global sz) ∧ (∀ x, x ∈ own (Global sz) → p ≤ x)
    ∧ s_blocks st2 = s_blocks st.
Proof.
  intros Hconst Hwf Hfuel Hsz HL HWN Hlen.
  pose proof Hconst as ([Hptr Hblock] & Htab & Hslices).
  pose proof (Hslices sz Hsz) as HN. rewrite HWN in HN. simpl in HN.
  destruct (defrag_spec cfg fuel st own Hwf Hfuel) as (st1 & Hrun & Hwf1 & _ & Hbl & _).
  set (g := std_sort (own (Global sz))).
  assert (HG1 : defrag_on (sizes cfg) own (Global sz) = g).
  { unfold defrag_on. rewrite decide_True; [done|].
    split; [by apply elem_of_sizes | lia]. }
  assert (Hglen : length g = length (own (Global sz))).
  { unfold g. by rewrite std_sort_Permutation. }
  pose proof (take_drop (Z.to_nat N) g) as Hsplit.
  destruct (take (Z.to_nat N) g) as [|a g1] eqn:Htake.
  { apply (f_equal length) in Htake. rewrite length_take_le in Htake by lia.
    simpl in Htake. lia. }
  destruct (fillPool_global cfg st1 _ blk sz W N a g1 (drop (Z.to_nat N) g)
              Hwf1 (proj2 Hsz) HWN)
    as (st2 & Hrun2 & _ & Hbl2 & _); [done | by rewrite HG1 | |].
  { rewrite <- Htake, length_take_le by lia. lia. }
  exists st1, a, st2. split; [done|].
  split; [by rewrite (allocate_empty cfg st1 _ blk sz Hwf1) by (lia || done)|].
  assert (Hsorted : StronglySorted Z.le g) by apply std_sort_sorted.
  rewrite <- Hsplit in Hsorted. simpl in Hsorted.
  apply StronglySorted_inv in Hsorted as [_ Hall].
  assert (Hin : ∀ x, x ∈ own (Global sz) ↔ x ∈ a :: g1 ++ drop (Z.to_nat N) g).
  { intros x. rewrite <- (std_sort_Permutation (own (Global sz))). fold g.
    change (x ∈ g ↔ x ∈ (a :: g1) ++ drop (Z.to_nat N) g). by rewrite Hsplit. }
  split; [apply Hin; left|]. split; [|congruence].
  intros x [->|Hx]%Hin%elem_of_cons; [lia|].
  rewrite Forall_forall in Hall. by apply Hall.
Qed.

Lemma defrag_then_allocate_lowest_witness :
  ∃ st1 p st2, defrag (cfg_small false) 8 sample_flushed = Ok st1
    ∧ allocate (cfg_small false) 3000 8 st1 = Ok (p, st2)
    ∧ p ∈ [1008; 1000; 1016; 1024] ∧ (∀ x, x ∈ [1008; 1000; 1016; 1024] → p ≤ x)
    ∧ s_blocks st2 = s_blocks sample_flushed.
Proof.
  apply (defrag_then_allocate_lowest (cfg_small false) 8 3000 sample_flushed
           own_flushed 8 1 4).
  - apply constants_ok_small.
  - apply sample_flushed_WF.
  - apply own_flushed_short. lia.
  - simpl. lia.
  - reflexivity.
  - reflexivity.
  - simpl. lia.
Defined.

(** ** The block chain over a run *)

Lemma blist_app cfg h bl1 : ∀ p bl2,
  blist cfg h p (bl1 ++ bl2) → ∃ r, blist cfg h r bl2.
Proof.
  induction bl1 as [|b bl1 IH]; intros p bl2; simpl; [by eauto|].
  intros (_ & _ & q & _ & Hl). by eapply IH.
Qed.

Lemma blist_NoDup cfg h p bl : blist cfg h p bl → NoDup bl.
Proof.
  revert p. induction bl as [|b bl IH]; intros p; [constructor|].
  intros Hl. pose proof Hl as (-> & Hb & q & Hq & Hl').
  constructor; [|by eapply IH].
  intros Hin. apply list_elem_of_split in Hin as (l1 & l2 & ->).
  apply blist_app in Hl' as (r & Hl2). pose proof Hl2 as (-> & _).
  pose proof (blist_func cfg _ _ _ _ Hl Hl2) as Heq.
  apply (f_equal length) in Heq. rewrite !length_cons, length_app, length_cons in Heq. lia.
Qed.

Lemma blist_dom cfg h p bl b :
  blist cfg h p bl → b ∈ bl → is_Some (h !! block_link cfg b).
Proof.
  revert p. induction bl as [|b' bl IH]; intros p; simpl.
  - intros _ Hb. by apply elem_of_nil in Hb.
  - intros (-> & _ & q & Hq & Hl) [->|Hb]%elem_of_cons; [by eexists | eauto].
Qed.

(** The links of the blocks of a chain are as many cells of the memory. *)
Lemma blist_length_le_size cfg h p bl :
  blist cfg h p bl → (length bl ≤ size h)%nat.
Proof.
  intros Hl. rewrite <- (length_fmap (block_link cfg)).
  apply length_le_size.
  - apply NoDup_fmap_2; [|by eapply blist_NoDup].
    intros x y. unfold block_link. lia.
  - intros x (b & -> & Hb)%list_elem_of_fmap. by eapply blist_dom.
Qed.

Lemma count_blocks_spec cfg h bl : ∀ fuel p n,
  blist cfg h p bl → (length bl < fuel)%nat →
  count_blocks cfg fuel h p n = Ok (n + Z.of_nat (length bl)).
Proof.
  induction bl as [|b bl IH]; intros fuel p n Hl Hfuel;
    (destruct fuel as [|fuel]; [simpl in Hfuel; lia|]); simpl in Hl |- *.
  - subst p. rewrite decide_False by (intros H; by apply H). f_equal. lia.
  - destruct Hl as (-> & Hb & q & Hq & Hl). rewrite decide_True by done.
    unfold load_link. rewrite decide_False by done. rewrite Hq. simpl defined.
    rewrite bind_Ok_l. rewrite (IH fuel q (n + 1)) by (done || simpl in Hfuel; lia).
    f_equal. lia.
Qed.

(** Blocks that do not overlap do not hold each other's links. *)
Lemma blocks_apart_disjoint cfg bl :
  0 < OGDF_SIZEOF_POINTER cfg < eBlockSize cfg → NoDup bl →
  (∀ b b', b ∈ bl → b' ∈ bl → b = b' ∨ blocks_disjoint cfg b b') →
  blocks_apart cfg bl.
Proof.
  intros Hptr. induction bl as [|b bl IH]; intros Hnd Hdis; simpl; [done|].
  apply NoDup_cons in Hnd as [Hb Hnd]. split.
  - intros b' Hb'. destruct (Hdis b b') as [->|Hd]; [left | by right | done |].
    unfold in_block, block_link, blockCapacity, blocks_disjoint in *. lia.
  - apply IH; [done|]. intros b1 b2 H1 H2. apply Hdis; by right.
Qed.

(** Over a run the chain only grows, and only by blocks of the provider. *)
Lemma run_Inv_chain cfg cs : ∀ st held own bl st' held',
  constants_ok cfg → Inv cfg st held own bl → run cfg st held cs st' held' →
  ∃ own' bl', Inv cfg st' held' own' bl'
    ∧ ∀ b, b ∈ bl' → b ∈ bl ∨ ∃ sz, Allocate b sz ∈ cs.
Proof.
  induction cs as [|c cs IH]; intros st held own bl st' held' Hconst Hinv Hrun.
  - inversion Hrun; subst. exists own, bl. split; [done|]. by left.
  - inversion Hrun as [|? ? ? ? fuel r st1 held1 ? ? Hok Hfuel Hcall Hstep Hrest]; subst.
    destruct (Inv_step_chain cfg fuel st held own bl c r st1 held1)
      as (own1 & bl1 & Hinv1 & _ & Hbl1); [done..|].
    destruct (IH _ _ _ _ _ _ Hconst Hinv1 Hrest) as (own' & bl' & Hinv' & Hfrom).
    exists own', bl'. split; [done|]. intros b Hb.
    destruct (Hfrom b Hb) as [Hb1|[sz Hsz]].
    + destruct Hbl1 as [->|(blk & sz & -> & ->)]; [by left|].
      apply elem_of_cons in Hb1 as [->|Hb1]; [|by left].
      right. exists sz. left.
    + right. exists sz. by right.
Qed.

Lemma sample_chain_back_run :
  run (cfg_small false) (initial_state (cfg_small false)) []
      sample_calls sample_chain_back [1016].
Proof.
  assert (Hone : ∀ h, h !! block_link (cfg_small false) 1000 = Some nullptr →
            blist (cfg_small false) h 1000 [1000]).
  { intros h Hh. split; [done|]. split; [done|]. by exists nullptr. }
  assert (Hfree : ∀ b blk, 2000 ≤ blk → b ∈ [1000] →
            blocks_disjoint (cfg_small false) b blk).
  { intros b blk Hblk ->%list_elem_of_singleton. left. simpl. lia. }
  unfold sample_calls. eapply (run_cons _ _ _ _ _ 8%nat).
  { split; [simpl; lia|]. apply (provider_fresh_chain _ _ []); [lia | done |].
    intros b []%elem_of_nil. }
  { vm_compute. lia. }
  { vm_compute. reflexivity. }
  { exists 1000. split; [reflexivity|]. split; [unfold nullptr; lia | reflexivity]. }
  eapply (run_cons _ _ _ _ _ 8%nat).
  { split; [simpl; lia|]. apply (provider_fresh_chain _ _ [1000]); [lia | |].
    - apply Hone. vm_compute. reflexivity.
    - intros b Hb. apply Hfree; [lia | done]. }
  { vm_compute. lia. }
  { vm_compute. reflexivity. }
  { exists 1008. split; [reflexivity|]. split; [unfold nullptr; lia | reflexivity]. }
  eapply (run_cons _ _ _ _ _ 8%nat).
  { split; [simpl; lia|]. apply (provider_fresh_chain _ _ [1000]); [lia | |].
    - apply Hone. vm_compute. reflexivity.
    - intros b Hb. apply Hfree; [lia | done]. }
  { vm_compute. lia. }
  { vm_compute. reflexivity. }
  { exists 1016. split; [reflexivity|]. split; [unfold nullptr; lia | reflexivity]. }
  eapply (run_cons _ _ _ _ _ 8%nat).
  { simpl. right. left. }
  { vm_compute. lia. }
  { vm_compute. reflexivity. }
  { reflexivity. }
  eapply (run_cons _ _ _ _ _ 8%nat).
  { split; [simpl; lia|]. exists [1008]. split; [|split].
    - split; [done|]. split; [done|]. by exists 1000.
    - repeat constructor; rewrite ?elem_of_cons, ?elem_of_nil; lia.
    - intros x. cbn [app]. rewrite !elem_of_cons, !elem_of_nil. lia. }
  { vm_compute. lia. }
  { vm_compute. reflexivity. }
  { exists [1008]. split; [|split].
    - split; [done|]. split; [done|]. by exists 1000.
    - repeat constructor; rewrite ?elem_of_cons, ?elem_of_nil; lia.
    - apply (Permutation_cons_append [1008; 1000] 1016). }
  apply run_nil.
Qed.

(** X11. In every state reached by a run, [memoryAllocatedInBlocks] returns
    [eBlockSize] times the number of blocks in the chain, and the chain
    holds, each once, blocks that the provider handed to a call of
    [allocate] of the run: no cell freed, flushed or sorted changes the
    figure. *)
Theorem memoryAllocatedInBlocks_after_run cfg cs st held fuel :
  constants_ok cfg → run cfg (initial_state cfg) [] cs st held →
  (size (heap st) < fuel)%nat →
  ∃ bl, blist cfg (heap st) (s_blocks st) bl ∧ NoDup bl
    ∧ (∀ b, b ∈ bl → ∃ sz, Allocate b sz ∈ cs)
    ∧ memoryAllocatedInBlocks cfg fuel st
      = Ok (Z.of_nat (length bl) * eBlockSize cfg).
Proof.
  intros Hconst Hrun Hfuel.
  destruct (run_Inv_chain cfg cs _ _ _ _ _ _ Hconst (Inv_initial cfg) Hrun)
    as (own & bl & Hinv & Hfrom).
  pose proof (inv_chain _ _ _ _ _ Hinv) as Hl.
  exists bl. split; [done|]. split; [by eapply blist_NoDup|]. split.
  - intros b Hb. destruct (Hfrom b Hb) as [[]%elem_of_nil|Hsz]. done.
  - unfold memoryAllocatedInBlocks.
    rewrite (count_blocks_spec cfg _ bl), bind_Ok_l; [done | done |].
    pose proof (blist_length_le_size cfg _ _ _ Hl). lia.
Qed.

Lemma memoryAllocatedInBlocks_after_run_witness :
  ∃ bl, blist (cfg_small false) (heap sample_chain_back) (s_blocks sample_chain_back) bl
    ∧ NoDup bl
    ∧ (∀ b, b ∈ bl →
         ∃ sz, Allocate b sz ∈ sample_calls)
    ∧ memoryAllocatedInBlocks (cfg_small false) 8 sample_chain_back
      = Ok (Z.of_nat (length bl) * 40).
Proof.
  apply (memoryAllocatedInBlocks_after_run (cfg_small false)
           sample_calls sample_chain_back [1016] 8).
  - apply constants_ok_small.
  - apply sample_chain_back_run.
  - vm_compute. lia.
Defined.

(** X12. What the application holds after a run: no cell twice, no null
    pointer, and every cell inside the fill area of a block that the
    provider handed to a call of [allocate] of the run, so never on the link
    of a block. *)
Theorem held_cells_distinct cfg cs st held :
  constants_ok cfg → run cfg (initial_state cfg) [] cs st held →
  NoDup held
  ∧ ∀ p, p ∈ held →
      p ≠ nullptr
      ∧ ∃ b sz, Allocate b sz ∈ cs ∧ b ≤ p < b + blockCapacity cfg.
Proof.
  intros Hconst Hrun.
  destruct (run_Inv_chain cfg cs _ _ _ _ _ _ Hconst (Inv_initial cfg) Hrun)
    as (own & bl & Hinv & Hfrom).
  pose proof (inv_held _ _ _ _ _ Hinv) as Hheld. split.
  - rewrite <- Hheld. apply (wf_separate _ _ _ (inv_wf _ _ _ _ _ Hinv)).
  - intros p Hp. rewrite <- Hheld in Hp. split; [by eapply Inv_nonnull|].
    destruct (inv_cells _ _ _ _ _ Hinv _ _ Hp) as (b & Hb & Hrange).
    destruct (Hfrom b Hb) as [[]%elem_of_nil|[sz Hsz]]. by exists b, sz.
Qed.

Lemma held_cells_distinct_witness :
  NoDup [1016]
  ∧ ∀ p, p ∈ [1016] →
      p ≠ nullptr
      ∧ ∃ b sz, Allocate b sz ∈ sample_calls
                ∧ b ≤ p < b + blockCapacity (cfg_small false).
Proof.
  apply (held_cells_distinct (cfg_small false)
           sample_calls sample_chain_back [1016]).
  - apply constants_ok_small.
  - apply sample_chain_back_run.
Defined.

(** X13. Every state reached by a run is well-formed: each entry of the two
    tables heads a chain that ends in [nullptr], the stored count of a
    global entry is the length of its chain, and no cell occurs twice among
    the local list, the global list and the cells the application holds;
    nor is a cell in the lists of two classes. *)
Theorem reachable_states_well_formed cfg cs st held :
  constants_ok cfg → run cfg (initial_state cfg) [] cs st held →
  ∃ own, WF cfg st own ∧ own Outstanding ≡ₚ held
    ∧ ∀ sz, (sz < eTableSize cfg)%nat →
        ∃ p pe, s_tp st !! sz = Some p ∧ s_pool st !! sz = Some pe
          ∧ is_list (heap st) p (own (Local sz))
          ∧ is_list (heap st) (m_gp pe) (own (Global sz))
          ∧ m_size pe = Z.of_nat (length (own (Global sz)))
          ∧ NoDup (own (Local sz) ++ own (Global sz) ++ held).
Proof.
  intros Hconst Hrun.
  destruct (run_Inv cfg cs _ _ _ _ _ _ Hconst (Inv_initial cfg) Hrun)
    as (own & bl & Hinv).
  pose proof (inv_wf _ _ _ _ _ Hinv) as Hwf.
  pose proof (inv_held _ _ _ _ _ Hinv) as Hheld.
  pose proof (wf_separate _ _ _ Hwf) as [Hnd Hsep].
  exists own. split; [done|]. split; [done|]. intros sz Hsz.
  destruct (WF_tp_lookup cfg _ _ _ Hwf Hsz) as [p Hp].
  destruct (WF_pool_lookup cfg _ _ _ Hwf Hsz) as [pe Hpe].
  destruct (wf_global _ _ _ Hwf _ _ Hpe) as [Hg Hcount].
  exists p, pe. repeat (split; [done|]).
  split; [by apply (wf_local _ _ _ Hwf)|]. split; [done|]. split; [done|].
  rewrite <- Hheld. apply NoDup_app. split; [done|]. split.
  - intros x Hx [Hx'|Hx']%elem_of_app; by specialize (Hsep _ _ _ Hx Hx').
  - apply NoDup_app. split; [done|]. split; [|done].
    intros x Hx Hx'. by specialize (Hsep _ _ _ Hx Hx').
Qed.

Lemma reachable_states_well_formed_witness :
  ∃ own, WF (cfg_small false) sample_chain_back own ∧ own Outstanding ≡ₚ [1016]
    ∧ ∀ sz, (sz < 17)%nat →
        ∃ p pe, s_tp sample_chain_back !! sz = Some p
          ∧ s_pool sample_chain_back !! sz = Some pe
          ∧ is_list (heap sample_chain_back) p (own (Local sz))
          ∧ is_list (heap sample_chain_back) (m_gp pe) (own (Global sz))
          ∧ m_size pe = Z.of_nat (length (own (Global sz)))
          ∧ NoDup (own (Local sz) ++ own (Global sz) ++ [1016]).
Proof.
  apply (reachable_states_well_formed (cfg_small false)
           sample_calls sample_chain_back [1016]).
  - apply constants_ok_small.
  - apply sample_chain_back_run.
Defined.

(** ** Teardown, once more *)

(** X14. In a release build [cleanup] checks nothing: after any run it
    hands every block of the chain to [free], each once and the newest
    first, and leaves the statics as they are.  Nothing of the blocks is
    left in memory: every cell the application still holds and every
    non-empty local head points into released memory. *)
Theorem cleanup_release_after_run cfg cs st held fuel :
  constants_ok cfg → OGDF_DEBUG cfg = false →
  run cfg (initial_state cfg) [] cs st held → (size (heap st) < fuel)%nat →
  ∃ bl h', blist cfg (heap st) (s_blocks st) bl
    ∧ cleanup cfg fuel st = Ok (set_heap h' st, bl)
    ∧ NoDup bl
    ∧ (∀ b x, b ∈ bl → in_block cfg b x → h' !! x = None)
    ∧ (∀ p, p ∈ held → h' !! p = None)
    ∧ (∀ sz p, s_tp st !! sz = Some p → p ≠ nullptr → h' !! p = None).
Proof.
  intros Hconst Hrel Hrun Hfuel. pose proof Hconst as (Hptr & _).
  destruct (run_Inv cfg cs _ _ _ _ _ _ Hconst (Inv_initial cfg) Hrun)
    as (own & bl & Hinv).
  pose proof (inv_chain _ _ _ _ _ Hinv) as Hl.
  pose proof (inv_wf _ _ _ _ _ Hinv) as Hwf.
  pose proof (blist_NoDup cfg _ _ _ Hl) as Hnd.
  destruct (cleanup_release_spec cfg fuel st bl Hrel Hl) as (h' & Hclean & Hgone).
  { apply blocks_apart_disjoint; [done | done | apply Hinv]. }
  { pose proof (blist_length_le_size cfg _ _ _ Hl). lia. }
  assert (Hcell : ∀ pl x, x ∈ own pl → h' !! x = None).
  { intros pl x Hx. destruct (inv_cells _ _ _ _ _ Hinv _ _ Hx) as (b & Hb & Hrange).
    apply (Hgone b x Hb). unfold in_block, blockCapacity in *. lia. }
  exists bl, h'. repeat (split; [done|]). split.
  - intros p Hp. apply (Hcell Outstanding). by rewrite (inv_held _ _ _ _ _ Hinv).
  - intros sz p Hp Hnz. pose proof (wf_local _ _ _ Hwf _ _ Hp) as Hlist.
    destruct (is_list_nonnull _ _ _ Hlist Hnz) as (a & l & Heq).
    rewrite Heq in Hlist. destruct Hlist as (-> & _).
    apply (Hcell (Local sz)). rewrite Heq. left.
Qed.

Lemma cleanup_release_after_run_witness :
  ∃ bl h', blist (cfg_small false) (heap sample_chain_back) (s_blocks sample_chain_back) bl
    ∧ cleanup (cfg_small false) 8 sample_chain_back = Ok (set_heap h' sample_chain_back, bl)
    ∧ NoDup bl
    ∧ (∀ b x, b ∈ bl → in_block (cfg_small false) b x → h' !! x = None)
    ∧ (∀ p, p ∈ [1016] → h' !! p = None)
    ∧ (∀ sz p, s_tp sample_chain_back !! sz = Some p → p ≠ nullptr → h' !! p = None).
Proof.
  apply (cleanup_release_after_run (cfg_small false)
           sample_calls sample_chain_back [1016] 8).
  - apply constants_ok_small.
  - reflexivity.
  - apply sample_chain_back_run.
  - vm_compute. lia.
Defined.

(** X15. [cleanup] does not reset the anchor: once it has released at least
    one block, a second [cleanup], and likewise [memoryAllocatedInBlocks],
    follows the anchor into released memory, which has no defined
    behaviour. *)
Theorem cleanup_twice_undefined cfg cs st held fuel fuel' :
  constants_ok cfg → OGDF_DEBUG cfg = false →
  run cfg (initial_state cfg) [] cs st held → (size (heap st) < fuel)%nat →
  s_blocks st ≠ nullptr →
  ∃ st' freed, cleanup cfg fuel st = Ok (st', freed)
    ∧ cleanup cfg (S fuel') st' = Undefined
    ∧ memoryAllocatedInBlocks cfg (S fuel') st' = Undefined.
Proof.
  intros Hconst Hrel Hrun Hfuel Hanchor. pose proof Hconst as (Hptr & _).
  destruct (run_Inv cfg cs _ _ _ _ _ _ Hconst (Inv_initial cfg) Hrun)
    as (own & bl & Hinv).
  pose proof (inv_chain _ _ _ _ _ Hinv) as Hl.
  destruct (cleanup_release_spec cfg fuel st bl Hrel Hl) as (h' & Hclean & Hgone).
  { apply blocks_apart_disjoint; [done | by eapply blist_NoDup | apply Hinv]. }
  { pose proof (blist_length_le_size cfg _ _ _ Hl). lia. }
  assert (Hlink : h' !! block_link cfg (s_blocks st) = None).
  { destruct bl as [|b bl]; [done|]. destruct Hl as (-> & _).
    apply (Hgone b); [left|]. unfold in_block, block_link, blockCapacity. lia. }
  exists (set_heap h' st), bl. split; [done|]. split.
  - unfold cleanup. rewrite Hrel, bind_Ok_l. st_simpl. cbn [free_chain].
    rewrite decide_True by done. unfold load_link.
    rewrite decide_False by done. by rewrite Hlink.
  - unfold memoryAllocatedInBlocks. st_simpl. cbn [count_blocks].
    rewrite decide_True by done. unfold load_link.
    rewrite decide_False by done. by rewrite Hlink.
Qed.

Lemma cleanup_twice_undefined_witness :
  ∃ st' freed, cleanup (cfg_small false) 8 sample_chain_back = Ok (st', freed)
    ∧ cleanup (cfg_small false) 1 st' = Undefined
    ∧ memoryAllocatedInBlocks (cfg_small false) 1 st' = Undefined.
Proof.
  apply (cleanup_twice_undefined (cfg_small false)
           sample_calls sample_chain_back [1016] 8 0).
  - apply constants_ok_small.
  - reflexivity.
  - apply sample_chain_back_run.
  - vm_compute. lia.
  - vm_compute. discriminate.
Defined.

Lemma thread_walk_frame fuel sz : ∀ acc acc',
  thread_walk fuel sz acc = Ok acc' →
  heap acc'.1 = heap acc.1 ∧ s_blocks acc'.1 = s_blocks acc.1.
Proof.
  induction fuel as [|fuel IH]; intros [st n] acc'; [done|]. cbn [thread_walk].
  intros (p & _ & H)%bind_Ok. destruct (decide (p ≠ nullptr)).
  - apply bind_Ok in H as (next & _ & H). by apply IH in H.
  - by injection H as <-.
Qed.

Lemma memoryInThreadFreeList_frame cfg fuel st st' n :
  memoryInThreadFreeList cfg fuel st = Ok (st', n) →
  heap st' = heap st ∧ s_blocks st' = s_blocks st.
Proof.
  unfold memoryInThreadFreeList. generalize 0 at 1. revert st.
  induction (sizes cfg) as [|sz l IH]; intros st m; cbn [for_each].
  - by intros [= <- <-].
  - intros ([st1 m1] & H1 & Hrest)%bind_Ok.
    apply thread_walk_frame in H1 as [Hh Hb]. simpl in Hh, Hb.
    apply IH in Hrest as [-> ->]. done.
Qed.

(** X16. The assertion of [cleanup] for one class on a fresh allocator, in
    a debug build: after one cell of class [sz] has been allocated and
    returned, [cleanup] releases the block when [sz] is a whole number of
    pointer words, and stops at its assertion for every other class, the
    refill having counted whole words and the free lists the exact size. *)
Theorem cleanup_assertion_one_class cfg fuel blk sz W N p st1 st2 :
  constants_ok cfg → OGDF_DEBUG cfg = true → (0 < sz < eTableSize cfg)%nat → 0 < blk →
  slicesPerBlock cfg (Nat.max sz (uint16 (eMinBytes cfg))) = (W, N) →
  (Z.to_nat N < fuel)%nat →
  allocate cfg blk sz (initial_state cfg) = Ok (p, st1) →
  deallocate sz p st1 = Ok st2 →
  if decide (Z.of_nat sz = W * OGDF_SIZEOF_POINTER cfg)
  then ∃ st', cleanup cfg fuel st2 = Ok (st', [blk])
  else cleanup cfg fuel st2 = AssertionFailed.
Proof.
  intros Hconst Hdebug Hsz Hblk HWN Hfuel Halloc Hdealloc.
  destruct (cleanup_check_one_class cfg fuel blk sz W N p st1 st2) as [st' Hcheck];
    [done..|].
  pose proof Hconst as ([Hptr Hblock] & Htab & Hslices).
  pose proof (Hslices sz Hsz) as HN. rewrite HWN in HN. simpl in HN.
  unfold cleanup. rewrite Hdebug, Hcheck, bind_Ok_l. cbv beta iota.
  destruct (decide (Z.of_nat sz = W * OGDF_SIZEOF_POINTER cfg)) as [Heq|Hne].
  - rewrite bool_decide_eq_true_2 by done. rewrite bind_Ok_l.
    assert (Hchain : blist cfg (heap st') (s_blocks st') [blk]).
    { unfold cleanup_check in Hcheck.
      apply bind_Ok in Hcheck as (g & _ & Hcheck).
      apply bind_Ok in Hcheck as ([st0 t] & Hwalk & Hcheck).
      injection Hcheck as <- _.
      apply memoryInThreadFreeList_frame in Hwalk as [-> ->].
      rewrite (allocate_empty cfg _ nothing_held) in Halloc;
        [| apply WF_initial | lia | lia | done].
      destruct (fillPool_block cfg (initial_state cfg) nothing_held blk sz W N)
        as (s1 & Hrun1 & Hwf1 & Hanchor & Hlink & _);
        [apply WF_initial | done | done | done | done | done | simpl; lia
        | by apply nothing_held_fresh |].
      rewrite Hrun1 in Halloc. injection Halloc as <- <-.
      unfold deallocate in Hdealloc.
      apply bind_Ok in Hdealloc as (old & _ & Hdealloc).
      apply bind_Ok in Hdealloc as (h & Hst & Hdealloc). injection Hdealloc as <-.
      unfold store in Hst. destruct (decide _); [done|]. injection Hst as <-.
      st_simpl. rewrite Hanchor. simpl. split; [done|].
      split; [unfold nullptr; lia|]. exists nullptr. split; [|done].
      rewrite lookup_insert_ne by (unfold block_link, blockCapacity; lia).
      exact Hlink. }
    destruct (free_chain_spec cfg [blk] fuel (heap st') (s_blocks st'))
      as (h' & -> & _);
      [done | split; [by intros b' ?%elem_of_nil | done] | simpl; lia |].
    by eexists.
  - by rewrite bool_decide_eq_false_2 by done.
Qed.

Lemma cleanup_assertion_one_class_witness :
  ∃ st2, run_calls (cfg_small true) 8 [Allocate 1000 8; Deallocate 8 1000]
           (initial_state (cfg_small true)) = Ok st2
    ∧ ∃ st', cleanup (cfg_small true) 8 st2 = Ok (st', [1000]).
Proof.
  assert (H1 : ∃ st1, allocate (cfg_small true) 1000 8 (initial_state (cfg_small true))
                      = Ok (1000, st1)) by (eexists; vm_compute; reflexivity).
  destruct H1 as [st1 H1].
  assert (H2 : ∃ st2, deallocate 8 1000 st1 = Ok st2).
  { injection H1 as <-. eexists. vm_compute. reflexivity. }
  destruct H2 as [st2 H2]. exists st2. split.
  - cbn [run_calls run_call]. rewrite H1. cbn. rewrite H2. reflexivity.
  - exact (cleanup_assertion_one_class (cfg_small true) 8 1000 8 1 4 1000 st1 st2
             (constants_ok_small true) eq_refl ltac:(simpl; lia) ltac:(lia) eq_refl
             ltac:(simpl; lia) H1 H2).
Defined.

(** ** Cells of a new block *)

Lemma take_slice_addrs cfg p w n k :
  (k ≤ n)%nat → take k (slice_addrs cfg p w n) = slice_addrs cfg p w k.
Proof.
  intros Hk. unfold slice_addrs. rewrite <- fmap_take, take_seq.
  by rewrite Nat.min_l.
Qed.

Lemma slicesPerBlock_fits cfg n W N :
  0 < OGDF_SIZEOF_POINTER cfg → slicesPerBlock cfg n = (W, N) →
  Z.of_nat n ≤ W * OGDF_SIZEOF_POINTER cfg.
Proof.
  intros Hptr [= <- _].
  pose proof (Z.div_mod (Z.of_nat n + OGDF_SIZEOF_POINTER cfg - 1)
                (OGDF_SIZEOF_POINTER cfg)).
  pose proof (Z.mod_pos_bound (Z.of_nat n + OGDF_SIZEOF_POINTER cfg - 1)
                (OGDF_SIZEOF_POINTER cfg)).
  nia.
Qed.

(** X17. The cells of a new block come out in ascending order and do not
    overlap: when a class with an empty local list has to take a new block,
    the first [k] calls of [allocate], [k] at most the slices per block,
    return the block start plus [i] slices for [i = 0 .. k-1]; each cell
    has room for the [sz] bytes asked for before the next one starts, and
    all of them end before the link of the block. *)
Theorem allocate_from_new_block cfg st own blk blks sz W N k :
  constants_ok cfg → WF cfg st own → (0 < sz < eTableSize cfg)%nat →
  own (Local sz) = [] → Z.of_nat (length (own (Global sz))) < N →
  fresh_block cfg own blk →
  slicesPerBlock cfg (Nat.max sz (uint16 (eMinBytes cfg))) = (W, N) →
  (k < Z.to_nat N)%nat → length blks = k →
  ∃ st', allocate_n cfg (blk :: blks) sz st = Ok (slice_addrs cfg blk W (S k), st')
    ∧ (∀ (i j : nat) x y, (i < j)%nat →
         slice_addrs cfg blk W (S k) !! i = Some x →
         slice_addrs cfg blk W (S k) !! j = Some y → x + Z.of_nat sz ≤ y)
    ∧ (∀ x, x ∈ slice_addrs cfg blk W (S k) →
         blk ≤ x ∧ x + Z.of_nat sz ≤ block_link cfg blk).
Proof.
  intros Hconst Hwf Hsz HL HG Hfresh HWN Hk Hblks.
  pose proof Hconst as ([Hptr Hblock] & Htab & Hslices).
  pose proof (Hslices sz Hsz) as HN. rewrite HWN in HN. simpl in HN.
  destruct (slicesPerBlock_bounds cfg (Nat.max sz (uint16 (eMinBytes cfg))) W N)
    as [HW Hcap]; [done | lia | done |].
  pose proof (slicesPerBlock_fits cfg _ W N Hptr HWN) as Hfit.
  assert (Hroom : Z.of_nat sz ≤ W * OGDF_SIZEOF_POINTER cfg) by lia.
  destruct (fillPool_block cfg st own blk sz W N)
    as (st1 & Hrun1 & Hwf1 & _); [done..|].
  destruct (WF_tp_lookup cfg _ _ _ Hwf1 (proj2 Hsz)) as [q Hq].
  pose proof (wf_local _ _ _ Hwf1 _ _ Hq) as Hlist. revert Hlist. fn_simpl.
  set (rest := tail (slice_addrs cfg blk W (Z.to_nat N))). intros Hlist.
  assert (Hrest : slice_addrs cfg blk W (Z.to_nat N) = blk :: rest).
  { unfold rest. destruct (Z.to_nat N) as [|n] eqn:E; [lia|]. by rewrite slice_addrs_S. }
  assert (Hlen : length rest = (Z.to_nat N - 1)%nat).
  { apply (f_equal length) in Hrest. rewrite length_slice_addrs in Hrest.
    simpl in Hrest. lia. }
  unfold is_list in Hlist. rewrite <- (take_drop k rest) in Hlist.
  apply lseg_app in Hlist as (r & Hchain & _).
  destruct (allocate_n_chain cfg (take k rest) blks sz st1 q r) as (st2 & Hrun2 & _).
  { rewrite length_take_le; lia. }
  { done. }
  { done. }
  { eapply sublist_NoDup; [|apply sublist_take].
    apply (NoDup_cons_1_2 blk). rewrite <- Hrest. by apply slice_addrs_NoDup. }
  assert (Hcells : slice_addrs cfg blk W (S k) = blk :: take k rest).
  { rewrite <- (take_slice_addrs cfg blk W (Z.to_nat N) (S k)) by lia.
    by rewrite Hrest. }
  exists st2. split; [|split].
  - cbn [allocate_n]. rewrite (allocate_empty cfg st own) by (done || lia).
    rewrite Hrun1, bind_Ok_l. cbv beta iota. rewrite Hrun2, bind_Ok_l.
    by rewrite Hcells.
  - intros i j x y Hij Hi Hj.
    assert (j < S k)%nat as Hjk.
    { apply lookup_lt_Some in Hj. by rewrite length_slice_addrs in Hj. }
    rewrite slice_addrs_lookup in Hi, Hj by lia.
    injection Hi as <-. injection Hj as <-. nia.
  - intros x (i & Hi & ->)%elem_of_slice_addrs.
    unfold block_link. split; nia.
Qed.

Lemma allocate_from_new_block_witness :
  ∃ st', allocate_n (cfg_small false) [1000; 0; 0] 8 (initial_state (cfg_small false))
         = Ok ([1000; 1008; 1016], st').
Proof.
  destruct (allocate_from_new_block (cfg_small false) (initial_state (cfg_small false))
              nothing_held 1000 [0; 0] 8 1 4 2) as (st' & Hrun & _).
  - apply constants_ok_small.
  - apply WF_initial.
  - simpl. lia.
  - reflexivity.
  - simpl. lia.
  - apply nothing_held_fresh. lia.
  - reflexivity.
  - simpl. lia.
  - reflexivity.
  - exists st'. exact Hrun.
Defined.

(** ** What the application holds is left alone *)

Lemma allocate_keeps_held cfg st own blk sz p st' x :
  constants_ok cfg → WF cfg st own → (0 < sz < eTableSize cfg)%nat →
  fresh_block cfg own blk → allocate cfg blk sz st = Ok (p, st') →
  x ∈ own Outstanding → heap st' !! x = heap st !! x.
Proof.
  intros ([Hptr Hblock] & Htab & Hslices) Hwf Hsz Hfresh Hrun Hx.
  pose proof (wf_separate _ _ _ Hwf) as Hsep.
  destruct (own (Local sz)) as [|a l] eqn:HL.
  - rewrite (allocate_empty cfg st own) in Hrun by (done || lia).
    destruct (slicesPerBlock cfg (Nat.max sz (uint16 (eMinBytes cfg)))) as [W N] eqn:HWN.
    pose proof (Hslices sz Hsz) as HN. rewrite HWN in HN. simpl in HN.
    destruct (decide (N ≤ Z.of_nat (length (own (Global sz))))) as [Hge|Hlt].
    + pose proof (take_drop (Z.to_nat N) (own (Global sz))) as Hsplit.
      destruct (take (Z.to_nat N) (own (Global sz))) as [|a g1] eqn:Htake.
      { apply (f_equal length) in Htake. rewrite length_take_le in Htake by lia.
        simpl in Htake. lia. }
      destruct (fillPool_global cfg st own blk sz W N a g1
                  (drop (Z.to_nat N) (own (Global sz))))
        as (st1 & Hrun1 & _ & _ & _ & Hframe & _); [done | lia | done | done | done | |].
      { rewrite <- Htake, length_take_le by lia. lia. }
      rewrite Hrun1 in Hrun. injection Hrun as <- <-. apply Hframe. intros Hin.
      assert (x ∈ own (Global sz)) as Hg.
      { rewrite <- Hsplit. apply elem_of_app. by left. }
      by pose proof (proj2 Hsep _ _ _ Hx Hg).
    + destruct (fillPool_block cfg st own blk sz W N)
        as (st1 & Hrun1 & _ & _ & _ & _ & _ & Hframe & _);
        [done | done | done | done | done | done | lia | done |].
      rewrite Hrun1 in Hrun. injection Hrun as <- <-. apply Hframe.
      by apply (proj2 Hfresh Outstanding).
  - destruct (allocate_fast cfg st own blk sz a l) as (r & _ & Hrun1 & _);
      [done | lia | done |].
    rewrite Hrun1 in Hrun. injection Hrun as <- <-. st_simpl.
    apply lookup_insert_ne. intros <-.
    assert (a ∈ own (Local sz)) as Hl by (rewrite HL; left).
    by pose proof (proj2 Hsep _ _ _ Hx Hl).
Qed.

Lemma step_keeps_held cfg fuel st own c r st' x :
  constants_ok cfg → WF cfg st own → call_ok cfg st own c → fuel_enough fuel own →
  run_call cfg fuel c st = Ok (r, st') → x ∈ own Outstanding →
  (∀ sz, c ≠ Deallocate sz x) → (∀ sz h, c ≠ DeallocateList sz h x) →
  (∀ v, c ≠ Store x v) →
  heap st' !! x = heap st !! x.
Proof.
  intros Hconst Hwf Hok Hfuel Hrun Hx Hd Hdl Hs.
  pose proof (wf_separate _ _ _ Hwf) as Hsep.
  destruct c as [blk sz|sz p|sz h t| | |p v]; simpl in Hok, Hrun.
  - destruct Hok as [Hsz Hfresh].
    apply bind_Ok in Hrun as ([p st1] & Hrun & [= <- <-]).
    by eapply allocate_keeps_held.
  - apply bind_Ok in Hrun as (st1 & Hrun & [= <- <-]).
    unfold deallocate in Hrun. apply bind_Ok in Hrun as (old & _ & Hrun).
    apply bind_Ok in Hrun as (h & Hst & [= <-]). st_simpl.
    unfold store in Hst. destruct (decide _); [done|]. injection Hst as <-.
    apply lookup_insert_ne. intros ->. by apply (Hd sz).
  - apply bind_Ok in Hrun as (st1 & Hrun & [= <- <-]).
    unfold deallocateList in Hrun. apply bind_Ok in Hrun as (old & _ & Hrun).
    apply bind_Ok in Hrun as (h0 & Hst & [= <-]). st_simpl.
    unfold store in Hst. destruct (decide _); [done|]. injection Hst as <-.
    apply lookup_insert_ne. intros ->. by apply (Hdl sz h).
  - apply bind_Ok in Hrun as (st1 & Hrun & [= <- <-]).
    destruct (flush_loop cfg fuel (sizes cfg) st own) as (st2 & Hrun2 & _ & _ & _ & _ & Hheap);
      [apply NoDup_sizes | by intros sz [_ ?]%elem_of_sizes | done | |].
    { intros sz. destruct (Hfuel sz). lia. }
    unfold flushPool in Hrun. rewrite decide_True in Hrun by apply Hconst.
    rewrite Hrun2 in Hrun. injection Hrun as <-. apply Hheap.
    intros sz _ Hl. by pose proof (proj2 Hsep _ _ _ Hx Hl).
  - apply bind_Ok in Hrun as (st1 & Hrun & [= <- <-]).
    destruct (defrag_spec cfg fuel st own Hwf Hfuel)
      as (st2 & Hrun2 & _ & _ & _ & _ & _ & Hheap).
    rewrite Hrun2 in Hrun. injection Hrun as <-. apply Hheap.
    intros sz _ _ Hg. by pose proof (proj2 Hsep _ _ _ Hx Hg).
  - apply bind_Ok in Hrun as (h & Hst & [= <- <-]). st_simpl.
    unfold store in Hst. destruct (decide _); [done|]. injection Hst as <-.
    apply lookup_insert_ne. intros ->. by apply (Hs v).
Qed.

(** X18. No call writes into a cell the application holds: from a state
    reached by a run, a step within the contract leaves the first word of
    every held cell as it is, unless it is the [deallocate] of that very
    cell, a [deallocateList] with that cell as the tail of the chain, or the
    application's own store into the cell. *)
Theorem held_cells_untouched cfg cs st held c fuel r st' x :
  constants_ok cfg → run cfg (initial_state cfg) [] cs st held →
  client_ok cfg st held c → (size (heap st) < fuel)%nat →
  run_call cfg fuel c st = Ok (r, st') → x ∈ held →
  (∀ sz, c ≠ Deallocate sz x) → (∀ sz h, c ≠ DeallocateList sz h x) →
  (∀ v, c ≠ Store x v) →
  heap st' !! x = heap st !! x.
Proof.
  intros Hconst Hrun Hok Hfuel Hcall Hx Hd Hdl Hs. pose proof Hconst as (Hptr & _).
  destruct (run_Inv cfg cs _ _ _ _ _ _ Hconst (Inv_initial cfg) Hrun)
    as (own & bl & Hinv).
  pose proof (inv_wf _ _ _ _ _ Hinv) as Hwf.
  eapply (step_keeps_held cfg fuel st own c); try done.
  - by eapply Inv_call_ok.
  - by eapply fuel_enough_heap.
  - by rewrite (inv_held _ _ _ _ _ Hinv).
Qed.

Lemma held_cells_untouched_witness :
  ∃ st', run_call (cfg_small false) 8 (Allocate 4000 8) sample_chain_back
         = Ok (Some 1008, st')
    ∧ heap st' !! 1016 = heap sample_chain_back !! 1016.
Proof.
  assert (Hcall : ∃ st', run_call (cfg_small false) 8 (Allocate 4000 8) sample_chain_back
                         = Ok (Some 1008, st')) by (eexists; vm_compute; reflexivity).
  destruct Hcall as [st' Hcall]. exists st'. split; [exact Hcall|].
  apply (held_cells_untouched (cfg_small false) sample_calls sample_chain_back [1016]
           (Allocate 4000 8) 8 (Some 1008) st' 1016).
  - apply constants_ok_small.
  - apply sample_chain_back_run.
  - split; [simpl; lia|]. apply (provider_fresh_chain _ _ [1000]); [lia | |].
    + split; [done|]. split; [done|]. by exists nullptr.
    + intros b ->%list_elem_of_singleton. left. simpl. lia.
  - vm_compute. lia.
  - exact Hcall.
  - left.
  - discriminate.
  - discriminate.
  - discriminate.
Defined.

(** ** Returning cells in bulk *)

Lemma deallocate_all_app sz ps1 : ∀ ps2 st,
  deallocate_all sz (ps1 ++ ps2) st
  = st1 ← deallocate_all sz ps1 st; deallocate_all sz ps2 st1.
Proof.
  induction ps1 as [|p ps1 IH]; intros ps2 st; simpl; [done|].
  destruct (deallocate sz p st) as [st1| | |]; simpl; [|done..]. apply IH.
Qed.

(** Returning the cells of a chain that leads to the head of the class,
    last cell first, only moves the head to the start of the chain. *)
Lemma deallocate_all_chain sz l : ∀ st h t,
  lseg (heap st) h t l → s_tp st !! sz = Some t →
  deallocate_all sz (reverse l) st = Ok (set_tp sz h st).
Proof.
  induction l as [|a l IH]; intros st h t Hl Ht.
  - simpl in Hl. subst h. simpl. by rewrite set_tp_id.
  - destruct Hl as (-> & Ha & r & Hr & Hl).
    rewrite reverse_cons, deallocate_all_app, (IH st r t Hl Ht), bind_Ok_l.
    cbn [deallocate_all].
    rewrite (deallocate_Ok sz a (set_tp sz r st) r);
      [| simpl; apply list_lookup_insert_eq; by eapply lookup_lt_Some | done].
    rewrite bind_Ok_l. f_equal. st_simpl. rewrite insert_id by done.
    destruct st as [hp tp pool bl na]. unfold set_tp, set_heap. simpl.
    by rewrite list_insert_insert_eq.
Qed.

(** X19. [deallocateList] is [deallocate] in bulk: handing back a chain
    that is linked from its head to its tail leaves the allocator in exactly
    the state reached by returning its cells one by one with [deallocate],
    the tail first and the head last. *)
Theorem deallocateList_as_deallocates sz st h t l :
  (sz < length (s_tp st))%nat → lseg (heap st) h t l → t ≠ nullptr → t ∉ l →
  ∃ st1, deallocateList sz h t st = Ok st1
    ∧ deallocate_all sz (reverse (l ++ [t])) st = Ok st1.
Proof.
  intros Hsz Hl Ht Htl. destruct (lookup_lt_is_Some_2 (s_tp st) sz Hsz) as [old Hold].
  eexists. split.
  { unfold deallocateList. rewrite (tp_get_Ok _ _ _ Hold), bind_Ok_l.
    by rewrite store_Ok by done. }
  rewrite reverse_app. cbn [reverse rev_append app deallocate_all].
  rewrite (deallocate_Ok sz t st old) by done. rewrite bind_Ok_l.
  rewrite (deallocate_all_chain sz l _ h t).
  - f_equal. destruct st as [hp tp pool bl na]. unfold set_tp, set_heap. simpl.
    by rewrite list_insert_insert_eq.
  - simpl. by apply lseg_frame.
  - simpl. by apply list_lookup_insert_eq.
Qed.

Lemma deallocateList_as_deallocates_witness :
  ∃ st1, deallocateList 8 100 300 sample_chain_state = Ok st1
    ∧ deallocate_all 8 [300; 200; 100] sample_chain_state = Ok st1.
Proof.
  apply (deallocateList_as_deallocates 8 sample_chain_state 100 300 [100; 200]).
  - simpl. lia.
  - simpl. unfold nullptr. repeat split; try lia.
    exists 200. split; [reflexivity|]. repeat split; try lia.
    exists 300. split; reflexivity.
  - unfold nullptr. lia.
  - rewrite !elem_of_cons, elem_of_nil. lia.
Defined.

(** X20. Cells taken from a local list and returned in the reverse order
    leave no trace: when the list of a class starts with the cells [c],
    [allocate] called once per cell returns them in order, and returning
    them, the last one first, restores the allocator state as it was. *)
Theorem allocate_n_then_deallocate_reverse cfg c : ∀ blks sz st p q,
  length blks = length c → s_tp st !! sz = Some p →
  lseg (heap st) p q c → NoDup c →
  ∃ st', allocate_n cfg blks sz st = Ok (c, st')
    ∧ deallocate_all sz (reverse c) st' = Ok st.
Proof.
  induction c as [|a c IH]; intros blks sz st p q Hlen Hp Hl Hnd.
  - destruct blks; [|done]. by exists st.
  - destruct blks as [|blk blks]; [done|]. destruct Hl as (-> & Ha & r & Hr & Hl).
    apply NoDup_cons in Hnd as [Hac Hnd].
    pose proof (allocate_Ok_fast cfg blk sz st a r Hp Ha Hr) as Hrun1.
    destruct (IH blks sz (set_heap (<[a:=nullptr]> (heap st)) (set_tp sz r st)) r q)
      as (st' & Hrun & Hback).
    { simpl in Hlen. lia. }
    { simpl. apply list_lookup_insert_eq. by eapply lookup_lt_Some. }
    { simpl. by apply lseg_frame. }
    { done. }
    exists st'. split.
    + cbn [allocate_n]. rewrite Hrun1, bind_Ok_l. cbv beta iota.
      by rewrite Hrun, bind_Ok_l.
    + rewrite reverse_cons, deallocate_all_app, Hback, bind_Ok_l.
      cbn [deallocate_all].
      rewrite (allocate_fast_undone cfg blk sz st a a _ Hp Ha Hrun1). done.
Qed.

Lemma allocate_n_then_deallocate_reverse_witness :
  ∃ st', allocate_n (cfg_small false) [0; 0] 8 sample_returned = Ok ([1008; 1000], st')
    ∧ deallocate_all 8 [1000; 1008] st' = Ok sample_returned.
Proof.
  apply (allocate_n_then_deallocate_reverse (cfg_small false) [1008; 1000] [0; 0] 8
           sample_returned 1008 1016).
  - reflexivity.
  - reflexivity.
  - simpl. unfold nullptr. repeat split; try lia.
    exists 1000. split; [reflexivity|]. repeat split; try lia.
    exists 1016. split; reflexivity.
  - repeat constructor; rewrite ?elem_of_cons, ?elem_of_nil; lia.
Defined.

(** ** Through the global pool and back *)

Lemma is_list_head h p l : is_list h p l → p = hd nullptr l.
Proof. destruct l as [|a l]; [done|]. by intros (-> & _). Qed.

(** A chain over given cells fixes the link of each of them. *)
Lemma is_list_links l : ∀ h h' p p',
  is_list h p l → is_list h' p' l → ∀ x, x ∈ l → h !! x = h' !! x.
Proof.
  induction l as [|a l IH]; intros h h' p p' Hl Hl' x Hx; [by apply elem_of_nil in Hx|].
  destruct Hl as (-> & _ & r & Hr & Hl). destruct Hl' as (-> & _ & r' & Hr' & Hl').
  apply elem_of_cons in Hx as [->|Hx]; [|by eapply IH].
  rewrite Hr, Hr'. f_equal.
  apply is_list_head in Hl, Hl'. congruence.
Qed.

(** Two well-formed states whose global lists of a class hold the same
    cells, in the same order, have the same global entry for it. *)
Lemma WF_pool_entry cfg st own st' own' sz :
  WF cfg st own → WF cfg st' own' → own' (Global sz) = own (Global sz) →
  s_pool st' !! sz = s_pool st !! sz.
Proof.
  intros Hwf Hwf' Hsame. destruct (decide (sz < eTableSize cfg)%nat) as [Hsz|Hge].
  - destruct (WF_pool_lookup cfg _ _ _ Hwf Hsz) as [pe Hpe].
    destruct (WF_pool_lookup cfg _ _ _ Hwf' Hsz) as [pe' Hpe'].
    destruct (wf_global _ _ _ Hwf _ _ Hpe) as [Hl Hcount].
    destruct (wf_global _ _ _ Hwf' _ _ Hpe') as [Hl' Hcount'].
    rewrite Hsame in Hl', Hcount'. apply is_list_head in Hl, Hl'.
    rewrite Hpe, Hpe'. f_equal. destruct pe, pe'. simpl in *. congruence.
  - rewrite !lookup_ge_None_2; [done | |].
    + rewrite (wf_pool_length _ _ _ Hwf). lia.
    + rewrite (wf_pool_length _ _ _ Hwf'). lia.
Qed.

(** X21. A refill from the global pool can be undone: when every local
    list of the thread is empty and the global list of a class holds at
    least the [N] cells of a batch, [allocate], [deallocate] of the cell
    returned and [flushPool] lead back to exactly the state before: same
    tables, same counts, same links. *)
Theorem refill_return_flush_roundtrip cfg fuel blk st own sz W N :
  constants_ok cfg → WF cfg st own → fuel_enough fuel own →
  (0 < sz < eTableSize cfg)%nat →
  (∀ sz', (0 < sz' < eTableSize cfg)%nat → s_tp st !! sz' = Some nullptr) →
  slicesPerBlock cfg (Nat.max sz (uint16 (eMinBytes cfg))) = (W, N) →
  N ≤ Z.of_nat (length (own (Global sz))) →
  ∃ p st1 st2, allocate cfg blk sz st = Ok (p, st1)
    ∧ deallocate sz p st1 = Ok st2
    ∧ flushPool cfg fuel st2 = Ok st.
Proof.
  intros Hconst Hwf Hfuel Hsz Hnull HWN Hlen.
  pose proof Hconst as ([Hptr Hblock] & Htab & Hslices).
  pose proof (Hslices sz Hsz) as HN. rewrite HWN in HN. simpl in HN.
  assert (Hempty : ∀ sz', sz' ∈ sizes cfg → own (Local sz') = []).
  { intros sz' Hsz'%elem_of_sizes. specialize (Hnull sz' Hsz').
    eapply is_list_null. by apply (wf_local _ _ _ Hwf sz'). }
  assert (Hin : sz ∈ sizes cfg) by (by apply elem_of_sizes).
  pose proof (take_drop (Z.to_nat N) (own (Global sz))) as Hsplit.
  destruct (take (Z.to_nat N) (own (Global sz))) as [|a g1] eqn:Htake.
  { apply (f_equal length) in Htake. rewrite length_take_le in Htake by lia.
    simpl in Htake. lia. }
  set (g2 := drop (Z.to_nat N) (own (Global sz))) in *.
  assert (HaN : Z.of_nat (length (a :: g1)) = N).
  { rewrite <- Htake, length_take_le by lia. lia. }
  destruct (fillPool_global cfg st own blk sz W N a g1 g2)
    as (st1 & Hrun1 & Hwf1 & Hbl1 & Hna1 & Hheap1 & Htab1);
    [done | lia | done | by apply Hempty | done | done |].
  match type of Hwf1 with WF _ _ ?o => set (own1 := o) in * end.
  destruct (deallocate_spec cfg st1 own1 sz a (own Outstanding))
    as (old & Hold & Hrun2 & Hwf2); [done | lia | | by unfold own1; fn_simpl |].
  { apply (fillPool_Ok_inv cfg _ _ _ _ _ _ Hrun1). }
  match type of Hwf2 with WF _ ?s ?o => set (st2 := s) in *; set (own2 := o) in * end.
  assert (HL2 : ∀ sz', sz' ∈ sizes cfg →
            own2 (Local sz') = if decide (sz' = sz) then a :: g1 else []).
  { intros sz' Hsz'. unfold own2, own1. destruct (decide (sz' = sz)) as [->|Hne].
    - by fn_simpl.
    - fn_simpl. by apply Hempty. }
  assert (HG2 : ∀ sz', own2 (Global sz') = if decide (sz' = sz) then g2 else own (Global sz')).
  { intros sz'. unfold own2, own1. destruct (decide (sz' = sz)) as [->|Hne]; by fn_simpl. }
  destruct (flush_loop cfg fuel (sizes cfg) st2 own2)
    as (st3 & Hrun3 & Hwf3 & Htp3 & Hbl3 & Hna3 & Hheap3);
    [apply NoDup_sizes | by intros sz' [_ ?]%elem_of_sizes | done | |].
  { intros sz'. unfold own2, own1. destruct (Hfuel sz') as [HLf _].
    destruct (Hfuel sz) as [_ HGf]. destruct (decide (sz' = sz)) as [->|Hne]; fn_simpl.
    - simpl in HaN |- *. lia.
    - lia. }
  exists a, st1, st2.
  split.
  { rewrite (allocate_empty cfg st own blk sz); [done | done | lia | lia | by apply Hempty]. }
  split; [done|]. unfold flushPool. rewrite decide_True by done. rewrite Hrun3.
  f_equal.
  assert (HG3 : ∀ sz', flush_on (sizes cfg) own2 (Global sz') = own (Global sz')).
  { intros sz'. unfold flush_on. destruct (decide (sz' ∈ sizes cfg)) as [Hsz'|Hsz'].
    - rewrite HL2, HG2 by done. destruct (decide (sz' = sz)) as [->|Hne]; [|done].
      by rewrite <- Hsplit.
    - rewrite HG2. destruct (decide (sz' = sz)) as [->|Hne]; done. }
  assert (Hheap : heap st3 = heap st).
  { apply map_eq. intros x. destruct (decide (x ∈ a :: g1)) as [Hx|Hx].
    - destruct (WF_pool_lookup cfg _ _ _ Hwf (proj2 Hsz)) as [pe Hpe].
      destruct (WF_pool_lookup cfg _ _ _ Hwf3 (proj2 Hsz)) as [pe3 Hpe3].
      destruct (wf_global _ _ _ Hwf _ _ Hpe) as [Hl _].
      destruct (wf_global _ _ _ Hwf3 _ _ Hpe3) as [Hl3 _]. rewrite HG3 in Hl3.
      eapply is_list_links; [done | done |].
      rewrite <- Hsplit. apply elem_of_app. by left.
    - rewrite Hheap3.
      + unfold st2. st_simpl. rewrite lookup_insert_ne by (intros <-; apply Hx; left).
        by apply Hheap1.
      + intros sz' Hsz'. rewrite HL2 by done.
        destruct (decide (sz' = sz)); [done | by intros ?%elem_of_nil]. }
  assert (Htp : s_tp st3 = s_tp st).
  { apply list_eq. intros i. rewrite Htp3, lookup_foldl_clear.
    destruct (decide (i ∈ sizes cfg ∧ (i < length (s_tp st2))%nat)) as [[Hi _]|Hi].
    - symmetry. by apply Hnull, elem_of_sizes.
    - unfold st2. st_simpl.
      destruct (decide (i = sz)) as [->|Hne].
      + exfalso. apply Hi. split; [done|]. unfold st2. st_simpl. rewrite length_insert.
        rewrite (wf_tp_length _ _ _ Hwf1). lia.
      + rewrite list_lookup_insert_ne by done. by apply Htab1. }
  assert (Hpool : s_pool st3 = s_pool st).
  { apply list_eq. intros i.
    by apply (WF_pool_entry cfg st own st3 (flush_on (sizes cfg) own2) i). }
  destruct st3 as [h3 tp3 pool3 bl3 na3], st as [h tp pool bl na].
  simpl in *. subst. f_equal; congruence.
Qed.

Lemma refill_return_flush_roundtrip_witness :
  ∃ p st1 st2, allocate (cfg_small false) 3000 8 sample_flushed = Ok (p, st1)
    ∧ deallocate 8 p st1 = Ok st2
    ∧ flushPool (cfg_small false) 8 st2 = Ok sample_flushed.
Proof.
  apply (refill_return_flush_roundtrip (cfg_small false) 8 3000 sample_flushed
           own_flushed 8 1 4).
  - apply constants_ok_small.
  - apply sample_flushed_WF.
  - apply own_flushed_short. lia.
  - simpl. lia.
  - intros sz' Hsz'. apply (lookup_replicate_2 17 nullptr sz'). simpl in Hsz'. lia.
  - reflexivity.
  - simpl. lia.
Defined.

(** ** The bytes of the thread-local lists *)

Lemma bytes_held_local_insert cfg own own' sz l :
  (0 < sz < eTableSize cfg)%nat →
  (∀ sz', own' (Local sz') = if decide (sz' = sz) then l else own (Local sz')) →
  bytes_held (sizes cfg) own' Local
  = bytes_held (sizes cfg) own Local
    + (Z.of_nat (length l) - Z.of_nat (length (own (Local sz)))) * Z.of_nat sz.
Proof.
  intros Hsz Hown. unfold bytes_held.
  set (d := (Z.of_nat (length l) - Z.of_nat (length (own (Local sz)))) * Z.of_nat sz).
  assert (Hd : sum_over (sizes cfg) (fun sz' => if decide (sz' = sz) then d else 0) = d).
  { rewrite (sum_over_single _ _ sz);
      [by rewrite decide_True | apply NoDup_sizes | by apply elem_of_sizes |].
    intros sz' _ Hne. by rewrite decide_False. }
  rewrite <- Hd at 1. rewrite <- sum_over_plus. apply sum_over_ext.
  intros sz' _. rewrite Hown. unfold d. destruct (decide (sz' = sz)) as [->|]; lia.
Qed.

(** X22. The bytes reported for the thread-local lists follow the calls:
    taking a cell from a non-empty local list with [allocate(sz)] lowers
    what [memoryInThreadFreeList] returns by exactly [sz], and returning a
    held cell with [deallocate(sz, p)] raises it by exactly [sz]. *)
Theorem thread_bytes_follow_calls cfg fuel blk st own sz a l p :
  WF cfg st own → fuel_enough fuel own → (0 < sz < eTableSize cfg)%nat →
  own (Local sz) = a :: l → p ≠ nullptr → p ∈ own Outstanding →
  ∃ n w st1 w1 st2 w2,
    memoryInThreadFreeList cfg fuel st = Ok (w, n)
    ∧ allocate cfg blk sz st = Ok (a, st1)
    ∧ memoryInThreadFreeList cfg fuel st1 = Ok (w1, n - Z.of_nat sz)
    ∧ deallocate sz p st = Ok st2
    ∧ memoryInThreadFreeList cfg (S fuel) st2 = Ok (w2, n + Z.of_nat sz).
Proof.
  intros Hwf Hfuel Hsz HL Hp Hin.
  destruct (allocate_fast cfg st own blk sz a l Hwf (proj2 Hsz) HL)
    as (r & _ & Hrun1 & Hwf1).
  apply elem_of_Permutation in Hin as [rest Hperm].
  destruct (deallocate_spec cfg st own sz p rest Hwf (proj2 Hsz) Hp Hperm)
    as (old & _ & Hrun2 & Hwf2).
  eexists _, _, _, _, _, _.
  split; [by apply memoryInThreadFreeList_spec|]. split; [done|].
  split; [|split; [done|]].
  - rewrite (memoryInThreadFreeList_spec cfg fuel _ _ Hwf1).
    + f_equal. f_equal. rewrite (bytes_held_local_insert cfg own _ sz l Hsz).
      * rewrite HL. simpl length. lia.
      * intros sz'. destruct (decide (sz' = sz)) as [->|]; by fn_simpl.
    + intros sz'. destruct (Hfuel sz') as [H1 H2].
      destruct (decide (sz' = sz)) as [->|]; fn_simpl; [|done].
      rewrite HL in H1. simpl in H1. lia.
  - rewrite (memoryInThreadFreeList_spec cfg (S fuel) _ _ Hwf2).
    + f_equal. f_equal.
      rewrite (bytes_held_local_insert cfg own _ sz (p :: own (Local sz)) Hsz).
      * simpl length. lia.
      * intros sz'. destruct (decide (sz' = sz)) as [->|]; by fn_simpl.
    + intros sz'. destruct (Hfuel sz') as [H1 H2].
      destruct (decide (sz' = sz)) as [->|]; fn_simpl; simpl; lia.
Qed.

Lemma thread_bytes_follow_calls_witness :
  ∃ n w st1 w1 st2 w2,
    memoryInThreadFreeList (cfg_small false) 8 sample_refilled = Ok (w, n)
    ∧ allocate (cfg_small false) 2000 8 sample_refilled = Ok (1008, st1)
    ∧ memoryInThreadFreeList (cfg_small false) 8 st1 = Ok (w1, n - 8)
    ∧ deallocate 8 1000 sample_refilled = Ok st2
    ∧ memoryInThreadFreeList (cfg_small false) 9 st2 = Ok (w2, n + 8).
Proof.
  apply (thread_bytes_follow_calls (cfg_small false) 8 2000 sample_refilled own_refilled
           8 1008 [1016; 1024] 1000).
  - apply sample_refilled_WF.
  - intros sz. unfold own_refilled, nothing_held.
    destruct (decide (sz = 8%nat)) as [->|Hne]; fn_simpl; simpl; lia.
  - simpl. lia.
  - reflexivity.
  - unfold nullptr. lia.
  - unfold own_refilled. fn_simpl. left.
Defined.
